(** * paperio: the server-side core (geometry, world, capture and collision)

    A shallow embedding of
      - packages/common/src/math/geometry.ts   (pure geometry),
      - packages/common/src/GameState.ts       (players, movement, trail),
      - packages/common/src/constants.ts,
      - packages/server/src/SpatialHash.ts,
      - packages/server/src/rooms/GameRoom.ts  (checkCaptureAndCollisions),
    and the properties of these that the specification states.

    JavaScript numbers are IEEE-754 binary64 values; they are modelled by
    Rocq's primitive floats, whose [+ - * / sqrt] and comparisons are the
    IEEE operations JavaScript uses.  The transcendental functions of the
    Math object ([sin], [cos], [atan2], [pow], [hypot]) are left to the
    platform by ECMAScript, so they are a parameter of the model
    ([MathLib]). *)

From Stdlib Require Import Floats ZArith Bool String List Lia.
Import ListNotations.

Local Open Scope float_scope.

(** Decimal literals such as [0.1] denote the nearest binary64 value, as
    they do in JavaScript. *)
Set Warnings "-inexact-float".

(** ** JavaScript numbers *)

(** [Math.PI], the binary64 value nearest to pi. *)
Definition Math_PI : float := 0x1.921fb54442d18p+1.

(** [Math.abs] and [Math.sqrt]. *)
Definition Math_abs (v : float) : float := PrimFloat.abs v.
Definition Math_sqrt (v : float) : float := PrimFloat.sqrt v.

(** [isNaN] and [isFinite] on a number. *)
Definition isNaN (v : float) : bool := negb (v =? v).
Definition isFinite (v : float) : bool := PrimFloat.abs v <? infinity.

(** [Math.floor].  Every binary64 value of magnitude at least 2^52 is an
    integer; below that, adding and subtracting 2^52 rounds to the nearest
    integer, which is then corrected downwards.  NaN, the infinities and
    the zeros are returned unchanged. *)
Definition Math_floor (v : float) : float :=
  if v =? 0 then v
  else if PrimFloat.abs v <? 0x1p52 then
    let r := if 0 <? v then (v + 0x1p52) - 0x1p52 else (v - 0x1p52) + 0x1p52 in
    if v <? r then r - 1 else r
  else v.

(** The part of the [Math] object whose results ECMAScript leaves to the
    implementation. *)
Record MathLib : Type := mkMathLib {
  Math_sin : float -> float;
  Math_cos : float -> float;
  Math_atan2 : float -> float -> float;
  Math_pow : float -> float -> float;
  Math_hypot : float -> float -> float
}.

(** JavaScript's [a || b] on a number that may be undefined: the falsy
    numbers are [0], [-0] and [NaN]. *)
Definition js_or (a : option float) (b : float) : float :=
  match a with
  | Some v => if (v =? 0) || isNaN v then b else v
  | None => b
  end.

(** ** types.ts *)

Record Point : Type := mkPoint { x : float; y : float }.

Record BoundaryIntersection : Type := mkHit { point : Point; edgeIndex : Z }.

Definition origin : Point := mkPoint 0 0.

(** ** math/geometry.ts *)

(** The crossing test of one polygon edge, the body of the loop of
    [isPointInPolygon]: [pi] is [polygon[i]], [pj] is [polygon[j]]. *)
Definition edgeCrosses (pt pi pj : Point) : bool :=
  let xi := x pi in
  let yi := y pi in
  let xj := x pj in
  let yj := y pj in
  xorb (y pt <? yi) (y pt <? yj) &&
  (x pt <? ((xj - xi) * (y pt - yi)) / (yj - yi) + xi).

(** [for (let i = 0, j = polygon.length - 1; i < polygon.length; j = i++)] *)
Fixpoint pip_loop (pt : Point) (polygon : list Point) (fuel i j : nat)
    (inside : bool) : bool :=
  match fuel with
  | O => inside
  | S fuel' =>
      let intersect := edgeCrosses pt (nth i polygon origin) (nth j polygon origin) in
      pip_loop pt polygon fuel' (S i) i (if intersect then negb inside else inside)
  end.

Definition isPointInPolygon (pt : Point) (polygon : list Point) : bool :=
  pip_loop pt polygon (length polygon) 0 (length polygon - 1) false.

Definition getSegmentIntersection (A B C D : Point) : option Point :=
  let denom := (y D - y C) * (x B - x A) - (x D - x C) * (y B - y A) in
  if denom =? 0 then None
  else
    let ua := ((x D - x C) * (y A - y C) - (y D - y C) * (x A - x C)) / denom in
    let ub := ((x B - x A) * (y A - y C) - (y B - y A) * (x A - x C)) / denom in
    if (0 <=? ua) && (ua <=? 1) && (0 <=? ub) && (ub <=? 1)
    then Some (mkPoint (x A + ua * (x B - x A)) (y A + ua * (y B - y A)))
    else None.

Definition segmentsIntersect (a1 a2 b1 b2 : Point) : bool :=
  match getSegmentIntersection a1 a2 b1 b2 with
  | Some _ => true
  | None => false
  end.

(** [for (let i = 0; i < polygon.length; i++)], first edge hit wins. *)
Fixpoint fbi_loop (p1 p2 : Point) (polygon : list Point) (fuel i : nat)
    : option BoundaryIntersection :=
  match fuel with
  | O => None
  | S fuel' =>
      let edgeStart := nth i polygon origin in
      let edgeEnd := nth ((i + 1) mod length polygon) polygon origin in
      match getSegmentIntersection p1 p2 edgeStart edgeEnd with
      | Some intersection => Some (mkHit intersection (Z.of_nat i))
      | None => fbi_loop p1 p2 polygon fuel' (S i)
      end
  end.

Definition findBoundaryIntersection (p1 p2 : Point) (polygon : list Point)
    : option BoundaryIntersection :=
  fbi_loop p1 p2 polygon (length polygon) 0.

(** The shoelace accumulation shared by [getSignedPolygonArea] and
    [GameRoom.calculateArea]: [area += xi*yj; area -= xj*yi] with
    [j = (i + 1) % polygon.length]. *)
Fixpoint shoelace_loop (polygon : list Point) (fuel i : nat) (area : float) : float :=
  match fuel with
  | O => area
  | S fuel' =>
      let j := ((i + 1) mod length polygon)%nat in
      let pi := nth i polygon origin in
      let pj := nth j polygon origin in
      let area := area + x pi * y pj in
      let area := area - x pj * y pi in
      shoelace_loop polygon fuel' (S i) area
  end.

Definition getSignedPolygonArea (polygon : list Point) : float :=
  shoelace_loop polygon (length polygon) 0 0 / 2.

Definition getPolygonArea (polygon : list Point) : float :=
  Math_abs (getSignedPolygonArea polygon).

Definition ensureClockwise (polygon : list Point) : list Point :=
  if getSignedPolygonArea polygon <? 0 then rev polygon else polygon.

(** [for (let i = 1; i < polygon.length; i++)], [last] being the last
    vertex kept so far. *)
Fixpoint simplify_loop (tolerance : float) (last : Point) (rest : list Point)
    : list Point :=
  match rest with
  | [] => []
  | curr :: rest' =>
      let dx := x curr - x last in
      let dy := y curr - y last in
      let distSq := dx * dx + dy * dy in
      if tolerance * tolerance <? distSq
      then curr :: simplify_loop tolerance curr rest'
      else simplify_loop tolerance last rest'
  end.

Definition simplifyPolygon (polygon : list Point) (tolerance : float) : list Point :=
  if (length polygon <? 3)%nat then polygon
  else
    match polygon with
    | [] => []
    | p0 :: rest => p0 :: simplify_loop tolerance p0 rest
    end.

(** *** Arrays that may hold [undefined]

    [polygon[i]] at an index outside the array is [undefined]; reading a
    coordinate of it throws a TypeError.  An array that may hold such
    elements is a [list (option Point)]. *)

Inductive Outcome (A : Type) : Type :=
  | Returns (a : A)       (* normal completion *)
  | Throws                (* an exception propagates to the caller *)
  | Hangs.                (* the loop never terminates *)
Arguments Returns {A} a.
Arguments Throws {A}.
Arguments Hangs {A}.

Definition aget (polygon : list Point) (i : Z) : option Point :=
  if (i <? 0)%Z then None else nth_error polygon (Z.to_nat i).

(** All elements defined, or [None] when one is [undefined]. *)
Fixpoint definedPolygon (arr : list (option Point)) : option (list Point) :=
  match arr with
  | [] => Some []
  | None :: _ => None
  | Some p :: rest =>
      match definedPolygon rest with
      | Some l => Some (p :: l)
      | None => None
      end
  end.

(** [while (i !== (endEdgeIndex + 1) % polygon.length)].  JavaScript's [%]
    takes the sign of the dividend ([Z.rem]).  The index stays in
    [(-n, n)], so a walk that has not met its target after [2n] steps never
    will ([extractBoundaryArc_diverges] below): [None] stands for the loop
    that does not terminate. *)
Fixpoint eba_loop (polygon : list Point) (target : Z) (fuel : nat) (i : Z)
    (arc : list (option Point)) : option (list (option Point)) :=
  if (i =? target)%Z then Some arc
  else
    match fuel with
    | O => None
    | S fuel' =>
        eba_loop polygon target fuel'
          (Z.rem (i + 1) (Z.of_nat (length polygon))) (arc ++ [aget polygon i])
    end.

Definition extractBoundaryArc (polygon : list Point) (startEdgeIndex endEdgeIndex : Z)
    : option (list (option Point)) :=
  let n := Z.of_nat (length polygon) in
  if (n =? 0)%Z then None (* both indices are NaN, and NaN !== NaN *)
  else eba_loop polygon (Z.rem (endEdgeIndex + 1) n) (2 * length polygon)
         (Z.rem (startEdgeIndex + 1) n) [].

(** [for (let count = 0; count < territory.length; count++)] of the
    same-edge case. *)
Fixpoint fullArc_loop (territory : list Point) (count : nat) (i : Z)
    : list (option Point) :=
  match count with
  | O => []
  | S count' =>
      aget territory i
        :: fullArc_loop territory count' (Z.rem (i + 1) (Z.of_nat (length territory)))
  end.

(** [getPolygonArea] of a candidate: a TypeError when a vertex is
    [undefined]. *)
Definition candidateArea (cand : list (option Point)) : Outcome float :=
  match definedPolygon cand with
  | Some poly => Returns (getPolygonArea poly)
  | None => Throws
  end.

(** The larger of two candidates, [a > b ? candidateA : candidateB]; both
    areas are computed first. *)
Definition pickLarger (candidateA candidateB : list (option Point))
    : Outcome (list Point) :=
  match definedPolygon candidateA, definedPolygon candidateB with
  | Some polyA, Some polyB =>
      if getPolygonArea polyB <? getPolygonArea polyA
      then Returns polyA else Returns polyB
  | _, _ => Throws
  end.

Definition computeCapture (territory trail : list Point) (exitPoint : Point)
    (exitEdgeIndex : Z) (entryPoint : Point) (entryEdgeIndex : Z)
    : Outcome (list Point) :=
  let loop := map Some (exitPoint :: trail ++ [entryPoint]) in
  if (exitEdgeIndex =? entryEdgeIndex)%Z then
    (* CASE 1: same edge *)
    let candidateA := loop in
    let arcB :=
      fullArc_loop territory (length territory)
        (Z.rem (exitEdgeIndex + 1) (Z.of_nat (length territory))) in
    let candidateB := loop ++ arcB in
    pickLarger candidateA candidateB
  else
    (* CASE 2: different edges *)
    match extractBoundaryArc territory exitEdgeIndex entryEdgeIndex with
    | None => Hangs
    | Some arcA =>
        match extractBoundaryArc territory entryEdgeIndex exitEdgeIndex with
        | None => Hangs
        | Some arcB =>
            let candidateA := loop ++ rev arcA in
            let candidateB := loop ++ arcB in
            (* Math.abs of an absolute area is the area itself *)
            match definedPolygon candidateA, definedPolygon candidateB with
            | Some polyA, Some polyB =>
                if Math_abs (getPolygonArea polyB) <? Math_abs (getPolygonArea polyA)
                then Returns polyA else Returns polyB
            | _, _ => Throws
            end
        end
    end.

(** ** constants.ts *)

Definition WORLD_WIDTH : float := 5000.
Definition WORLD_HEIGHT : float := 5000.
Definition PLAYER_SPEED : float := 500.
Definition PLAYER_TURN_SPEED : float := 12.
Definition STARTING_TERRITORY_SIZE : float := 300.
Definition TRAIL_POINT_DISTANCE : float := 10.

(** ** The Player record (types.ts)

    [posX], [posY] are the fields [x], [y] of the source (the names are
    taken by [Point]).  [prevX], [prevY] and [territoryChanged] are the
    properties the code attaches with [(player as any)]: the first two are
    undefined until the first movement update, and [territoryChanged] is
    only tested for truth, so undefined reads as [false]. *)
Record Player : Type := mkPlayer {
  id : string;
  posX : float;
  posY : float;
  angle : float;
  targetAngle : float;
  speed : float;
  color : string;
  territory : list Point;
  trail : list Point;
  isOutside : bool;
  exitPoint : option Point;
  exitEdgeIndex : Z;
  isDead : bool;
  deathTimer : float;
  score : float;
  invulnerableTimer : float;
  hasWon : bool;
  prevX : option float;
  prevY : option float;
  territoryChanged : bool
}.

(** Assignment to one field, [player.f = v]. *)
Definition set_posX (v : float) (p : Player) : Player :=
  mkPlayer (id p) v (posY p) (angle p) (targetAngle p) (speed p) (color p)
    (territory p) (trail p) (isOutside p) (exitPoint p) (exitEdgeIndex p)
    (isDead p) (deathTimer p) (score p) (invulnerableTimer p) (hasWon p)
    (prevX p) (prevY p) (territoryChanged p).
Definition set_posY (v : float) (p : Player) : Player :=
  mkPlayer (id p) (posX p) v (angle p) (targetAngle p) (speed p) (color p)
    (territory p) (trail p) (isOutside p) (exitPoint p) (exitEdgeIndex p)
    (isDead p) (deathTimer p) (score p) (invulnerableTimer p) (hasWon p)
    (prevX p) (prevY p) (territoryChanged p).
Definition set_angle (v : float) (p : Player) : Player :=
  mkPlayer (id p) (posX p) (posY p) v (targetAngle p) (speed p) (color p)
    (territory p) (trail p) (isOutside p) (exitPoint p) (exitEdgeIndex p)
    (isDead p) (deathTimer p) (score p) (invulnerableTimer p) (hasWon p)
    (prevX p) (prevY p) (territoryChanged p).
Definition set_targetAngle (v : float) (p : Player) : Player :=
  mkPlayer (id p) (posX p) (posY p) (angle p) v (speed p) (color p)
    (territory p) (trail p) (isOutside p) (exitPoint p) (exitEdgeIndex p)
    (isDead p) (deathTimer p) (score p) (invulnerableTimer p) (hasWon p)
    (prevX p) (prevY p) (territoryChanged p).
Definition set_speed (v : float) (p : Player) : Player :=
  mkPlayer (id p) (posX p) (posY p) (angle p) (targetAngle p) v (color p)
    (territory p) (trail p) (isOutside p) (exitPoint p) (exitEdgeIndex p)
    (isDead p) (deathTimer p) (score p) (invulnerableTimer p) (hasWon p)
    (prevX p) (prevY p) (territoryChanged p).
Definition set_territory (v : list Point) (p : Player) : Player :=
  mkPlayer (id p) (posX p) (posY p) (angle p) (targetAngle p) (speed p)
    (color p) v (trail p) (isOutside p) (exitPoint p) (exitEdgeIndex p)
    (isDead p) (deathTimer p) (score p) (invulnerableTimer p) (hasWon p)
    (prevX p) (prevY p) (territoryChanged p).
Definition set_trail (v : list Point) (p : Player) : Player :=
  mkPlayer (id p) (posX p) (posY p) (angle p) (targetAngle p) (speed p)
    (color p) (territory p) v (isOutside p) (exitPoint p) (exitEdgeIndex p)
    (isDead p) (deathTimer p) (score p) (invulnerableTimer p) (hasWon p)
    (prevX p) (prevY p) (territoryChanged p).
Definition set_isOutside (v : bool) (p : Player) : Player :=
  mkPlayer (id p) (posX p) (posY p) (angle p) (targetAngle p) (speed p)
    (color p) (territory p) (trail p) v (exitPoint p) (exitEdgeIndex p)
    (isDead p) (deathTimer p) (score p) (invulnerableTimer p) (hasWon p)
    (prevX p) (prevY p) (territoryChanged p).
Definition set_exitPoint (v : option Point) (p : Player) : Player :=
  mkPlayer (id p) (posX p) (posY p) (angle p) (targetAngle p) (speed p)
    (color p) (territory p) (trail p) (isOutside p) v (exitEdgeIndex p)
    (isDead p) (deathTimer p) (score p) (invulnerableTimer p) (hasWon p)
    (prevX p) (prevY p) (territoryChanged p).
Definition set_exitEdgeIndex (v : Z) (p : Player) : Player :=
  mkPlayer (id p) (posX p) (posY p) (angle p) (targetAngle p) (speed p)
    (color p) (territory p) (trail p) (isOutside p) (exitPoint p) v (isDead p)
    (deathTimer p) (score p) (invulnerableTimer p) (hasWon p) (prevX p)
    (prevY p) (territoryChanged p).
Definition set_isDead (v : bool) (p : Player) : Player :=
  mkPlayer (id p) (posX p) (posY p) (angle p) (targetAngle p) (speed p)
    (color p) (territory p) (trail p) (isOutside p) (exitPoint p)
    (exitEdgeIndex p) v (deathTimer p) (score p) (invulnerableTimer p)
    (hasWon p) (prevX p) (prevY p) (territoryChanged p).
Definition set_deathTimer (v : float) (p : Player) : Player :=
  mkPlayer (id p) (posX p) (posY p) (angle p) (targetAngle p) (speed p)
    (color p) (territory p) (trail p) (isOutside p) (exitPoint p)
    (exitEdgeIndex p) (isDead p) v (score p) (invulnerableTimer p) (hasWon p)
    (prevX p) (prevY p) (territoryChanged p).
Definition set_score (v : float) (p : Player) : Player :=
  mkPlayer (id p) (posX p) (posY p) (angle p) (targetAngle p) (speed p)
    (color p) (territory p) (trail p) (isOutside p) (exitPoint p)
    (exitEdgeIndex p) (isDead p) (deathTimer p) v (invulnerableTimer p)
    (hasWon p) (prevX p) (prevY p) (territoryChanged p).
Definition set_invulnerableTimer (v : float) (p : Player) : Player :=
  mkPlayer (id p) (posX p) (posY p) (angle p) (targetAngle p) (speed p)
    (color p) (territory p) (trail p) (isOutside p) (exitPoint p)
    (exitEdgeIndex p) (isDead p) (deathTimer p) (score p) v (hasWon p)
    (prevX p) (prevY p) (territoryChanged p).
Definition set_hasWon (v : bool) (p : Player) : Player :=
  mkPlayer (id p) (posX p) (posY p) (angle p) (targetAngle p) (speed p)
    (color p) (territory p) (trail p) (isOutside p) (exitPoint p)
    (exitEdgeIndex p) (isDead p) (deathTimer p) (score p)
    (invulnerableTimer p) v (prevX p) (prevY p) (territoryChanged p).
Definition set_prevX (v : option float) (p : Player) : Player :=
  mkPlayer (id p) (posX p) (posY p) (angle p) (targetAngle p) (speed p)
    (color p) (territory p) (trail p) (isOutside p) (exitPoint p)
    (exitEdgeIndex p) (isDead p) (deathTimer p) (score p)
    (invulnerableTimer p) (hasWon p) v (prevY p) (territoryChanged p).
Definition set_prevY (v : option float) (p : Player) : Player :=
  mkPlayer (id p) (posX p) (posY p) (angle p) (targetAngle p) (speed p)
    (color p) (territory p) (trail p) (isOutside p) (exitPoint p)
    (exitEdgeIndex p) (isDead p) (deathTimer p) (score p)
    (invulnerableTimer p) (hasWon p) (prevX p) v (territoryChanged p).
Definition set_territoryChanged (v : bool) (p : Player) : Player :=
  mkPlayer (id p) (posX p) (posY p) (angle p) (targetAngle p) (speed p)
    (color p) (territory p) (trail p) (isOutside p) (exitPoint p)
    (exitEdgeIndex p) (isDead p) (deathTimer p) (score p)
    (invulnerableTimer p) (hasWon p) (prevX p) (prevY p) v.

(** ** GameState.ts

    [players: Map<string, Player>] iterates in insertion order, and
    [Map.prototype.set] on a key that is present replaces the value in
    place: the map is the list of its values, keyed by [id]. *)

Definition GameState : Type := list Player.

Definition newGameState : GameState := [].

Definition getPlayer (players : GameState) (pid : string) : option Player :=
  find (fun p => String.eqb (id p) pid) players.

(** [players.set(player.id, player)]. *)
Fixpoint setPlayer (players : GameState) (player : Player) : GameState :=
  match players with
  | [] => [player]
  | q :: rest =>
      if String.eqb (id q) (id player) then player :: rest
      else q :: setPlayer rest player
  end.

Definition removePlayer (players : GameState) (pid : string) : GameState :=
  filter (fun p => negb (String.eqb (id p) pid)) players.

Definition getAllPlayers (players : GameState) : list Player := players.

(** A loop counter as a number. *)
Definition float_of_nat (n : nat) : float := PrimFloat.of_uint63 (Uint63.of_Z (Z.of_nat n)).

Section WithMath.

Variable M : MathLib.

(** [for (let i = 0; i < segments; i++)] of [createPlayer]. *)
Fixpoint seed_loop (cx cy radius : float) (segments fuel i : nat) : list Point :=
  match fuel with
  | O => []
  | S fuel' =>
      let angle := (float_of_nat i / float_of_nat segments) * Math_PI * 2 in
      mkPoint (cx + Math_cos M angle * radius) (cy + Math_sin M angle * radius)
        :: seed_loop cx cy radius segments fuel' (S i)
  end.

Definition newPlayer (pid : string) (px py : float) (pcolor : string) : Player :=
  let radius := STARTING_TERRITORY_SIZE / 2 + 5 in
  let segments := 32%nat in
  let territory := seed_loop px py radius segments segments 0 in
  let initialArea := Math_floor (getPolygonArea territory) in
  {| id := pid; posX := px; posY := py; angle := 0; targetAngle := 0;
     speed := 0; color := pcolor; territory := territory; trail := [];
     isOutside := false; exitPoint := None; exitEdgeIndex := (-1)%Z;
     isDead := false; deathTimer := 0; score := initialArea;
     invulnerableTimer := 0; hasWon := false;
     prevX := None; prevY := None; territoryChanged := false |}.

(** [createPlayer] returns the player and stores it in the map. *)
Definition createPlayer (players : GameState) (pid : string) (px py : float)
    (pcolor : string) : Player * GameState :=
  let player := newPlayer pid px py pcolor in
  (player, setPlayer players player).

(** [while (angleDiff <= -Math.PI) angleDiff += Math.PI * 2;]
    [None] when the fuel runs out before the condition turns false. *)
Fixpoint wrapUp (fuel : nat) (angleDiff : float) : option float :=
  if angleDiff <=? - Math_PI then
    match fuel with
    | O => None
    | S fuel' => wrapUp fuel' (angleDiff + Math_PI * 2)
    end
  else Some angleDiff.

(** [while (angleDiff > Math.PI) angleDiff -= Math.PI * 2;] *)
Fixpoint wrapDown (fuel : nat) (angleDiff : float) : option float :=
  if Math_PI <? angleDiff then
    match fuel with
    | O => None
    | S fuel' => wrapDown fuel' (angleDiff - Math_PI * 2)
    end
  else Some angleDiff.

Definition normalizeDiff (fuel : nat) (angleDiff : float) : option float :=
  match wrapUp fuel angleDiff with
  | Some d => wrapDown fuel d
  | None => None
  end.

(** The movement update once the turn [angleDiff] is known. *)
Definition moveWithDiff (player : Player) (dt angleDiff : float) : Player :=
  let angle0 := Math_atan2 M (Math_sin M (angle player)) (Math_cos M (angle player)) in
  let angle1 := angle0 + angleDiff * PLAYER_TURN_SPEED * dt in
  let prevX0 := posX player in
  let prevY0 := posY player in
  let x1 := posX player + Math_cos M angle1 * speed player * dt in
  let y1 := posY player + Math_sin M angle1 * speed player * dt in
  let centerX := WORLD_WIDTH / 2 in
  let centerY := WORLD_HEIGHT / 2 in
  let maxRadius := WORLD_WIDTH / 2 - 1 in
  let dx := x1 - centerX in
  let dy := y1 - centerY in
  let distFromCenter := Math_sqrt (dx * dx + dy * dy) in
  let clamp := maxRadius <? distFromCenter in
  let a := Math_atan2 M dy dx in
  let x2 := if clamp then centerX + Math_cos M a * maxRadius else x1 in
  let y2 := if clamp then centerY + Math_sin M a * maxRadius else y1 in
  set_prevY (Some prevY0) (set_prevX (Some prevX0)
    (set_posY y2 (set_posX x2 (set_angle angle1 player)))).

Definition updatePlayerMovement (fuel : nat) (player : Player) (dt : float)
    : option Player :=
  let angle0 := Math_atan2 M (Math_sin M (angle player)) (Math_cos M (angle player)) in
  match normalizeDiff fuel (targetAngle player - angle0) with
  | Some angleDiff => Some (moveWithDiff player dt angleDiff)
  | None => None
  end.

Definition updatePlayerTrail (player : Player) : Player :=
  if negb (isOutside player) then player
  else
    let currentPos := mkPoint (posX player) (posY player) in
    let tooClose :=
      match rev (trail player) with
      | [] => false
      | lastPoint :: _ =>
          let dx := x currentPos - x lastPoint in
          let dy := y currentPos - y lastPoint in
          let distSq := dx * dx + dy * dy in
          distSq <? TRAIL_POINT_DISTANCE * TRAIL_POINT_DISTANCE
      end in
    if tooClose then player
    else set_trail (trail player ++ [currentPos]) player.

(** The body of the loop of [update]. *)
Definition updatePlayer (fuel : nat) (dt : float) (player : Player) : option Player :=
  if isDead player then Some (set_deathTimer (deathTimer player + dt) player)
  else
    let player :=
      if 0 <? invulnerableTimer player
      then set_invulnerableTimer (invulnerableTimer player - dt) player
      else player in
    match updatePlayerMovement fuel player dt with
    | Some player => Some (updatePlayerTrail player)
    | None => None
    end.

(** [update(dt)]: the players do not interact, each is updated in place. *)
Fixpoint update (fuel : nat) (dt : float) (players : GameState) : option GameState :=
  match players with
  | [] => Some []
  | player :: rest =>
      match updatePlayer fuel dt player with
      | Some player' =>
          match update fuel dt rest with
          | Some rest' => Some (player' :: rest')
          | None => None
          end
      | None => None
      end
  end.

Definition setPlayerInput (players : GameState) (playerId : string)
    (targetAngle : float) : GameState :=
  match getPlayer players playerId with
  | Some player =>
      if negb (isDead player) then
        let player := set_targetAngle targetAngle player in
        let player :=
          if speed player =? 0 then set_speed PLAYER_SPEED player else player in
        setPlayer players player
      else players
  | None => players
  end.

End WithMath.

(** ** SpatialHash.ts *)

(** What [checkCaptureAndCollisions] stores in the hash: a trail segment
    with the index of its first point in the owner's trail, or a territory
    edge. *)
Inductive Item : Type :=
  | TrailItem (playerId : string) (p1 p2 : Point) (index : nat)
  | TerritoryItem (playerId : string) (p1 p2 : Point).

Definition itemPlayerId (item : Item) : string :=
  match item with
  | TrailItem pid _ _ _ => pid
  | TerritoryItem pid _ _ => pid
  end.

Definition itemP1 (item : Item) : Point :=
  match item with
  | TrailItem _ a _ _ => a
  | TerritoryItem _ a _ => a
  end.

Definition itemP2 (item : Item) : Point :=
  match item with
  | TrailItem _ _ b _ => b
  | TerritoryItem _ _ b => b
  end.

Definition isTrailItem (item : Item) : bool :=
  match item with
  | TrailItem _ _ _ _ => true
  | TerritoryItem _ _ _ => false
  end.

(** A cell key is the string [`${cx},${cy}`]; two numbers print alike when
    they are equal ([0] and [-0] both print [0]) or both NaN. *)
Definition CellKey : Type := (float * float)%type.

Definition sameNumeral (a b : float) : bool := (a =? b) || (isNaN a && isNaN b).

Definition key_eqb (k1 k2 : CellKey) : bool :=
  sameNumeral (fst k1) (fst k2) && sameNumeral (snd k1) (snd k2).

(** [buckets: Map<string, any[]>]. *)
Definition SpatialHash : Type := list (CellKey * list Item).

Definition cellSize : float := 100.

Definition emptyHash : SpatialHash := [].

Definition getKey (px py : float) : CellKey :=
  (Math_floor (px / cellSize), Math_floor (py / cellSize)).

Fixpoint bucketGet (buckets : SpatialHash) (key : CellKey) : option (list Item) :=
  match buckets with
  | [] => None
  | (k, bucket) :: rest => if key_eqb k key then Some bucket else bucketGet rest key
  end.

(** [if (!buckets.has(key)) buckets.set(key, []); buckets.get(key).push(obj)] *)
Fixpoint bucketPush (buckets : SpatialHash) (key : CellKey) (obj : Item) : SpatialHash :=
  match buckets with
  | [] => [(key, [obj])]
  | (k, bucket) :: rest =>
      if key_eqb k key then (k, bucket ++ [obj]) :: rest
      else (k, bucket) :: bucketPush rest key obj
  end.

Definition insert (buckets : SpatialHash) (obj : Item) (px py : float) : SpatialHash :=
  bucketPush buckets (getKey px py) obj.

Definition insertSegment (buckets : SpatialHash) (obj : Item) (p1 p2 : Point)
    : SpatialHash :=
  let buckets := insert buckets obj (x p1) (y p1) in
  let buckets := insert buckets obj (x p2) (y p2) in
  insert buckets obj ((x p1 + x p2) / 2) ((y p1 + y p2) / 2).

(** The 3x3 grid around the position, [i] outer and [j] inner. *)
Definition query (buckets : SpatialHash) (px py : float) : list Item :=
  let cx := Math_floor (px / cellSize) in
  let cy := Math_floor (py / cellSize) in
  flat_map
    (fun i =>
       flat_map
         (fun j =>
            match bucketGet buckets (cx + i, cy + j) with
            | Some bucket => bucket
            | None => []
            end)
         [-1; 0; 1])
    [-1; 0; 1].

(** ** rooms/GameRoom.ts *)

Definition killPlayer (player : Player) : Player :=
  set_trail [] (set_deathTimer 0 (set_isDead true player)).

Definition calculateArea (polygon : list Point) : float :=
  Math_abs (shoelace_loop polygon (length polygon) 0 0) / 2.

(** [player.trail = []; player.isOutside = false; player.exitPoint = null;
    player.exitEdgeIndex = -1]. *)
Definition clearTrailState (player : Player) : Player :=
  set_exitEdgeIndex (-1)%Z
    (set_exitPoint None (set_isOutside false (set_trail [] player))).

(** [player.territory = newTerritory; player.score = newArea;
    territoryChanged = true; player.invulnerableTimer = 0.5]. *)
Definition commitTerritory (newTerritory : list Point) (newArea : float)
    (player : Player) : Player :=
  set_invulnerableTimer 0.5
    (set_territoryChanged true
       (set_score newArea (set_territory newTerritory player))).

(** Indexing of the trail segments of one player,
    [for (let i = 0; i < player.trail.length - 1; i++)]. *)
Fixpoint indexTrail (buckets : SpatialHash) (pid : string) (trail : list Point)
    (i : nat) : SpatialHash :=
  match trail with
  | a :: ((b :: _) as rest) =>
      indexTrail (insertSegment buckets (TrailItem pid a b i) a b) pid rest (S i)
  | _ => buckets
  end.

(** Indexing of the territory edges,
    [for (let i = 0; i < player.territory.length; i++)]. *)
Fixpoint indexTerritory (buckets : SpatialHash) (pid : string)
    (territory : list Point) (fuel i : nat) : SpatialHash :=
  match fuel with
  | O => buckets
  | S fuel' =>
      let p1 := nth i territory origin in
      let p2 := nth ((i + 1) mod length territory) territory origin in
      indexTerritory (insertSegment buckets (TerritoryItem pid p1 p2) p1 p2)
        pid territory fuel' (S i)
  end.

Definition indexPlayer (buckets : SpatialHash) (player : Player) : SpatialHash :=
  if isDead player then buckets
  else
    let buckets := indexTrail buckets (id player) (trail player) 0 in
    indexTerritory buckets (id player) (territory player)
      (length (territory player)) 0.

Definition buildSpatialHash (players : list Player) : SpatialHash :=
  fold_left indexPlayer players emptyHash.

Definition worldRadius : float := WORLD_WIDTH / 2 - 1.
Definition worldArea : float := Math_PI * worldRadius * worldRadius.
Definition winThreshold : float := worldArea * 0x1.fae147ae147aep-1. (* 0.99 *)

Definition currentPosOf (player : Player) : Point :=
  mkPoint (posX player) (posY player).

(** [{ x: player.prevX || player.x, y: player.prevY || player.y }]. *)
Definition prevPosOf (player : Player) : Point :=
  mkPoint (js_or (prevX player) (posX player)) (js_or (prevY player) (posY player)).

Section Room.

Variable M : MathLib.

(** [Math.sqrt(Math.pow(a.x - b.x, 2) + Math.pow(a.y - b.y, 2))]. *)
Definition distanceTo (a b : Point) : float :=
  Math_sqrt (Math_pow M (x a - x b) 2 + Math_pow M (y a - y b) 2).

(** EXIT detection. *)
Definition exitDetection (player : Player) (isInside : bool)
    (prevPos currentPos : Point) : Player :=
  if negb (isOutside player) && negb isInside && (invulnerableTimer player <=? 0)
  then
    match findBoundaryIntersection prevPos currentPos (territory player) with
    | Some hit =>
        set_trail [point hit]
          (set_exitEdgeIndex (edgeIndex hit)
             (set_exitPoint (Some (point hit)) (set_isOutside true player)))
    | None =>
        set_trail [prevPos]
          (set_exitEdgeIndex 0%Z
             (set_exitPoint (Some prevPos) (set_isOutside true player)))
    end
  else player.

(** The closest vertex of the tunneling fallback,
    [for (let i = 0; i < player.territory.length; i++)]. *)
Fixpoint closest_loop (currentPos : Point) (vertices : list Point) (i : nat)
    (minD : float) (closestIdx : nat) : nat :=
  match vertices with
  | [] => closestIdx
  | v :: rest =>
      let d := Math_hypot M (x v - x currentPos) (y v - y currentPos) in
      if d <? minD then closest_loop currentPos rest (S i) d i
      else closest_loop currentPos rest (S i) minD closestIdx
  end.

Definition entryHit (player : Player) (prevPos currentPos : Point)
    : BoundaryIntersection :=
  match findBoundaryIntersection prevPos currentPos (territory player) with
  | Some hit => hit
  | None =>
      mkHit currentPos
        (Z.of_nat (closest_loop currentPos (territory player) 0 infinity 0))
  end.

(** [simplifyPolygon(capturedPoly, 1.0)], and once more with tolerance
    [2.0] when more than 400 vertices are left. *)
Definition simplifyCapture (capturedPoly : list Point) : list Point :=
  let newTerritory := simplifyPolygon capturedPoly 1 in
  if (400 <? length newTerritory)%nat then simplifyPolygon newTerritory 2
  else newTerritory.

Definition finiteCoords (polygon : list Point) : bool :=
  forallb
    (fun p => negb (isNaN (x p)) && negb (isNaN (y p)) && isFinite (x p) && isFinite (y p))
    polygon.

Definition noNaNCoords (polygon : list Point) : bool :=
  forallb (fun p => negb (isNaN (x p)) && negb (isNaN (y p))) polygon.

(** The [try] block of the entry capture; the result is the player and
    [justCaptured]. *)
Definition tryEntryCapture (player : Player) (exitPt : Point)
    (hit : BoundaryIntersection) (justCaptured : bool) : Outcome (Player * bool) :=
  match computeCapture (territory player) (trail player) exitPt
          (exitEdgeIndex player) (point hit) (edgeIndex hit) with
  | Hangs => Hangs
  | Throws => Throws
  | Returns capturedPoly =>
      let newTerritory := ensureClockwise (simplifyCapture capturedPoly) in
      if negb (finiteCoords newTerritory) then Throws
      else
        let newArea := Math_floor (calculateArea newTerritory) in
        if (3 <? length newTerritory)%nat && (100 <? newArea) && isFinite newArea
        then Returns (commitTerritory newTerritory newArea player, true)
        else Returns (player, justCaptured)
  end.

(** ENTRY detection; [None] when the capture computation does not
    terminate. *)
Definition entryDetection (player : Player) (isInside : bool)
    (prevPos currentPos : Point) (justCaptured : bool) : option (Player * bool) :=
  if isOutside player && isInside then
    let hit := entryHit player prevPos currentPos in
    match exitPoint player with
    | Some exitPt =>
        if (2 <? length (trail player))%nat then
          match tryEntryCapture player exitPt hit justCaptured with
          | Hangs => None
          | Throws => Some (clearTrailState player, justCaptured)
          | Returns (player', justCaptured') =>
              Some (clearTrailState player', justCaptured')
          end
        else Some (player, justCaptured)
    | None => Some (player, justCaptured)
    end
  else Some (player, justCaptured).

(** The [try] block of the loop closure. *)
Definition tryLoopCapture (player : Player) (exitPt : Point) (justCaptured : bool)
    : Outcome (Player * bool) :=
  match computeCapture (territory player) (trail player) exitPt
          (exitEdgeIndex player) exitPt (exitEdgeIndex player) with
  | Hangs => Hangs
  | Throws => Throws
  | Returns capturedPoly =>
      let newTerritory := simplifyCapture capturedPoly in
      if negb (noNaNCoords newTerritory) then Throws
      else
        let newArea := Math_floor (calculateArea newTerritory) in
        let oldArea := score player in
        if (3 <? length newTerritory)%nat && (oldArea <? newArea)
        then Returns (commitTerritory newTerritory newArea player, true)
        else Returns (player, justCaptured)
  end.

(** LOOP CLOSURE detection. *)
Definition loopClosureDetection (player : Player) (isInside : bool)
    (currentPos : Point) (justCaptured : bool) : option (Player * bool) :=
  match exitPoint player with
  | Some exitPt =>
      if isOutside player && negb isInside && (10 <? length (trail player))%nat then
        let distToExit := distanceTo currentPos exitPt in
        if distToExit <? 80 then
          match tryLoopCapture player exitPt justCaptured with
          | Hangs => None
          | Throws => Some (clearTrailState player, justCaptured)
          | Returns (player', justCaptured') =>
              Some (clearTrailState player', justCaptured')
          end
        else Some (player, justCaptured)
      else Some (player, justCaptured)
  | None => Some (player, justCaptured)
  end.

(** The branch taken when [player.score >= winThreshold]. *)
Definition winBranch (player : Player) : Player :=
  let player := if negb (hasWon player) then set_hasWon true player else player in
  if isOutside player then clearTrailState player else player.

(** The foreign-trail test of one item: the owner of a crossed trail is
    killed if it is known and outside. *)
Definition cutForeignTrail (player : Player) (prevPos currentPos : Point)
    (item : Item) (players : GameState) : GameState :=
  if negb (String.eqb (itemPlayerId item) (id player)) && isTrailItem item then
    if segmentsIntersect prevPos currentPos (itemP1 item) (itemP2 item) then
      match getPlayer players (itemPlayerId item) with
      | Some victim =>
          if isOutside victim then setPlayer players (killPlayer victim)
          else players
      | None => players
      end
    else players
  else players.

(** The self-collision test of one item. *)
Definition hitsOwnTrail (player : Player) (isInside : bool)
    (prevPos currentPos : Point) (item : Item) : bool :=
  match item with
  | TrailItem pid p1 p2 index =>
      String.eqb pid (id player) &&
      (let currentIndex := length (trail player) in
       let isNearExitPoint :=
         match exitPoint player with
         | Some exitPt => distanceTo currentPos exitPt <? 100
         | None => false
         end in
       negb isInside && negb isNearExitPoint &&
       (20 <? Z.of_nat currentIndex - Z.of_nat index)%Z &&
       segmentsIntersect prevPos currentPos p1 p2)
  | TerritoryItem _ _ _ => false
  end.

(** [for (const item of nearby)]; a self-collision kills the player and
    leaves the loop. *)
Fixpoint collisionLoop (player : Player) (isInside : bool)
    (prevPos currentPos : Point) (nearby : list Item) (players : GameState)
    : GameState :=
  match nearby with
  | [] => players
  | item :: rest =>
      let players := cutForeignTrail player prevPos currentPos item players in
      if hitsOwnTrail player isInside prevPos currentPos item
      then setPlayer players (killPlayer player)
      else collisionLoop player isInside prevPos currentPos rest players
  end.

(** The capture part of the loop body: EXIT, ENTRY and LOOP CLOSURE. *)
Definition capturePhase (player : Player) : option (Player * bool) :=
  let currentPos := currentPosOf player in
  let prevPos := prevPosOf player in
  let justCaptured := false in
  let isInside := isPointInPolygon currentPos (territory player) in
  let player := exitDetection player isInside prevPos currentPos in
  match entryDetection player isInside prevPos currentPos justCaptured with
  | None => None
  | Some (player, justCaptured) =>
      loopClosureDetection player isInside currentPos justCaptured
  end.

(** The body of the second loop of [checkCaptureAndCollisions], for the
    player stored under [pid]. *)
Definition checkPlayer (hash : SpatialHash) (players : GameState) (pid : string)
    : option GameState :=
  match getPlayer players pid with
  | None => Some players
  | Some player0 =>
      if isDead player0 then Some players
      else
        let currentPos := currentPosOf player0 in
        let prevPos := prevPosOf player0 in
        let isInside := isPointInPolygon currentPos (territory player0) in
        match capturePhase player0 with
        | None => None
        | Some (player, justCaptured) =>
            if justCaptured then Some (setPlayer players player)
            else if winThreshold <=? score player
            then Some (setPlayer players (winBranch player))
            else if isOutside player then
              let nearby := query hash (posX player) (posY player) in
              Some (collisionLoop player isInside prevPos currentPos nearby
                      (setPlayer players player))
            else Some (setPlayer players player)
        end
  end.

Fixpoint checkPlayers (hash : SpatialHash) (pids : list string)
    (players : GameState) : option GameState :=
  match pids with
  | [] => Some players
  | pid :: rest =>
      match checkPlayer hash players pid with
      | Some players' => checkPlayers hash rest players'
      | None => None
      end
  end.

(** [this.spatialHash.clear(); this.checkCaptureAndCollisions()]. *)
Definition checkCaptureAndCollisions (players : GameState) : option GameState :=
  let hash := buildSpatialHash (getAllPlayers players) in
  checkPlayers hash (map id (getAllPlayers players)) players.

(** One simulation step of the room, without the bots:
    [game.update(dt)], then the capture and collision pass. *)
Definition tick (fuel : nat) (dt : float) (players : GameState) : option GameState :=
  match update M fuel dt players with
  | Some players' => checkCaptureAndCollisions players'
  | None => None
  end.

End Room.

(** ** A concrete Math library

    To evaluate the model on concrete inputs the platform functions are
    instantiated by polynomial approximations, accurate to a few units in
    the last place on the arguments the examples use.  They agree with
    every ECMAScript implementation where the standard fixes the result
    exactly ([sin(0) = 0], [cos(0) = 1], [atan2(0, 1) = 0]); elsewhere an
    engine may differ from them in the last digits, and no example below
    depends on those digits. *)
Module RefMath.

(** Horner evaluation of [c0 + c1*z + c2*z^2 + ...]. *)
Fixpoint horner (coeffs : list float) (z : float) : float :=
  match coeffs with
  | [] => 0
  | c :: rest => c + z * horner rest z
  end.

(** [1/n!] for the odd and the even factorials, with alternating signs. *)
Definition sinCoeffs : list float :=
  [1; -1/6; 1/120; -1/5040; 1/362880; -1/39916800; 1/6227020800;
   -1/1307674368000; 1/355687428096000; -1/121645100408832000].

Definition cosCoeffs : list float :=
  [1; -1/2; 1/24; -1/720; 1/40320; -1/3628800; 1/479001600;
   -1/87178291200; 1/20922789888000; -1/6402373705728000].

Definition kernelSin (r : float) : float := r * horner sinCoeffs (r * r).
Definition kernelCos (r : float) : float := horner cosCoeffs (r * r).

Definition PIO2_HI : float := 0x1.921fb54442d18p+0.
Definition PIO2_LO : float := 0x1.1a62633145c07p-54.

(** The quarter turn [k] nearest to [v] and the remainder [v - k*pi/2]. *)
Definition reduce (v : float) : float * float :=
  let k := Math_floor (v / PIO2_HI + 0.5) in
  let r := (v - k * PIO2_HI) - k * PIO2_LO in
  (k - 4 * Math_floor (k / 4), r).

Definition sin (v : float) : float :=
  let (q, r) := reduce v in
  if q =? 0 then kernelSin r
  else if q =? 1 then kernelCos r
  else if q =? 2 then - kernelSin r
  else if q =? 3 then - kernelCos r
  else nan.

Definition cos (v : float) : float :=
  let (q, r) := reduce v in
  if q =? 0 then kernelCos r
  else if q =? 1 then - kernelSin r
  else if q =? 2 then - kernelCos r
  else if q =? 3 then kernelSin r
  else nan.

Definition atanCoeffs : list float :=
  [1; -1/3; 1/5; -1/7; 1/9; -1/11; 1/13; -1/15; 1/17; -1/19; 1/21; -1/23; 1/25].

(** [atan] on [[0, 1]]: the argument is halved twice in angle,
    [atan t = 2 atan (t / (1 + sqrt (1 + t^2)))], then summed. *)
Definition halfAngle (t : float) : float := t / (1 + PrimFloat.sqrt (1 + t * t)).

Definition atanUnit (t : float) : float :=
  let u := halfAngle (halfAngle t) in
  4 * (u * horner atanCoeffs (u * u)).

Definition atanPos (t : float) : float :=
  if t <=? 1 then atanUnit t else PIO2_HI - atanUnit (1 / t).

Definition atan (t : float) : float :=
  if t <? 0 then - atanPos (- t) else atanPos t.

Definition atan2 (b a : float) : float :=
  if 0 <? a then atan (b / a)
  else if a <? 0 then
    (if b <? 0 then atan (b / a) - Math_PI else atan (b / a) + Math_PI)
  else if a =? 0 then
    (if 0 <? b then PIO2_HI else if b <? 0 then - PIO2_HI else b)
  else nan.

(** The program only squares: [Math.pow(d, 2)]. *)
Definition pow (b e : float) : float :=
  if e =? 2 then b * b else if e =? 1 then b else if e =? 0 then 1 else nan.

Definition hypot (a b : float) : float := PrimFloat.sqrt (a * a + b * b).

Definition lib : MathLib :=
  {| Math_sin := sin; Math_cos := cos; Math_atan2 := atan2;
     Math_pow := pow; Math_hypot := hypot |}.

End RefMath.

(** ** The room as a transition system

    What happens to the player map between its creation and any later
    moment is a sequence of these events.  One simulation step of the room
    is [EvUpdate dt], then the inputs the bots give and the removal of the
    bots dead for more than a second, then [EvCheck]; a client message is
    an [EvInput], a join or a bot spawn an [EvCreate], a leave an
    [EvRemove]. *)
Inductive Event : Type :=
  | EvCreate (pid : string) (px py : float) (pcolor : string)
  | EvRemove (pid : string)
  | EvInput (pid : string) (targetAngle : float)
  | EvUpdate (dt : float)
  | EvCheck.

Definition step (M : MathLib) (fuel : nat) (ev : Event) (players : GameState)
    : option GameState :=
  match ev with
  | EvCreate pid px py pcolor => Some (snd (createPlayer M players pid px py pcolor))
  | EvRemove pid => Some (removePlayer players pid)
  | EvInput pid a => Some (setPlayerInput players pid a)
  | EvUpdate dt => update M fuel dt players
  | EvCheck => checkCaptureAndCollisions M players
  end.

Fixpoint run (M : MathLib) (fuel : nat) (evs : list Event) (players : GameState)
    : option GameState :=
  match evs with
  | [] => Some players
  | ev :: rest =>
      match step M fuel ev players with
      | Some players' => run M fuel rest players'
      | None => None
      end
  end.

(** ** Notions used by the statements *)

(** The parity of the edge crossings along the open chain
    [prev, l0, l1, ...], one test per edge [(l0, prev)], [(l1, l0)], ... *)
Fixpoint chainParity (pt prev : Point) (l : list Point) : bool :=
  match l with
  | [] => false
  | a :: rest => xorb (edgeCrosses pt a prev) (chainParity pt a rest)
  end.

(** The edges the loop of [isPointInPolygon] tests, each as the pair
    [(polygon[i], polygon[j])] it is tested with: [j] is the index before
    [i], and the last index for [i = 0]. *)
Fixpoint chainEdges (prev : Point) (l : list Point) : list (Point * Point) :=
  match l with
  | [] => []
  | a :: rest => (a, prev) :: chainEdges a rest
  end.

Definition polygonEdges (polygon : list Point) : list (Point * Point) :=
  chainEdges (last polygon origin) polygon.

(** What no phase of [checkCaptureAndCollisions] before the collision
    loop changes. *)
Definition sameIdentity (p p' : Player) : Prop :=
  id p' = id p /\ isDead p' = isDead p /\ hasWon p' = hasWon p /\
  posX p' = posX p /\ posY p' = posY p /\
  prevX p' = prevX p /\ prevY p' = prevY p.

(** A victorious player in the state the win branch leaves it in. *)
Definition wonSafe (p : Player) : Prop :=
  isDead p = false /\ isOutside p = false /\ (winThreshold <=? score p) = true.

(** The invariant: every winner of the map is alive, not outside, and
    has a score at or above the threshold. *)
Definition winnersSafe (s : GameState) : Prop :=
  Forall (fun p => hasWon p = true -> wonSafe p) s.

(** The events that keep every player in its slot of the map. *)
Definition keepsPlayers (ev : Event) : bool :=
  match ev with
  | EvUpdate _ | EvCheck | EvInput _ _ => true
  | EvCreate _ _ _ _ | EvRemove _ => false
  end.

(** The relation of a player to its later self on which the victory
    argument rests: the player keeps its [id]; and if a winner is in the
    safe state before, it is a winner in the safe state after. *)
Definition wonStep (p p' : Player) : Prop :=
  id p' = id p /\
  ((hasWon p = true -> wonSafe p) ->
   (hasWon p' = true -> wonSafe p') /\ (hasWon p = true -> hasWon p' = true)).

(** The relation of a player to its later self on which the argument
    about deaths rests: the dead stay as they are, a death leaves
    [isOutside] set, and a live player that is inside its territory and
    not outside stays so. *)
Definition homeSafe (p : Player) : Prop :=
  isDead p = false /\ isOutside p = false /\
  isPointInPolygon (currentPosOf p) (territory p) = true.

Definition deathStep (p p' : Player) : Prop :=
  id p' = id p /\
  (isDead p = true -> isDead p' = true /\ isOutside p' = isOutside p) /\
  (isDead p' = true -> isDead p = true \/ isOutside p' = true) /\
  (homeSafe p -> homeSafe p').

(** What the collision loop can do to a player: kill it. *)
Definition killStep (p p' : Player) : Prop :=
  id p' = id p /\ isOutside p' = isOutside p /\
  (isDead p = true /\ trail p = [] -> isDead p' = true /\ trail p' = []).

(** The foreign-trail tests of a run of items none of which is a
    self-collision. *)
Definition cutAll (player : Player) (prevPos currentPos : Point)
    (items : list Item) (players : GameState) : GameState :=
  fold_left (fun g item => cutForeignTrail player prevPos currentPos item g)
    items players.


(** The threshold the specification names, with [arenaRadius = 2500]. *)
Definition specWinThreshold : float :=
  0x1.fae147ae147aep-1 * Math_PI * (2500 * 2500).

Definition distanceFrom (cx cy : float) (p : Point) : float :=
  Math_sqrt ((x p - cx) * (x p - cx) + (y p - cy) * (y p - cy)).

(** The state a pass or a run ends in. *)
Definition stateOf (o : option GameState) : GameState :=
  match o with
  | Some s => s
  | None => []
  end.

(** What the capture phases, and the movement update, make of a player
    under the concrete Math library. *)
Definition capturedOf (p : Player) : Player :=
  match capturePhase RefMath.lib p with
  | Some (p', _) => p'
  | None => p
  end.

Definition movedOf (p : Player) (dt : float) : Player :=
  match updatePlayerMovement RefMath.lib 8 p dt with
  | Some p' => p'
  | None => p
  end.

(** ** Concrete situations *)

(** A point and a triangle on which rounding makes the crossing test of
    the edge [(0,0)-(1,3)] depend on its direction. *)
Definition roundingPoint : Point := mkPoint (1 / 3) 1.
Definition roundingTriangle : list Point :=
  [mkPoint 0 0; mkPoint 1 3; mkPoint (-5) 3].

(** A quadrilateral around the same point without that edge: the
    segment [(0,0)-(1,3)] is a diagonal of it. *)
Definition roundingQuad : list Point :=
  [mkPoint 0 0; mkPoint 5 0; mkPoint 1 3; mkPoint (-5) 3].

(** A square territory of side 200 with its top left corner at
    [(x0, y0)]; its right edge, of index 1, runs towards increasing [y]. *)
Definition squareAt (x0 y0 : float) : list Point :=
  [mkPoint x0 y0; mkPoint (x0 + 200) y0;
   mkPoint (x0 + 200) (y0 + 200); mkPoint x0 (y0 + 200)].

(** A player outside its territory, heading east along [y = 1100], with
    five trail points behind it. *)
Definition walkerA : Player :=
  {| id := "A"; posX := 1243; posY := 1100; angle := 0; targetAngle := 0;
     speed := 500; color := "#FF6B6B";
     territory := squareAt 1000 1000;
     trail := [mkPoint 1200 1100; mkPoint 1210 1100; mkPoint 1220 1100;
               mkPoint 1230 1100; mkPoint 1240 1100];
     isOutside := true; exitPoint := Some (mkPoint 1200 1100);
     exitEdgeIndex := 1%Z; isDead := false; deathTimer := 0; score := 40000;
     invulnerableTimer := 0; hasWon := false;
     prevX := Some 1235; prevY := Some 1100; territoryChanged := false |}.

(** A second player outside its own territory, moving north across the
    segment [(1220,1100)-(1230,1100)] of the trail of ["A"]. *)
Definition crosserB : Player :=
  {| id := "B"; posX := 1225; posY := 1096; angle := 0; targetAngle := 0;
     speed := 500; color := "#4ECDC4";
     territory := squareAt 1300 1200;
     trail := [mkPoint 1300 1250; mkPoint 1285 1230; mkPoint 1270 1200;
               mkPoint 1255 1170; mkPoint 1240 1140; mkPoint 1230 1115];
     isOutside := true; exitPoint := Some (mkPoint 1300 1250);
     exitEdgeIndex := 3%Z; isDead := false; deathTimer := 0; score := 40000;
     invulnerableTimer := 0; hasWon := false;
     prevX := Some 1225; prevY := Some 1104; territoryChanged := false |}.

Definition crossingState : GameState := [walkerA; crosserB].

(** The owner of a trail that comes home in the same tick in which its
    trail is crossed: it left at [(1200,1100)], went round by
    [(1250,1100)] and [(1250,1150)], and has just stepped back over the
    right edge at [(1200,1150)]. *)
Definition homecomerA : Player :=
  {| id := "A"; posX := 1195; posY := 1150; angle := 0; targetAngle := 0;
     speed := 500; color := "#FF6B6B";
     territory := squareAt 1000 1000;
     trail := [mkPoint 1200 1100; mkPoint 1250 1100; mkPoint 1250 1150;
               mkPoint 1210 1150];
     isOutside := true; exitPoint := Some (mkPoint 1200 1100);
     exitEdgeIndex := 1%Z; isDead := false; deathTimer := 0; score := 40000;
     invulnerableTimer := 0; hasWon := false;
     prevX := Some 1205; prevY := Some 1150; territoryChanged := false |}.

Definition homecomingState : GameState := [homecomerA; crosserB].

(** The same owner coming home behind its exit point: it left the right
    edge (which runs towards increasing [y]) at [(1200,1150)] and steps
    back over it at [(1200,1050)]. *)
Definition backwardA : Player :=
  {| id := "A"; posX := 1195; posY := 1050; angle := 0; targetAngle := 0;
     speed := 500; color := "#FF6B6B";
     territory := squareAt 1000 1000;
     trail := [mkPoint 1200 1150; mkPoint 1250 1150; mkPoint 1250 1050;
               mkPoint 1210 1050];
     isOutside := true; exitPoint := Some (mkPoint 1200 1150);
     exitEdgeIndex := 1%Z; isDead := false; deathTimer := 0; score := 40000;
     invulnerableTimer := 0; hasWon := false;
     prevX := Some 1205; prevY := Some 1050; territoryChanged := false |}.

(** A lap of the arena: 1001 points on the circle of radius 2498 around
    the centre, clockwise on the screen from just left of the bottom to
    just right of it, about 15.7 units apart. *)
Definition lapPoint (k : nat) : Point :=
  let theta := (Math_PI / 2 + 0.046875) + float_of_nat k * ((2 * Math_PI - 0.09375) / 1000) in
  mkPoint (2500 + 2498 * RefMath.cos theta) (2500 + 2498 * RefMath.sin theta).

Definition arenaLap : list Point := map lapPoint (seq 0 1001).

(** A player whose territory is a square at the bottom of the arena; it
    left through the top edge at [(2450,4700)], went round the square and
    once round the arena, and has just stepped back over the top edge at
    [(2550,4700)]. *)
Definition lapPlayer : Player :=
  {| id := "W"; posX := 2550; posY := 4704; angle := 0; targetAngle := 0;
     speed := 500; color := "#FF6B6B";
     territory := squareAt 2400 4700;
     trail := [mkPoint 2450 4700; mkPoint 2450 4690; mkPoint 2388 4690;
               mkPoint 2388 4990]
              ++ arenaLap
              ++ [mkPoint 2612 4990; mkPoint 2612 4690; mkPoint 2550 4690];
     isOutside := true; exitPoint := Some (mkPoint 2450 4700);
     exitEdgeIndex := 0%Z; isDead := false; deathTimer := 0; score := 40000;
     invulnerableTimer := 0; hasWon := false;
     prevX := Some 2550; prevY := Some 4696; territoryChanged := false |}.

(** The map after the pass in which [lapPlayer] comes home. *)
Definition lapAfter : GameState :=
  stateOf (checkCaptureAndCollisions RefMath.lib [lapPlayer]).

(** A player closing a loop in open space: twelve trail points, and the
    current position 41 units from the exit point, outside the territory. *)
Definition loopCloser : Player :=
  {| id := "L"; posX := 1210; posY := 1140; angle := 0; targetAngle := 0;
     speed := 500; color := "#45B7D1";
     territory := squareAt 1000 1000;
     trail := [mkPoint 1200 1100; mkPoint 1220 1100; mkPoint 1240 1100;
               mkPoint 1260 1100; mkPoint 1280 1100; mkPoint 1300 1110;
               mkPoint 1300 1130; mkPoint 1300 1150; mkPoint 1280 1160;
               mkPoint 1260 1160; mkPoint 1240 1160; mkPoint 1220 1150];
     isOutside := true; exitPoint := Some (mkPoint 1200 1100);
     exitEdgeIndex := 1%Z; isDead := false; deathTimer := 0; score := 40000;
     invulnerableTimer := 0; hasWon := false;
     prevX := Some 1218; prevY := Some 1146; territoryChanged := false |}.

(** The heading a player is created with, then steered towards 3 radians
    during a frame of 100 ms. *)
Definition steeringPlayer : Player :=
  set_speed PLAYER_SPEED
    (set_targetAngle 3 (newPlayer RefMath.lib "S" 2500 2500 "#FF6B6B")).

(** A player heading at 3.14 radians that is asked to turn to -3 radians,
    the short way round through pi, in a frame of 17 ms. *)
Definition wrappingPlayer : Player :=
  set_angle 3.140625 (set_targetAngle (-3) steeringPlayer).

(** The events of the first frames of a room with one client, which
    steers east: a join, an input, and thirty simulation steps of 17 ms. *)
Definition firstFrames : list Event :=
  [EvCreate "a" 2500 2500 "#FF6B6B"; EvInput "a" 0]
  ++ concat (repeat [EvUpdate (17 / 1000); EvCheck] 30).

Definition firstFramesState : GameState :=
  stateOf (run RefMath.lib 8 firstFrames newGameState).

(** A run that ends in a victory.  A client joins at [(2500, 4800)], near
    the bottom of the arena, and is steered in frames of 1/6 s.  In such a
    frame the heading turns by twice its difference to the target angle
    ([PLAYER_TURN_SPEED * dt = 2]), so the target half way between the old
    heading and [h] gives the heading [h].  The player leaves its
    territory towards the bottom left, meets the wall of the arena after
    four frames, follows the wall once round in 183 frames (the headings
    point along the wall and a little outwards, the clamp of the movement
    update keeps the player on the circle), and comes home from the bottom
    right in two frames.  The pass of that frame commits the capture of
    the arena; the pass of one more frame sets [hasWon]. *)
Definition lapDt : float := 1 / 6.

Definition wallHeading (k : nat) : float :=
  1.63349 + Math_PI / 2 + float_of_nat k * 0.033285.

Definition homeHeading : float := 10.0713.

Definition lapHeadings : list float :=
  repeat (3 * Math_PI / 4) 4 ++ map wallHeading (seq 0 183)
  ++ repeat homeHeading 3.

Fixpoint steerTargets (prev : float) (headings : list float) : list float :=
  match headings with
  | [] => []
  | h :: rest => (prev + h) / 2 :: steerTargets h rest
  end.

Definition winningRun : list Event :=
  EvCreate "W" 2500 4800 "#FF6B6B"
  :: concat (map (fun t => [EvInput "W" t; EvUpdate lapDt; EvCheck])
               (steerTargets 0 lapHeadings)).

Definition winnerState : GameState :=
  stateOf (run RefMath.lib 8 winningRun newGameState).

(** What happens to the winner afterwards: a pass, an input, and a frame
    of 17 ms. *)
Definition afterVictory : list Event :=
  [EvCheck; EvInput "W" 1; EvUpdate (17 / 1000); EvCheck].

Definition crossingAfter : GameState :=
  stateOf (checkCaptureAndCollisions RefMath.lib crossingState).

(** The items the query returns for ["B"] in [crossingState], split at
    the first item whose segment ["B"] crosses. *)
Definition crossingNearby : list Item :=
  query (buildSpatialHash crossingState) (posX crosserB) (posY crosserB).

Definition crossedItem : Item :=
  TrailItem "A" (mkPoint 1220 1100) (mkPoint 1230 1100) 2.

Definition crossingBefore : list Item := firstn 9 crossingNearby.
Definition crossingBehind : list Item := skipn 10 crossingNearby.

(** The square territory at [(1000, 1000)]. *)
Definition exactSquare : list Point := squareAt 1000 1000.

(** ** Further notions: geometry *)

(** The intersection of the segment [p1 p2] with the [i]-th edge of the
    polygon, the edge from vertex [i] to vertex [(i + 1) % length]. *)
Definition edgeHit (p1 p2 : Point) (polygon : list Point) (i : nat) : option Point :=
  getSegmentIntersection p1 p2 (nth i polygon origin)
    (nth ((i + 1) mod length polygon) polygon origin).

(** [len] consecutive vertices of the polygon read cyclically from index
    [start]. *)
Definition cyclicSlice (polygon : list Point) (start len : nat) : list Point :=
  firstn len (skipn start (polygon ++ polygon)).

(** [l1] is [l2] with some elements left out. *)
Inductive Subsequence {A : Type} : list A -> list A -> Prop :=
  | Subsequence_nil : Subsequence [] []
  | Subsequence_keep (a : A) (l1 l2 : list A) :
      Subsequence l1 l2 -> Subsequence (a :: l1) (a :: l2)
  | Subsequence_drop (a : A) (l1 l2 : list A) :
      Subsequence l1 l2 -> Subsequence l1 (a :: l2).

(** The test of [simplifyPolygon]: [b] is further than [tolerance] from
    [a]. *)
Definition apart (tolerance : float) (a b : Point) : bool :=
  tolerance * tolerance <? (x b - x a) * (x b - x a) + (y b - y a) * (y b - y a).

(** Every vertex of the chain [last, l0, l1, ...] is apart from the one
    before it. *)
Fixpoint spaced (tolerance : float) (last : Point) (l : list Point) : bool :=
  match l with
  | [] => true
  | a :: rest => apart tolerance last a && spaced tolerance a rest
  end.

(** ** Further notions: the spatial hash *)

(** What the numeral of a number depends on: its value, with the two
    zeros identified. *)
Definition numeral (f : spec_float) : spec_float :=
  match f with
  | S754_zero _ => S754_zero false
  | _ => f
  end.

(** The content of the cell stored under [key], [buckets.get(key) || []]. *)
Definition cell (buckets : SpatialHash) (key : CellKey) : list Item :=
  match bucketGet buckets key with
  | Some bucket => bucket
  | None => []
  end.

(** [item] is held by some bucket of the hash. *)
Definition held (buckets : SpatialHash) (item : Item) : Prop :=
  exists key bucket, In (key, bucket) buckets /\ In item bucket.

(** [item] describes a trail segment or a territory edge of a live player
    of the list: a trail item carries two consecutive trail points and the
    index of the first, a territory item the two ends of an edge. *)
Definition segmentOf (players : list Player) (item : Item) : Prop :=
  exists p, In p players /\ isDead p = false /\ itemPlayerId item = id p /\
    match item with
    | TrailItem _ a b i =>
        nth_error (trail p) i = Some a /\ nth_error (trail p) (S i) = Some b
    | TerritoryItem _ a b =>
        exists i, (i < length (territory p))%nat /\
          a = nth i (territory p) origin /\
          b = nth ((i + 1) mod length (territory p)) (territory p) origin
    end.

(** An item is found at the two ends and at the midpoint of its segment. *)
Definition foundAtSegment (h : SpatialHash) (it : Item) : Prop :=
  In it (query h (x (itemP1 it)) (y (itemP1 it))) /\
  In it (query h (x (itemP2 it)) (y (itemP2 it))) /\
  In it (query h ((x (itemP1 it) + x (itemP2 it)) / 2)
           ((y (itemP1 it) + y (itemP2 it)) / 2)).


(** ** Further notions: the states of a player *)

(** The player after EXIT detection has fired at [pt] on edge [k]. *)
Definition exited (p0 : Player) (pt : Point) (k : Z) : Player :=
  set_trail [pt] (set_exitEdgeIndex k (set_exitPoint (Some pt) (set_isOutside true p0))).

(** The player a pass stores when its capture phases leave it as [p] with
    the flag [justCaptured]: a capture ends the turn, otherwise the
    victory test follows. *)
Definition afterCapture (p : Player) (justCaptured : bool) : Player :=
  if justCaptured then p
  else if winThreshold <=? score p then winBranch p else p.

(** The distance test of [updatePlayerTrail]: [b] is not closer than
    [TRAIL_POINT_DISTANCE] to [a]. *)
Definition stepFar (a b : Point) : bool :=
  negb ((x b - x a) * (x b - x a) + (y b - y a) * (y b - y a)
        <? TRAIL_POINT_DISTANCE * TRAIL_POINT_DISTANCE).

Fixpoint trailSpaced (l : list Point) : bool :=
  match l with
  | [] => true
  | a :: rest =>
      match rest with
      | [] => true
      | b :: _ => stepFar a b && trailSpaced rest
      end
  end.

(** The consistency of a player record:
    - a player that is not outside has no trail, no exit point and exit
      edge [-1];
    - a player that is outside has an exit point, which is the first point
      of its trail while it lives;
    - a dead player is outside and has no trail;
    - the exit edge is [-1] or the index of a territory edge;
    - the territory has at least four vertices;
    - the score is the floor of the area of the territory;
    - consecutive trail points are not closer than the trail distance. *)
Definition wellFormed (p : Player) : Prop :=
  (isOutside p = false ->
   trail p = [] /\ exitPoint p = None /\ exitEdgeIndex p = (-1)%Z) /\
  (isOutside p = true ->
   exists e, exitPoint p = Some e /\
             (isDead p = false -> hd_error (trail p) = Some e)) /\
  (isDead p = true -> trail p = [] /\ isOutside p = true) /\
  (-1 <= exitEdgeIndex p < Z.of_nat (length (territory p)))%Z /\
  (3 < length (territory p))%nat /\
  (score p = Math_floor (getPolygonArea (territory p)) \/
   score p = Math_floor (calculateArea (territory p))) /\
  trailSpaced (trail p) = true.

(** The four things the capture phases can do. *)
Inductive CaptureCase (p0 : Player) : Player -> bool -> Prop :=
  | CaseNothing : CaptureCase p0 p0 false
  | CaseExit (pt : Point) (k : Z) :
      isOutside p0 = false ->
      isPointInPolygon (currentPosOf p0) (territory p0) = false ->
      (invulnerableTimer p0 <=? 0) = true ->
      match findBoundaryIntersection (prevPosOf p0) (currentPosOf p0) (territory p0) with
      | Some hit => pt = point hit /\ k = edgeIndex hit
      | None => pt = prevPosOf p0 /\ k = 0%Z
      end ->
      CaptureCase p0 (exited p0 pt k) false
  | CaseClear :
      isOutside p0 = true ->
      CaptureCase p0 (clearTrailState p0) false
  | CaseCommit (newT : list Point) :
      isOutside p0 = true ->
      (3 < length newT)%nat ->
      CaptureCase p0
        (clearTrailState (commitTerritory newT (Math_floor (calculateArea newT)) p0))
        true.


(** The player keeps its [id], and the property [I] if it had it. *)
Definition keeps (I : Player -> Prop) (p p' : Player) : Prop :=
  id p' = id p /\ (I p -> I p').

(** ** Further notions: one pass, player by player *)

(** What can have happened to a player before its turn in a pass:
    nothing, or it was outside and its trail was cut. *)
Definition pending (p c : Player) : Prop :=
  c = p \/ (isDead p = false /\ isOutside p = true /\ c = killPlayer p).

(** What a pass makes of a player [p]: a dead player is skipped; a live
    one is killed before its turn, or its capture phases run, once and on
    [p] itself, after which it may still be killed. *)
Definition processed (M : MathLib) (p c : Player) : Prop :=
  (isDead p = true /\ c = p) \/
  (isDead p = false /\ isOutside p = true /\ c = killPlayer p) \/
  (isDead p = false /\
   exists q jc, capturePhase M p = Some (q, jc) /\
     (c = afterCapture q jc \/
      (isOutside (afterCapture q jc) = true /\ c = killPlayer (afterCapture q jc)))).

(** The state of one slot of the map while the players named in [rest]
    still wait for their turn. *)
Definition slot (M : MathLib) (rest : list string) (p c : Player) : Prop :=
  id c = id p /\
  (In (id p) rest -> pending p c) /\
  (~ In (id p) rest -> processed M p c).

(** ** More numbers *)

(** [Math.min] of two numbers: NaN if either is NaN, and [-0] is below
    [+0]. *)
Definition Math_min (a b : float) : float :=
  if isNaN a || isNaN b then nan
  else if a <? b then a
  else if b <? a then b
  else if 1 / a <? 0 then a else b.

(** [arr[v]] for a number [v]: the element whose index has the numeral of
    [v], [undefined] when there is none. *)
Fixpoint arrayAt_loop {A : Type} (arr : list A) (k : nat) (v : float) : option A :=
  match arr with
  | [] => None
  | a :: rest => if float_of_nat k =? v then Some a else arrayAt_loop rest (S k) v
  end.

Definition arrayAt {A : Type} (arr : list A) (v : float) : option A :=
  arrayAt_loop arr 0 v.

(** ** Maps keyed by strings

    A [Map<string, V>] (and a [MapSchema]) iterates in insertion order and
    [set] on a key that is present replaces the value in place. *)
Definition mapGet {V : Type} (m : list (string * V)) (key : string) : option V :=
  match find (fun kv => String.eqb (fst kv) key) m with
  | Some kv => Some (snd kv)
  | None => None
  end.

Fixpoint mapSet {V : Type} (m : list (string * V)) (key : string) (v : V)
    : list (string * V) :=
  match m with
  | [] => [(key, v)]
  | (k, w) :: rest =>
      if String.eqb k key then (k, v) :: rest else (k, w) :: mapSet rest key v
  end.

Definition mapDelete {V : Type} (m : list (string * V)) (key : string)
    : list (string * V) :=
  filter (fun kv => negb (String.eqb (fst kv) key)) m.

(** ** constants.ts, continued *)

Definition PLAYER_COLORS : list string :=
  ["#FF6B6B"; "#4ECDC4"; "#45B7D1"; "#FFA07A"; "#98D8C8";
   "#F7DC6F"; "#BB8FCE"; "#85C1E2"; "#F8B88B"; "#52B788"]%string.

(** ** utils/names.ts *)

Definition BOT_NAMES : list string :=
  ["ProGamer99"; "Alex"; "Guest_402"; "PaperKing"; "NoScope"; "Shadow";
   "Winner"; "SnakeEater"; "BigBoss"; "ChillDude"; "Area51"; "HexMaster";
   "Speedy"; "Drift"; "Ghost"; "PlayerOne"; "Mighty"; "Zen"; "Killer";
   "Blob"; "Storm"; "Ninja"; "Ace"; "Viper"; "Phoenix"; "Legend"; "Shark";
   "Tiger"; "Dragon"; "Wolf"; "Master"; "Captain"; "Chief"; "Boss"; "King";
   "Hunter"; "Ranger"; "Scout"; "Sniper"; "Tank"; "Flash"; "Sonic";
   "Turbo"; "Rocket"; "Blitz"; "Neo"; "Matrix"; "Cyber"; "Digital";
   "Pixel"; "Gamer"; "Player"; "Noob"; "Pro"; "Elite"]%string.

(** [BOT_NAMES[Math.floor(Math.random() * BOT_NAMES.length)]], given the
    result [r] of [Math.random()]. *)
Definition getRandomBotName (r : float) : option string :=
  arrayAt BOT_NAMES (Math_floor (r * float_of_nat (length BOT_NAMES))).

(** ** schema/GameSchema.ts *)

Module PlayerState.

(** The synchronized view of a player; [territory] and [trail] are flat
    arrays [x1, y1, x2, y2, ...].  [name] may be [undefined] (a bot name
    taken outside the list). *)
Record t : Type := mk {
  id : string;
  name : option string;
  x : float;
  y : float;
  angle : float;
  color : string;
  isDead : bool;
  hasWon : bool;
  score : float;
  territory : list float;
  trail : list float
}.

Definition set_territory (v : list float) (s : t) : t :=
  mk (id s) (name s) (x s) (y s) (angle s) (color s) (isDead s) (hasWon s)
     (score s) v (trail s).

Definition set_trail (v : list float) (s : t) : t :=
  mk (id s) (name s) (x s) (y s) (angle s) (color s) (isDead s) (hasWon s)
     (score s) (territory s) v.

End PlayerState.

(** ** ai/BotBrain.ts *)

Module BotBrain.

(** The AI state of a bot; the game it steers is the game of its room. *)
Record t : Type := mk {
  playerId : string;
  changeDirTimer : float;
  isReturning : bool;
  aiUpdateTimer : float
}.

Definition new (playerId : string) : t :=
  {| playerId := playerId; changeDirTimer := 0; isReturning := false;
     aiUpdateTimer := 0 |}.

Definition AI_UPDATE_INTERVAL : float := 1 / 6.

Section WithPlatform.

Variable M : MathLib.

(** [random n] is the result of the [n]-th call of [Math.random()]; a
    function that draws carries the number of calls made so far. *)
Variable random : nat -> float.

Definition steerTowardsTerritory (bot : t) (player : Player) (game : GameState)
    : GameState :=
  if (length (territory player) =? 0)%nat then game
  else
    let sumX := fold_left (fun acc pt => acc + x pt) (territory player) 0 in
    let sumY := fold_left (fun acc pt => acc + y pt) (territory player) 0 in
    let centerX := sumX / float_of_nat (length (territory player)) in
    let centerY := sumY / float_of_nat (length (territory player)) in
    let dx := centerX - posX player in
    let dy := centerY - posY player in
    let angleToTerritory := Math_atan2 M dy dx in
    setPlayerInput game (playerId bot) angleToTerritory.

Definition processBehavior (bot : t) (player : Player) (dt : float)
    (game : GameState) (calls : nat) : t * GameState * nat :=
  let timer := changeDirTimer bot - dt in
  let trailLength := length (trail player) in
  if (40 <? trailLength)%nat && isOutside player then
    (mk (playerId bot) timer true (aiUpdateTimer bot),
     steerTowardsTerritory bot player game, calls)
  else
    let returning := if negb (isOutside player) then false else isReturning bot in
    if timer <=? 0 then
      if returning && isOutside player then
        (mk (playerId bot) 0.5 returning (aiUpdateTimer bot),
         steerTowardsTerritory bot player game, calls)
      else
        let currentAngle := angle player in
        let turn := (random calls - 0.5) * Math_PI / 1.5 in
        let newAngle := currentAngle + turn in
        (mk (playerId bot) (random (S calls) * 2 + 0.5) returning (aiUpdateTimer bot),
         setPlayerInput game (playerId bot) newAngle, S (S calls))
    else (mk (playerId bot) timer returning (aiUpdateTimer bot), game, calls).

Definition update (bot : t) (dt : float) (game : GameState) (calls : nat)
    : t * GameState * nat :=
  let timer := aiUpdateTimer bot + dt in
  if timer <? AI_UPDATE_INTERVAL then
    (mk (playerId bot) (changeDirTimer bot) (isReturning bot) timer, game, calls)
  else
    let bot := mk (playerId bot) (changeDirTimer bot) (isReturning bot) 0 in
    match getPlayer game (playerId bot) with
    | None => (bot, game, calls)
    | Some player =>
        if isDead player then (bot, game, calls)
        else
          let centerX := WORLD_WIDTH / 2 in
          let centerY := WORLD_HEIGHT / 2 in
          let maxRadius := WORLD_WIDTH / 2 in
          let margin := 300 in
          let dx := posX player - centerX in
          let dy := posY player - centerY in
          let distFromCenter := Math_sqrt (dx * dx + dy * dy) in
          if maxRadius - margin <? distFromCenter then
            let angleToCenter := Math_atan2 M (- dy) (- dx) in
            (bot, setPlayerInput game (playerId bot) angleToCenter, calls)
          else processBehavior bot player dt game calls
    end.

End WithPlatform.

End BotBrain.

(** ** rooms/GameRoom.ts, the room around the pass *)

(** [territory.push(point.x, point.y)] for every point. *)
Definition flatPoints (points : list Point) : list float :=
  flat_map (fun pt => [x pt; y pt]) points.

Module GameRoom.

(** The fields of the room that the simulation uses.  [randomCalls] is not
    a field of the source: it counts the calls of [Math.random()] made so
    far. *)
Record t : Type := mk {
  game : GameState;
  state : list (string * PlayerState.t);
  bots : list (string * BotBrain.t);
  colorIndex : nat;
  randomCalls : nat
}.

Definition TARGET_TOTAL_PLAYERS : nat := 4.
Definition MIN_HUMAN_PLAYERS_FOR_BOTS : nat := 3.

(** The room after [onCreate]. *)
Definition new : t :=
  {| game := newGameState; state := []; bots := []; colorIndex := 0;
     randomCalls := 0 |}.

Definition syncTerritory (playerState : PlayerState.t) (territory : list Point)
    : PlayerState.t :=
  PlayerState.set_territory (flatPoints territory) playerState.

Definition syncTrail (playerState : PlayerState.t) (trail : list Point)
    : PlayerState.t :=
  let expectedLength := (length trail * 2)%nat in
  if negb (length (PlayerState.trail playerState) =? expectedLength)%nat
  then PlayerState.set_trail (flatPoints trail) playerState
  else playerState.

(** The body of the loop of [syncState] for a player that has a view. *)
Definition syncPlayer (player : Player) (playerState : PlayerState.t)
    : Player * PlayerState.t :=
  let playerState :=
    PlayerState.mk (PlayerState.id playerState) (PlayerState.name playerState)
      (posX player) (posY player) (angle player) (PlayerState.color playerState)
      (isDead player) (hasWon player) (score player)
      (PlayerState.territory playerState) (PlayerState.trail playerState) in
  let playerState := syncTrail playerState (trail player) in
  if negb (length (PlayerState.territory playerState)
           =? length (territory player) * 2)%nat
     || territoryChanged player
  then (set_territoryChanged false player,
        syncTerritory playerState (territory player))
  else (player, playerState).

(** [for (const player of this.game.getAllPlayers())]: the players are
    updated in place, each view under the id of its player. *)
Fixpoint syncLoop (players : list Player) (state : list (string * PlayerState.t))
    : list Player * list (string * PlayerState.t) :=
  match players with
  | [] => ([], state)
  | player :: rest =>
      match mapGet state (id player) with
      | None =>
          let (rest', state') := syncLoop rest state in
          (player :: rest', state')
      | Some playerState =>
          let (player', playerState') := syncPlayer player playerState in
          let (rest', state') :=
            syncLoop rest (mapSet state (id player) playerState') in
          (player' :: rest', state')
      end
  end.

Definition syncState (room : t) : t :=
  let (game', state') := syncLoop (getAllPlayers (game room)) (state room) in
  mk game' state' (bots room) (colorIndex room) (randomCalls room).

Section WithPlatform.

Variable M : MathLib.
Variable random : nat -> float.

(** [r.toString(36).substr(2, 9)] for a result [r] of [Math.random()]: the
    digits of a number in base 36 are left to the implementation by
    ECMAScript. *)
Variable base36 : float -> string.

(** One random position of [findSpawnPosition]; it draws twice. *)
Definition candidate (calls : nat) : Point :=
  let centerX := WORLD_WIDTH / 2 in
  let centerY := WORLD_HEIGHT / 2 in
  let maxRadius := WORLD_WIDTH / 2 in
  let territoryRadius := STARTING_TERRITORY_SIZE / 2 + 5 in
  let angle := random calls * Math_PI * 2 in
  let radius := Math_sqrt (random (S calls)) * (maxRadius - territoryRadius - 50) in
  mkPoint (centerX + Math_cos M angle * radius) (centerY + Math_sin M angle * radius).

(** [for (const territoryPoint of player.territory)] *)
Fixpoint minDist_loop (pos : Point) (points : list Point) (minDistToTerritory : float)
    : float :=
  match points with
  | [] => minDistToTerritory
  | territoryPoint :: rest =>
      let dx := x pos - x territoryPoint in
      let dy := y pos - y territoryPoint in
      let dist := Math_sqrt (dx * dx + dy * dy) in
      minDist_loop pos rest (Math_min minDistToTerritory dist)
  end.

(** The validity test of the first loop, [valid] at its end. *)
Fixpoint valid_loop (pos : Point) (players : list Player) : bool :=
  match players with
  | [] => true
  | player :: rest =>
      if isDead player then valid_loop pos rest
      else if isPointInPolygon pos (territory player) then false
      else
        let territoryRadius := STARTING_TERRITORY_SIZE / 2 + 5 in
        let minSafeDist := territoryRadius + 100 in
        if minDist_loop pos (territory player) infinity <? minSafeDist then false
        else valid_loop pos rest
  end.

(** The test of the second loop, [insideAnyTerritory] at its end. *)
Fixpoint inside_loop (pos : Point) (players : list Player) : bool :=
  match players with
  | [] => false
  | player :: rest =>
      if isDead player then inside_loop pos rest
      else if isPointInPolygon pos (territory player) then true
      else inside_loop pos rest
  end.

(** [for (let i = 0; i < maxAttempts; i++)], for a test [ok] of the
    candidate: the position found, if any, and the calls of
    [Math.random()] made. *)
Fixpoint attempt_loop (ok : Point -> bool) (attempts : nat) (calls : nat)
    : option Point * nat :=
  match attempts with
  | O => (None, calls)
  | S attempts' =>
      let pos := candidate calls in
      if ok pos then (Some pos, S (S calls))
      else attempt_loop ok attempts' (S (S calls))
  end.

Definition findSpawnPosition (players : GameState) (calls : nat) : Point * nat :=
  let maxAttempts := 100%nat in
  match attempt_loop (fun pos => valid_loop pos (getAllPlayers players))
          maxAttempts calls with
  | (Some pos, calls1) => (pos, calls1)
  | (None, calls1) =>
      match attempt_loop (fun pos => negb (inside_loop pos (getAllPlayers players)))
              maxAttempts calls1 with
      | (Some pos, calls2) => (pos, calls2)
      | (None, calls2) => (mkPoint (WORLD_WIDTH / 2) (WORLD_HEIGHT / 2), calls2)
      end
  end.

(** The view of a new player, as [onJoin] and [spawnBot] build it. *)
Definition newView (pid : string) (name : option string) (player : Player)
    : PlayerState.t :=
  syncTerritory
    {| PlayerState.id := pid; PlayerState.name := name;
       PlayerState.x := posX player; PlayerState.y := posY player;
       PlayerState.angle := angle player; PlayerState.color := color player;
       PlayerState.isDead := false; PlayerState.hasWon := false;
       PlayerState.score := 0;
       PlayerState.territory := []; PlayerState.trail := [] |}
    (territory player).

(** [onJoin]; [username] is [options.username] when it is a string. *)
Definition onJoin (room : t) (sessionId : string) (username : option string) : t :=
  let username :=
    match username with
    | Some u => if String.eqb u "" then substring 0 8 sessionId else u
    | None => substring 0 8 sessionId
    end in
  let (spawnPos, calls) := findSpawnPosition (game room) (randomCalls room) in
  let color := nth (colorIndex room mod length PLAYER_COLORS) PLAYER_COLORS ""%string in
  let (player, game') :=
    createPlayer M (game room) sessionId (x spawnPos) (y spawnPos) color in
  let playerState := newView sessionId (Some username) player in
  mk game' (mapSet (state room) sessionId playerState) (bots room)
     (S (colorIndex room)) calls.

Definition onLeave (room : t) (sessionId : string) : t :=
  mk (removePlayer (game room) sessionId) (mapDelete (state room) sessionId)
     (bots room) (colorIndex room) (randomCalls room).

(** The handler of the message ['input']. *)
Definition onInput (room : t) (sessionId : string) (angle : float) : t :=
  mk (setPlayerInput (game room) sessionId angle) (state room) (bots room)
     (colorIndex room) (randomCalls room).

(** The body of [this.bots.forEach((bot, botId) => ...)]. *)
Definition botTurn (room : t) (botId : string) (dt : float) : t :=
  match mapGet (bots room) botId with
  | None => room
  | Some bot =>
      match getPlayer (game room) botId with
      | None =>
          mk (game room) (mapDelete (state room) botId)
             (mapDelete (bots room) botId) (colorIndex room) (randomCalls room)
      | Some player =>
          if isDead player && (1 <? deathTimer player) then
            mk (removePlayer (game room) botId) (mapDelete (state room) botId)
               (mapDelete (bots room) botId) (colorIndex room) (randomCalls room)
          else if negb (isDead player) then
            let '(bot', game', calls) :=
              BotBrain.update M random bot dt (game room) (randomCalls room) in
            mk game' (state room) (mapSet (bots room) botId bot')
               (colorIndex room) calls
          else room
      end
  end.

Definition botTurns (room : t) (dt : float) : t :=
  fold_left (fun r botId => botTurn r botId dt) (map fst (bots room)) room.

(** [update(dt)]: nothing in it throws, so the [try] never leaves the
    body early; [None] when a loop does not terminate. *)
Definition update (fuel : nat) (room : t) (dt : float) : option t :=
  match update M fuel dt (game room) with
  | None => None
  | Some game1 =>
      let room1 :=
        botTurns (mk game1 (state room) (bots room) (colorIndex room)
                    (randomCalls room)) dt in
      match checkCaptureAndCollisions M (game room1) with
      | None => None
      | Some game2 =>
          Some (syncState (mk game2 (state room1) (bots room1)
                              (colorIndex room1) (randomCalls room1)))
      end
  end.

Definition spawnBot (room : t) : t :=
  let botId := ("BOT_" ++ base36 (random (randomCalls room)))%string in
  let (spawn, calls) := findSpawnPosition (game room) (S (randomCalls room)) in
  let color := nth (colorIndex room mod length PLAYER_COLORS) PLAYER_COLORS ""%string in
  let (player, game') := createPlayer M (game room) botId (x spawn) (y spawn) color in
  let playerState := newView botId (getRandomBotName (random calls)) player in
  mk game' (mapSet (state room) botId playerState)
     (mapSet (bots room) botId (BotBrain.new botId))
     (S (colorIndex room)) (S calls).

Definition manageBotPopulation (room : t) : t :=
  let allPlayers := getAllPlayers (game room) in
  let humanCount :=
    length (filter (fun p => negb (String.prefix "BOT_" (id p))) allPlayers) in
  let botCount := length (bots room) in
  let totalPlayers := (humanCount + botCount)%nat in
  if (MIN_HUMAN_PLAYERS_FOR_BOTS <=? humanCount)%nat then room
  else if (totalPlayers <? TARGET_TOTAL_PLAYERS)%nat then
    let botsToSpawn := (TARGET_TOTAL_PLAYERS - totalPlayers)%nat in
    fold_left (fun r _ => spawnBot r) (seq 0 botsToSpawn) room
  else room.

End WithPlatform.

End GameRoom.

(** ** The whole room as a transition system *)

Inductive RoomEvent : Type :=
  | OnJoin (sessionId : string) (username : option string)
  | OnLeave (sessionId : string)
  | OnInput (sessionId : string) (angle : float)
  | OnTick (dt : float)
  | OnBotTimer.

Definition roomStep (M : MathLib) (random : nat -> float) (base36 : float -> string)
    (fuel : nat) (ev : RoomEvent) (room : GameRoom.t) : option GameRoom.t :=
  match ev with
  | OnJoin sessionId username =>
      Some (GameRoom.onJoin M random room sessionId username)
  | OnLeave sessionId => Some (GameRoom.onLeave room sessionId)
  | OnInput sessionId a => Some (GameRoom.onInput room sessionId a)
  | OnTick dt => GameRoom.update M random fuel room dt
  | OnBotTimer => Some (GameRoom.manageBotPopulation M random base36 room)
  end.

Fixpoint roomRun (M : MathLib) (random : nat -> float) (base36 : float -> string)
    (fuel : nat) (evs : list RoomEvent) (room : GameRoom.t) : option GameRoom.t :=
  match evs with
  | [] => Some room
  | ev :: rest =>
      match roomStep M random base36 fuel ev room with
      | Some room' => roomRun M random base36 fuel rest room'
      | None => None
      end
  end.

(** ** Notions about the room *)

(** All that [syncState] does to a player: it may clear
    [territoryChanged]. *)
Definition flagCleared (p p' : Player) : Prop :=
  p' = p \/ p' = set_territoryChanged false p.

(** The view [v] stored under [key] shows the trail and the territory of
    the player [p], which has no unsent territory change. *)
Definition viewExact (p : Player) (kv : string * PlayerState.t) : Prop :=
  fst kv = id p /\ PlayerState.id (snd kv) = id p /\
  PlayerState.trail (snd kv) = flatPoints (trail p) /\
  PlayerState.territory (snd kv) = flatPoints (territory p) /\
  territoryChanged p = false.

(** The view shows the position, the heading, the flags and the score of
    the player as well. *)
Definition viewFresh (p : Player) (kv : string * PlayerState.t) : Prop :=
  viewExact p kv /\
  PlayerState.x (snd kv) = posX p /\ PlayerState.y (snd kv) = posY p /\
  PlayerState.angle (snd kv) = angle p /\
  PlayerState.isDead (snd kv) = isDead p /\
  PlayerState.hasWon (snd kv) = hasWon p /\
  PlayerState.score (snd kv) = score p.

(** The view lags by at most the movement update: its trail is the trail
    of the player, or that trail without its last point. *)
Definition viewMoved (p : Player) (kv : string * PlayerState.t) : Prop :=
  fst kv = id p /\ PlayerState.id (snd kv) = id p /\
  (exists T, PlayerState.trail (snd kv) = flatPoints T /\
             (trail p = T \/ exists c, trail p = T ++ [c])) /\
  PlayerState.territory (snd kv) = flatPoints (territory p) /\
  territoryChanged p = false.

(** The view before [syncState]: whatever it shows with the right length
    is right, unless a territory change is flagged. *)
Definition viewStale (p : Player) (kv : string * PlayerState.t) : Prop :=
  fst kv = id p /\ PlayerState.id (snd kv) = id p /\
  (length (PlayerState.trail (snd kv)) = (length (trail p) * 2)%nat ->
   PlayerState.trail (snd kv) = flatPoints (trail p)) /\
  (length (PlayerState.territory (snd kv)) = (length (territory p) * 2)%nat ->
   territoryChanged p = false ->
   PlayerState.territory (snd kv) = flatPoints (territory p)).

(** The bots of the room are filed under the id of the player they
    steer. *)
Definition botsFiled (room : GameRoom.t) : Prop :=
  Forall (fun kb => BotBrain.playerId (snd kb) = fst kb) (GameRoom.bots room).

(** [p'] is [p] with another target angle and speed: all an input does. *)
Definition steered (p p' : Player) : Prop :=
  exists a v, p' = set_speed v (set_targetAngle a p).

(** What the movement update leaves of a player as far as its view is
    concerned: at most one point is added to the trail. *)
Definition moved (p p' : Player) : Prop :=
  id p' = id p /\ territory p' = territory p /\
  territoryChanged p' = territoryChanged p /\
  (trail p' = trail p \/ exists c, trail p' = trail p ++ [c]).

(** ** A concrete room

    A room with a pseudo-random [Math.random], one client that joins and
    steers east, the bots the bot timer adds, and forty simulation steps
    of 17 ms. *)
Definition demoRandom (n : nat) : float :=
  float_of_nat ((n * 37 + 11) mod 64) / 64.

Definition demoBase36 (r : float) : string :=
  if r <? 0.25 then "a7"
  else if r <? 0.5 then "k2"
  else if r <? 0.75 then "q9"
  else "z4".

Definition demoEvents : list RoomEvent :=
  [OnJoin "client-1" None; OnBotTimer; OnInput "client-1" 0]
  ++ repeat (OnTick (17 / 1000)) 40.

Definition roomOf (o : option GameRoom.t) : GameRoom.t :=
  match o with
  | Some room => room
  | None => GameRoom.new
  end.

Definition demoRoom : GameRoom.t :=
  roomOf (roomRun RefMath.lib demoRandom demoBase36 8 demoEvents GameRoom.new).

(** The room one simulation step later. *)
Definition demoNext : GameRoom.t :=
  roomOf (roomStep RefMath.lib demoRandom demoBase36 8 (OnTick (17 / 1000)) demoRoom).

(** ** Notions about what a pass leaves alone *)

(** What the capture and collision pass never changes of a player, and
    the direction in which it changes the rest: flags are only raised, and
    territory and score change only under a raised [territoryChanged]. *)
Definition passFrame (p p' : Player) : Prop :=
  id p' = id p /\ color p' = color p /\ posX p' = posX p /\ posY p' = posY p /\
  angle p' = angle p /\ targetAngle p' = targetAngle p /\ speed p' = speed p /\
  prevX p' = prevX p /\ prevY p' = prevY p /\
  (hasWon p = true -> hasWon p' = true) /\
  (isDead p = true -> isDead p' = true) /\
  (territoryChanged p = true -> territoryChanged p' = true) /\
  ((territory p' = territory p /\ score p' = score p) \/ territoryChanged p' = true).

(** A dead player changes in its death timer only. *)
Definition frozen (p p' : Player) : Prop :=
  id p' = id p /\ (isDead p = true -> exists t, p' = set_deathTimer t p).

(** The state after a pass and later events. *)
Definition crossingLater : GameState :=
  stateOf (run RefMath.lib 8
             [EvCheck; EvUpdate (17 / 1000); EvInput "A" 1; EvCheck] crossingState).

(** ** Notions about standing still and about bots *)

(** A number that is a zero or NaN: what [v - v] is for every number. *)
Definition zeroOrNaN (v : float) : Prop :=
  match Prim2SF v with
  | S754_zero _ | S754_nan => True
  | _ => False
  end.

(** The players [manageBotPopulation] counts as human. *)
Definition humanPlayers (players : GameState) : list Player :=
  filter (fun p => negb (String.prefix "BOT_" (id p))) (getAllPlayers players).

(** * Properties *)

(** ** Point in polygon (geometry.ts) *)

Lemma flip_xorb (c inside : bool) :
  (if c then negb inside else inside) = xorb inside c.
Proof. destruct c, inside; reflexivity. Qed.

(** The index loop computes the parity of the chain it still has to
    walk. *)
Lemma pip_loop_chain (pt : Point) (polygon : list Point) :
  forall (rest pre : list Point) (j : nat) (inside : bool),
    polygon = pre ++ rest ->
    pip_loop pt polygon (length rest) (length pre) j inside
    = xorb inside (chainParity pt (nth j polygon origin) rest).
Proof.
  induction rest as [|a rest IH]; intros pre j inside Hpoly; simpl.
  - now rewrite xorb_false_r.
  - assert (Hnth : nth (length pre) polygon origin = a).
    { subst polygon. rewrite app_nth2 by lia. now rewrite Nat.sub_diag. }
    rewrite Hnth, flip_xorb.
    specialize (IH (pre ++ [a]) (length pre) (xorb inside (edgeCrosses pt a (nth j polygon origin)))).
    rewrite length_app in IH. simpl in IH.
    replace (length pre + 1)%nat with (S (length pre)) in IH by lia.
    rewrite IH by (subst polygon; now rewrite <- app_assoc).
    rewrite Hnth. now rewrite xorb_assoc.
Qed.

Lemma nth_pred_length_last (l : list Point) (d : Point) :
  nth (length l - 1) l d = last l d.
Proof.
  induction l as [|a l IH]; [reflexivity|].
  destruct l as [|b l]; [reflexivity|].
  change (last (a :: b :: l) d) with (last (b :: l) d).
  rewrite <- IH. simpl. now rewrite Nat.sub_0_r.
Qed.

Lemma isPointInPolygon_chain (pt : Point) (polygon : list Point) :
  isPointInPolygon pt polygon = chainParity pt (last polygon origin) polygon.
Proof.
  unfold isPointInPolygon.
  pose proof (pip_loop_chain pt polygon polygon [] (length polygon - 1) false eq_refl) as H.
  simpl length in H. rewrite H.
  rewrite xorb_false_l. f_equal. apply nth_pred_length_last.
Qed.

Lemma last_cons_default (a : Point) (l : list Point) (d d' : Point) :
  last (a :: l) d = last (a :: l) d'.
Proof.
  revert a; induction l as [|b l IH]; intro a; [reflexivity|].
  change (last (b :: l) d = last (b :: l) d'). apply IH.
Qed.

Lemma chainParity_app (pt : Point) :
  forall (l1 l2 : list Point) (prev : Point),
    chainParity pt prev (l1 ++ l2)
    = xorb (chainParity pt prev l1) (chainParity pt (last l1 prev) l2).
Proof.
  induction l1 as [|a l1 IH]; intros l2 prev; simpl.
  - reflexivity.
  - rewrite IH, xorb_assoc. do 2 f_equal.
    destruct l1 as [|b l1]; [reflexivity|].
    f_equal. apply last_cons_default.
Qed.

Lemma last_app_cons (l1 : list Point) (a : Point) (l2 : list Point) (d : Point) :
  last (l1 ++ a :: l2) d = last (a :: l2) d.
Proof.
  induction l1 as [|b l1 IH]; [reflexivity|].
  simpl app. rewrite <- IH. simpl. destruct (l1 ++ a :: l2) eqn:E; [|reflexivity].
  now destruct l1.
Qed.

Lemma isPointInPolygon_rotate (pt : Point) (l1 l2 : list Point) :
  isPointInPolygon pt (l1 ++ l2) = isPointInPolygon pt (l2 ++ l1).
Proof.
  destruct l1 as [|a l1]; [now rewrite app_nil_r|].
  destruct l2 as [|b l2]; [now rewrite app_nil_r|].
  rewrite !isPointInPolygon_chain, !chainParity_app, !last_app_cons.
  rewrite (last_cons_default a l1 (last (b :: l2) origin) origin).
  rewrite (last_cons_default b l2 (last (a :: l1) origin) origin).
  apply xorb_comm.
Qed.

Lemma last_cons (a : Point) (l : list Point) (d : Point) :
  last (a :: l) d = last l a.
Proof.
  destruct l as [|e l]; [reflexivity|].
  change (last (e :: l) d = last (e :: l) a). apply last_cons_default.
Qed.

Lemma hd_rev (k : list Point) (d : Point) : hd d (rev k) = last k d.
Proof.
  induction k as [|e k IH]; [reflexivity|].
  simpl rev. destruct k as [|f k]; [reflexivity|].
  change (last (e :: f :: k) d) with (last (f :: k) d).
  rewrite <- IH. simpl rev.
  destruct (rev k ++ [f]) eqn:E; [|reflexivity].
  destruct (rev k); discriminate.
Qed.

Lemma last_rev (k : list Point) (d : Point) : last (rev k) d = hd d k.
Proof.
  destruct k as [|e k]; [reflexivity|]. simpl rev. now rewrite last_last.
Qed.

(** The shape of a reversed non-empty list: it starts with the last
    element and ends with the first. *)
Lemma rev_cons_shape (a : Point) (l : list Point) :
  exists m, rev (a :: l) = last l a :: m /\ last m (last l a) = a.
Proof.
  destruct (rev (a :: l)) as [|c m] eqn:E.
  - apply (f_equal (@length Point)) in E. rewrite length_rev in E. discriminate.
  - exists m.
    assert (Hc : c = last l a).
    { pose proof (hd_rev (a :: l) origin) as H. rewrite E in H. simpl hd in H.
      rewrite H. apply last_cons. }
    subst c. split; [reflexivity|].
    pose proof (last_rev (a :: l) origin) as H. rewrite E in H. simpl hd in H.
    rewrite last_cons in H. exact H.
Qed.

(** The loop of [isPointInPolygon] computes the parity of the tests of
    the edges in [polygonEdges]. *)
Lemma chainParity_edges (pt : Point) (l : list Point) :
  forall prev,
    chainParity pt prev l
    = fold_right xorb false
        (map (fun e => edgeCrosses pt (fst e) (snd e)) (chainEdges prev l)).
Proof.
  induction l as [|a l IH]; intro prev; simpl; [reflexivity|].
  now rewrite IH.
Qed.

Lemma isPointInPolygon_edges (pt : Point) (polygon : list Point) :
  isPointInPolygon pt polygon
  = fold_right xorb false
      (map (fun e => edgeCrosses pt (fst e) (snd e)) (polygonEdges polygon)).
Proof.
  rewrite isPointInPolygon_chain. apply chainParity_edges.
Qed.

(** The open chain of a reversed list crosses the same edges, each taken
    in the other direction. *)
Lemma chainParity_rev (pt : Point) :
  forall (l : list Point) (a : Point),
    (forall u v, In (u, v) (chainEdges a l) ->
                 edgeCrosses pt u v = edgeCrosses pt v u) ->
    chainParity pt (last l a) (tl (rev (a :: l))) = chainParity pt a l.
Proof.
  induction l as [|b l IH]; intros a Hsym; [reflexivity|].
  assert (Hsym' : forall u v, In (u, v) (chainEdges b l) ->
                              edgeCrosses pt u v = edgeCrosses pt v u).
  { intros u v Hin. apply Hsym. now right. }
  specialize (IH b Hsym').
  destruct (rev_cons_shape b l) as (m & Hrev & Hlast).
  change (rev (a :: b :: l)) with (rev (b :: l) ++ [a]).
  rewrite Hrev in IH |- *. simpl tl in IH |- *.
  rewrite (last_cons b l a).
  rewrite chainParity_app, IH, Hlast. simpl.
  rewrite xorb_false_r, <- (Hsym b a) by now left.
  apply xorb_comm.
Qed.

Lemma isPointInPolygon_rev (pt : Point) (polygon : list Point) :
  (forall u v, In (u, v) (polygonEdges polygon) ->
               edgeCrosses pt u v = edgeCrosses pt v u) ->
  isPointInPolygon pt (rev polygon) = isPointInPolygon pt polygon.
Proof.
  unfold polygonEdges. intro Hsym.
  destruct polygon as [|a l]; [reflexivity|].
  rewrite (last_cons a l origin) in Hsym. simpl chainEdges in Hsym.
  rewrite !isPointInPolygon_chain.
  assert (Hopen : chainParity pt (last l a) (tl (rev (a :: l)))
                  = chainParity pt a l).
  { apply chainParity_rev. intros u v Hin. apply Hsym. now right. }
  destruct (rev_cons_shape a l) as (m & Hrev & Hlast).
  rewrite last_rev. simpl hd.
  rewrite Hrev in Hopen |- *. simpl tl in Hopen.
  rewrite (last_cons a l origin).
  simpl chainParity. rewrite Hopen.
  f_equal. symmetry. apply Hsym. now left.
Qed.

(** C7 (as amended). [isPointInPolygon] gives the same answer on every
    cyclic rotation of the polygon.  It gives the same answer on the
    reversed polygon whenever, for each edge of the polygon (each pair of
    vertices the loop tests together), the crossing test does not depend
    on the direction in which the edge is taken. *)
Theorem isPointInPolygon_rotation_reversal (pt : Point) (polygon : list Point) :
  (forall l1 l2, polygon = l1 ++ l2 ->
     isPointInPolygon pt (l2 ++ l1) = isPointInPolygon pt polygon) /\
  ((forall u v, In (u, v) (polygonEdges polygon) ->
      edgeCrosses pt u v = edgeCrosses pt v u) ->
   isPointInPolygon pt (rev polygon) = isPointInPolygon pt polygon).
Proof.
  split.
  - intros l1 l2 ->. apply isPointInPolygon_rotate.
  - apply isPointInPolygon_rev.
Qed.

(** C7, the claim as stated fails: the point [(1/3, 1)] is inside the
    triangle [(0,0), (1,3), (-5,3)] and outside its reversal.  The
    x-intercept of the edge [(0,0)-(1,3)] at height 1 is rounded to
    different numbers in the two directions of the edge. *)
Lemma isPointInPolygon_reversal_counterexample :
  isPointInPolygon roundingPoint roundingTriangle = true /\
  isPointInPolygon roundingPoint (rev roundingTriangle) = false /\
  edgeCrosses roundingPoint (mkPoint 1 3) (mkPoint 0 0) = true /\
  edgeCrosses roundingPoint (mkPoint 0 0) (mkPoint 1 3) = false.
Proof. repeat apply conj; vm_compute; reflexivity. Qed.

(** ** Players of a map, position by position

    Every operation of a tick keeps the players in their slots of the map:
    a relation between the player before and after lifts to the map by
    [Forall2]. *)

Lemma getPlayer_In (s : GameState) (pid : string) (p : Player) :
  getPlayer s pid = Some p -> In p s /\ id p = pid.
Proof.
  unfold getPlayer. intro H. apply find_some in H. destruct H as [Hin Heq].
  apply String.eqb_eq in Heq. easy.
Qed.

Lemma getPlayer_setPlayer_same (s : GameState) (q : Player) :
  getPlayer (setPlayer s q) (id q) = Some q.
Proof.
  induction s as [|a s IH]; simpl.
  - now rewrite String.eqb_refl.
  - destruct (String.eqb (id a) (id q)) eqn:E; simpl.
    + now rewrite String.eqb_refl.
    + now rewrite E.
Qed.

Lemma getPlayer_setPlayer_other (s : GameState) (q : Player) (pid : string) :
  id q <> pid -> getPlayer (setPlayer s q) pid = getPlayer s pid.
Proof.
  intro Hne. induction s as [|a s IH]; simpl.
  - apply String.eqb_neq in Hne. now rewrite Hne.
  - destruct (String.eqb (id a) (id q)) eqn:E; simpl.
    + apply String.eqb_eq in E. apply String.eqb_neq in Hne.
      rewrite Hne. rewrite E. now rewrite Hne.
    + destruct (String.eqb (id a) pid); [reflexivity|exact IH].
Qed.

Section Lift.

Variable T : Player -> Player -> Prop.
Hypothesis T_refl : forall p, T p p.
Hypothesis T_trans : forall p q r, T p q -> T q r -> T p r.

Lemma Forall2_T_refl (s : GameState) : Forall2 T s s.
Proof. induction s; constructor; auto. Qed.

Lemma Forall2_T_trans (s1 s2 s3 : GameState) :
  Forall2 T s1 s2 -> Forall2 T s2 s3 -> Forall2 T s1 s3.
Proof.
  intro H12. revert s3. induction H12; intros s3 H23; inversion H23; subst.
  - constructor.
  - constructor; eauto.
Qed.

Lemma setPlayer_Forall2 (s : GameState) (p0 q : Player) :
  getPlayer s (id q) = Some p0 -> T p0 q -> Forall2 T s (setPlayer s q).
Proof.
  induction s as [|a s IH]; simpl; [discriminate|].
  destruct (String.eqb (id a) (id q)) eqn:E; intros Hget HT.
  - injection Hget as ->. constructor; [exact HT|apply Forall2_T_refl].
  - constructor; auto.
Qed.

Variable M : MathLib.
Hypothesis T_own :
  forall p0 p jc,
    isDead p0 = false -> capturePhase M p0 = Some (p, jc) ->
    id p = id p0 /\
    T p0 (if jc then p
          else if winThreshold <=? score p then winBranch p else p).
Hypothesis T_kill : forall v, isOutside v = true -> T v (killPlayer v).

Lemma cutForeignTrail_lift (player : Player) (prevPos currentPos : Point)
    (item : Item) (g : GameState) :
  Forall2 T g (cutForeignTrail player prevPos currentPos item g) /\
  (getPlayer g (id player) = Some player ->
   getPlayer (cutForeignTrail player prevPos currentPos item g) (id player)
   = Some player).
Proof.
  unfold cutForeignTrail.
  destruct (negb (String.eqb (itemPlayerId item) (id player))) eqn:Hid;
    simpl; [|split; [apply Forall2_T_refl|auto]].
  destruct (isTrailItem item); simpl; [|split; [apply Forall2_T_refl|auto]].
  destruct (segmentsIntersect _ _ _ _); [|split; [apply Forall2_T_refl|auto]].
  destruct (getPlayer g (itemPlayerId item)) as [victim|] eqn:Hv;
    [|split; [apply Forall2_T_refl|auto]].
  destruct (isOutside victim) eqn:Hout; [|split; [apply Forall2_T_refl|auto]].
  apply getPlayer_In in Hv as Hv'. destruct Hv' as [_ Hvid].
  split.
  - apply setPlayer_Forall2 with (p0 := victim).
    + simpl. now rewrite Hvid.
    + now apply T_kill.
  - intro Hget. rewrite getPlayer_setPlayer_other; [exact Hget|].
    simpl. rewrite Hvid. apply negb_true_iff in Hid.
    now apply String.eqb_neq in Hid.
Qed.

Lemma collisionLoop_lift (player : Player) (isInside : bool)
    (prevPos currentPos : Point) :
  isOutside player = true ->
  forall (nearby : list Item) (g : GameState),
    getPlayer g (id player) = Some player ->
    Forall2 T g (collisionLoop M player isInside prevPos currentPos nearby g).
Proof.
  intros Hout. induction nearby as [|item rest IH]; intros g Hget; simpl.
  - apply Forall2_T_refl.
  - destruct (cutForeignTrail_lift player prevPos currentPos item g) as [H1 H2].
    specialize (H2 Hget).
    apply Forall2_T_trans with (1 := H1).
    destruct (hitsOwnTrail M player isInside prevPos currentPos item).
    + apply setPlayer_Forall2 with (p0 := player); [exact H2|now apply T_kill].
    + now apply IH.
Qed.

Lemma checkPlayer_lift (hash : SpatialHash) (s s' : GameState) (pid : string) :
  checkPlayer M hash s pid = Some s' -> Forall2 T s s'.
Proof.
  unfold checkPlayer.
  destruct (getPlayer s pid) as [p0|] eqn:Hget;
    [|intros [= <-]; apply Forall2_T_refl].
  destruct (isDead p0) eqn:Hdead; [intros [= <-]; apply Forall2_T_refl|].
  destruct (capturePhase M p0) as [[p jc]|] eqn:Hcap; [|discriminate].
  destruct (T_own p0 p jc Hdead Hcap) as [Hid HT].
  apply getPlayer_In in Hget as Hin. destruct Hin as [_ Hpid].
  assert (Hgetp : getPlayer s (id p) = Some p0) by (now rewrite Hid, Hpid).
  destruct jc.
  - intros [= <-]. now apply setPlayer_Forall2 with (p0 := p0).
  - destruct (winThreshold <=? score p).
    + intros [= <-]. apply setPlayer_Forall2 with (p0 := p0); [|exact HT].
      replace (id (winBranch p)) with (id p); [exact Hgetp|].
      unfold winBranch. now destruct (negb (hasWon p)), (isOutside p);
        simpl; try destruct (isOutside p).
    + assert (H1 : Forall2 T s (setPlayer s p))
        by now apply setPlayer_Forall2 with (p0 := p0).
      destruct (isOutside p) eqn:Hout; intros [= <-]; [|exact H1].
      apply Forall2_T_trans with (1 := H1).
      apply collisionLoop_lift; [exact Hout|apply getPlayer_setPlayer_same].
Qed.

Lemma checkPlayers_lift (hash : SpatialHash) (pids : list string) :
  forall s s', checkPlayers M hash pids s = Some s' -> Forall2 T s s'.
Proof.
  induction pids as [|pid rest IH]; intros s s'; simpl.
  - intros [= <-]. apply Forall2_T_refl.
  - destruct (checkPlayer M hash s pid) as [s1|] eqn:H1; [|discriminate].
    intro H2. apply Forall2_T_trans with (s2 := s1).
    + now apply checkPlayer_lift in H1.
    + now apply IH.
Qed.

Lemma checkCaptureAndCollisions_lift (s s' : GameState) :
  checkCaptureAndCollisions M s = Some s' -> Forall2 T s s'.
Proof. apply checkPlayers_lift. Qed.

End Lift.

(** ** The capture phases leave the identity of the player alone *)

Lemma sameIdentity_refl (p : Player) : sameIdentity p p.
Proof. repeat split. Qed.

Lemma sameIdentity_trans (p q r : Player) :
  sameIdentity p q -> sameIdentity q r -> sameIdentity p r.
Proof.
  unfold sameIdentity. intros H1 H2.
  repeat match goal with H : _ /\ _ |- _ => destruct H end.
  repeat split; congruence.
Qed.

Lemma exitDetection_identity (p : Player) (isInside : bool) (a b : Point) :
  sameIdentity p (exitDetection p isInside a b).
Proof.
  unfold exitDetection.
  destruct (_ && _); [|apply sameIdentity_refl].
  destruct (findBoundaryIntersection _ _ _); repeat split.
Qed.

Lemma clearTrailState_identity (p : Player) : sameIdentity p (clearTrailState p).
Proof. repeat split. Qed.

Lemma commitTerritory_identity (t : list Point) (a : float) (p : Player) :
  sameIdentity p (commitTerritory t a p).
Proof. repeat split. Qed.

Lemma tryEntryCapture_identity (p p' : Player) (e : Point)
    (hit : BoundaryIntersection) (jc jc' : bool) :
  tryEntryCapture p e hit jc = Returns (p', jc') -> sameIdentity p p'.
Proof.
  unfold tryEntryCapture.
  destruct (computeCapture _ _ _ _ _ _); try discriminate.
  destruct (negb _); try discriminate.
  destruct (_ && _); intro H; inversion H; subst;
    [apply commitTerritory_identity|apply sameIdentity_refl].
Qed.

Lemma tryLoopCapture_identity (M : MathLib) (p p' : Player) (e : Point)
    (jc jc' : bool) :
  tryLoopCapture p e jc = Returns (p', jc') -> sameIdentity p p'.
Proof.
  unfold tryLoopCapture.
  destruct (computeCapture _ _ _ _ _ _); try discriminate.
  destruct (negb _); try discriminate.
  destruct (_ && _); intro H; inversion H; subst;
    [apply commitTerritory_identity|apply sameIdentity_refl].
Qed.

Lemma entryDetection_identity (M : MathLib) (p p' : Player) (isInside : bool)
    (a b : Point) (jc jc' : bool) :
  entryDetection M p isInside a b jc = Some (p', jc') -> sameIdentity p p'.
Proof.
  unfold entryDetection.
  destruct (_ && _); [|intros [= <- <-]; apply sameIdentity_refl].
  destruct (exitPoint p) as [e|]; [|intros [= <- <-]; apply sameIdentity_refl].
  destruct (_ <? _)%nat; [|intros [= <- <-]; apply sameIdentity_refl].
  destruct (tryEntryCapture _ _ _ _) as [[q jq]| |] eqn:E; intros [= <- <-].
  - apply tryEntryCapture_identity in E.
    eapply sameIdentity_trans; [exact E|apply clearTrailState_identity].
  - apply clearTrailState_identity.
Qed.

Lemma loopClosureDetection_identity (M : MathLib) (p p' : Player)
    (isInside : bool) (b : Point) (jc jc' : bool) :
  loopClosureDetection M p isInside b jc = Some (p', jc') -> sameIdentity p p'.
Proof.
  unfold loopClosureDetection.
  destruct (exitPoint p) as [e|]; [|intros [= <- <-]; apply sameIdentity_refl].
  destruct (_ && _); [|intros [= <- <-]; apply sameIdentity_refl].
  destruct (_ <? 80); [|intros [= <- <-]; apply sameIdentity_refl].
  destruct (tryLoopCapture _ _ _) as [[q jq]| |] eqn:E; intros [= <- <-].
  - apply tryLoopCapture_identity in E; [|exact M].
    eapply sameIdentity_trans; [exact E|apply clearTrailState_identity].
  - apply clearTrailState_identity.
Qed.

Lemma capturePhase_identity (M : MathLib) (p0 p : Player) (jc : bool) :
  capturePhase M p0 = Some (p, jc) -> sameIdentity p0 p.
Proof.
  unfold capturePhase.
  destruct (entryDetection _ _ _ _ _ _) as [[q jq]|] eqn:E; [|discriminate].
  intro L.
  apply entryDetection_identity in E. apply loopClosureDetection_identity in L.
  eapply sameIdentity_trans; [apply exitDetection_identity|].
  eapply sameIdentity_trans; eassumption.
Qed.

(** A player that is not outside when its turn comes cannot capture: at
    most it exits, with a trail of one point. *)
Lemma capturePhase_not_outside (M : MathLib) (p0 p : Player) (jc : bool) :
  isOutside p0 = false ->
  capturePhase M p0 = Some (p, jc) ->
  jc = false /\ score p = score p0 /\ territory p = territory p0.
Proof.
  intro Hout. unfold capturePhase, exitDetection. rewrite Hout. simpl negb.
  destruct (isPointInPolygon (currentPosOf p0) (territory p0)); simpl andb.
  - unfold entryDetection, loopClosureDetection. rewrite Hout. simpl.
    rewrite Hout. simpl.
    destruct (exitPoint p0); intros [= <- <-]; auto.
  - destruct (invulnerableTimer p0 <=? 0).
    + destruct (findBoundaryIntersection _ _ _);
        unfold entryDetection, loopClosureDetection; simpl;
        intros [= <- <-]; auto.
    + unfold entryDetection, loopClosureDetection. rewrite Hout. simpl.
      rewrite Hout. simpl.
      destruct (exitPoint p0); intros [= <- <-]; auto.
Qed.

(** A player inside its territory and not outside is left as it is. *)
Lemma capturePhase_inside (M : MathLib) (p0 : Player) :
  isOutside p0 = false ->
  isPointInPolygon (currentPosOf p0) (territory p0) = true ->
  capturePhase M p0 = Some (p0, false).
Proof.
  intros Hout Hin. unfold capturePhase, exitDetection. rewrite Hout, Hin. simpl.
  unfold entryDetection, loopClosureDetection. rewrite Hout. simpl.
  rewrite Hout. simpl.
  now destruct (exitPoint p0).
Qed.

Lemma winBranch_facts (p : Player) :
  id (winBranch p) = id p /\ isDead (winBranch p) = isDead p /\
  hasWon (winBranch p) = true /\ isOutside (winBranch p) = false /\
  score (winBranch p) = score p /\ territory (winBranch p) = territory p /\
  trail (winBranch p) = (if isOutside p then [] else trail p) /\
  currentPosOf (winBranch p) = currentPosOf p.
Proof.
  unfold winBranch.
  destruct (hasWon p) eqn:Hw, (isOutside p) eqn:Ho; simpl;
    rewrite ?Ho, ?Hw; simpl; repeat split; auto.
Qed.

(** ** Victory is safe (the victory latch) *)

Lemma wonStep_refl (p : Player) : wonStep p p.
Proof. split; auto. Qed.

Lemma wonStep_trans (p q r : Player) : wonStep p q -> wonStep q r -> wonStep p r.
Proof.
  intros [Hid1 H1] [Hid2 H2]. split; [congruence|].
  intro Hp. destruct (H1 Hp) as [Hq Hpq]. destruct (H2 Hq) as [Hr Hqr]. auto.
Qed.

Lemma wonStep_same_flags (p q : Player) :
  id q = id p -> hasWon q = hasWon p -> isDead q = isDead p ->
  isOutside q = isOutside p -> score q = score p -> wonStep p q.
Proof.
  intros Hid Hw Hd Ho Hs. split; [exact Hid|].
  unfold wonSafe. rewrite Hw, Hd, Ho, Hs. auto.
Qed.

Lemma wonStep_own (M : MathLib) (p0 p : Player) (jc : bool) :
  isDead p0 = false -> capturePhase M p0 = Some (p, jc) ->
  id p = id p0 /\
  wonStep p0 (if jc then p
              else if winThreshold <=? score p then winBranch p else p).
Proof.
  intros Hdead Hcap.
  pose proof (capturePhase_identity M p0 p jc Hcap)
    as (Hid & Hd & Hw & _).
  split; [exact Hid|].
  destruct (winBranch_facts p) as (Wid & Wd & Ww & Wo & Ws & _).
  assert (Wsafe : (winThreshold <=? score p) = true -> wonSafe (winBranch p)).
  { intro Hs. unfold wonSafe. rewrite Wd, Wo, Ws, Hd. auto. }
  unfold wonStep.
  split; [destruct jc; [|destruct (_ <=? _)]; rewrite ?Wid; exact Hid|].
  intro Hinv. destruct (hasWon p0) eqn:Hw0.
  - (* a winner: it was safe, so it cannot have captured *)
    destruct (Hinv eq_refl) as (_ & Hout & Hscore).
    destruct (capturePhase_not_outside M p0 p jc Hout Hcap) as (-> & Hsc & _).
    rewrite Hsc, Hscore.
    split; [intros _; apply Wsafe; now rewrite Hsc|intros _; exact Ww].
  - split; [|discriminate].
    destruct jc; [congruence|].
    destruct (winThreshold <=? score p) eqn:Hs; [auto|congruence].
Qed.

Lemma wonStep_kill (v : Player) : isOutside v = true -> wonStep v (killPlayer v).
Proof.
  intro Hout. split; [reflexivity|].
  intro Hinv.
  assert (Hw : hasWon v = false).
  { destruct (hasWon v) eqn:E; [|reflexivity].
    destruct (Hinv eq_refl) as (_ & Ho & _). congruence. }
  simpl. rewrite Hw. split; discriminate.
Qed.

Lemma checkCaptureAndCollisions_wonStep (M : MathLib) (s s' : GameState) :
  checkCaptureAndCollisions M s = Some s' -> Forall2 wonStep s s'.
Proof.
  apply checkCaptureAndCollisions_lift.
  - apply wonStep_refl.
  - apply wonStep_trans.
  - apply wonStep_own.
  - apply wonStep_kill.
Qed.

(** The movement update touches neither the flags nor the score. *)
Lemma updatePlayer_wonStep (M : MathLib) (fuel : nat) (dt : float) (p p' : Player) :
  updatePlayer M fuel dt p = Some p' -> wonStep p p'.
Proof.
  unfold updatePlayer.
  destruct (isDead p) eqn:Hd.
  - intros [= <-]. now apply wonStep_same_flags.
  - destruct (updatePlayerMovement _ _ _ _) as [q|] eqn:Hq; [|discriminate].
    intros [= <-]. revert Hq. unfold updatePlayerMovement.
    destruct (normalizeDiff _ _); [|discriminate]. intros [= <-].
    unfold updatePlayerTrail, moveWithDiff.
    destruct (0 <? invulnerableTimer p); simpl;
      (destruct (negb (isOutside p)); simpl;
       [|match goal with |- context [if ?c then _ else _] => destruct c end]);
      now apply wonStep_same_flags.
Qed.

Lemma update_wonStep (M : MathLib) (fuel : nat) (dt : float) :
  forall s s', update M fuel dt s = Some s' -> Forall2 wonStep s s'.
Proof.
  induction s as [|p s IH]; intros s'; simpl.
  - intros [= <-]. constructor.
  - destruct (updatePlayer M fuel dt p) as [p'|] eqn:Hp; [|discriminate].
    destruct (update M fuel dt s) as [r|]; [|discriminate].
    intros [= <-]. constructor; [now apply updatePlayer_wonStep in Hp|auto].
Qed.

Lemma setPlayerInput_wonStep (s : GameState) (pid : string) (a : float) :
  Forall2 wonStep s (setPlayerInput s pid a).
Proof.
  unfold setPlayerInput.
  destruct (getPlayer s pid) as [p|] eqn:Hget;
    [|apply Forall2_T_refl, wonStep_refl].
  destruct (negb (isDead p)); [|apply Forall2_T_refl, wonStep_refl].
  apply getPlayer_In in Hget as Hin. destruct Hin as [_ Hid].
  apply setPlayer_Forall2 with (p0 := p).
  - apply wonStep_refl.
  - destruct (speed _ =? 0); simpl; now rewrite Hid.
  - destruct (speed _ =? 0); now apply wonStep_same_flags.
Qed.

Lemma keepsPlayers_wonStep (M : MathLib) (fuel : nat) (ev : Event)
    (s s' : GameState) :
  keepsPlayers ev = true -> step M fuel ev s = Some s' -> Forall2 wonStep s s'.
Proof.
  destruct ev; simpl; try discriminate; intros _.
  - intros [= <-]. apply setPlayerInput_wonStep.
  - apply update_wonStep.
  - apply checkCaptureAndCollisions_wonStep.
Qed.

Lemma wonStep_winnersSafe (s s' : GameState) :
  Forall2 wonStep s s' -> winnersSafe s -> winnersSafe s'.
Proof.
  unfold winnersSafe. induction 1 as [|p p' s s' [_ Hp] _ IH]; intro Hs.
  - constructor.
  - inversion Hs; subst. constructor; [|auto].
    now apply Hp.
Qed.

Lemma setPlayer_winnersSafe (s : GameState) (q : Player) :
  winnersSafe s -> (hasWon q = true -> wonSafe q) -> winnersSafe (setPlayer s q).
Proof.
  unfold winnersSafe. intros Hs Hq. induction s as [|a s IH]; simpl.
  - constructor; [exact Hq|constructor].
  - inversion Hs; subst.
    destruct (String.eqb (id a) (id q)); constructor; auto.
Qed.

Lemma step_winnersSafe (M : MathLib) (fuel : nat) (ev : Event) (s s' : GameState) :
  step M fuel ev s = Some s' -> winnersSafe s -> winnersSafe s'.
Proof.
  destruct (keepsPlayers ev) eqn:Hk.
  - intros Hstep. apply wonStep_winnersSafe.
    now apply keepsPlayers_wonStep with (1 := Hk) in Hstep.
  - destruct ev; try discriminate; simpl; intros [= <-] Hs.
    + apply setPlayer_winnersSafe; [exact Hs|discriminate].
    + unfold removePlayer, winnersSafe in *. rewrite Forall_forall in *.
      intros p Hp. apply filter_In in Hp. now apply Hs.
Qed.

Lemma run_winnersSafe (M : MathLib) (fuel : nat) (evs : list Event) :
  forall s s', run M fuel evs s = Some s' -> winnersSafe s -> winnersSafe s'.
Proof.
  induction evs as [|ev evs IH]; intros s s'; simpl.
  - now intros [= <-].
  - destruct (step M fuel ev s) as [s1|] eqn:H1; [|discriminate].
    intros Hrun Hs. apply (IH s1 s' Hrun).
    now apply step_winnersSafe with (1 := H1).
Qed.

(** A winner that is in the safe state stays a winner, and alive, through
    every sequence of movement updates, passes and inputs. *)
Lemma run_wonStep (M : MathLib) (fuel : nat) (later : list Event) :
  forall s s',
    forallb keepsPlayers later = true -> run M fuel later s = Some s' ->
    winnersSafe s ->
    Forall2 (fun p p' => id p' = id p /\
               (hasWon p = true -> hasWon p' = true /\ isDead p' = false))
            s s'.
Proof.
  induction later as [|ev later IH]; intros s s' Hk; simpl.
  - intros [= <-] Hs. unfold winnersSafe in Hs.
    induction Hs as [|p s Hp _ IHs]; constructor; [|exact IHs].
    split; [reflexivity|]. intro Hw. split; [exact Hw|]. now destruct (Hp Hw).
  - simpl in Hk. apply andb_true_iff in Hk. destruct Hk as [Hev Hk].
    destruct (step M fuel ev s) as [s1|] eqn:H1; [|discriminate].
    intros Hrun Hs.
    pose proof (keepsPlayers_wonStep M fuel ev s s1 Hev H1) as H12.
    pose proof (IH s1 s' Hk Hrun (wonStep_winnersSafe s s1 H12 Hs)) as H2.
    clear - H12 H2 Hs. unfold winnersSafe in Hs.
    revert s' H2. induction H12 as [|p p1 s s1 [Hid Hp] _ IH12];
      intros s' H2; inversion H2 as [|? p' ? s2 [Hid' Hp'] Hrest]; subst.
    + constructor.
    + inversion Hs; subst. constructor.
      * split; [congruence|]. intro Hw.
        apply Hp'. now apply Hp.
      * now apply IH12.
Qed.

(** C6. In every state the room can reach, no victorious player is dead;
    and through every later sequence of ticks (movement updates, capture
    and collision passes, inputs) a victorious player stays the same
    player, victorious and alive. *)
Theorem won_player_never_dies (M : MathLib) (fuel : nat) (evs : list Event)
    (s : GameState) :
  run M fuel evs newGameState = Some s ->
  Forall (fun p => hasWon p = true -> isDead p = false) s /\
  (forall later s',
     forallb keepsPlayers later = true -> run M fuel later s = Some s' ->
     Forall2 (fun p p' => id p' = id p /\
                (hasWon p = true -> hasWon p' = true /\ isDead p' = false))
             s s').
Proof.
  intro Hrun.
  assert (Hs : winnersSafe s).
  { apply (run_winnersSafe M fuel evs newGameState s Hrun). constructor. }
  split.
  - unfold winnersSafe in Hs. rewrite Forall_forall in *.
    intros p Hp Hw. now destruct (Hs p Hp Hw).
  - intros later s' Hk Hlater. now apply (run_wonStep M fuel later s s').
Qed.

(** ** Who can die in the collision pass *)

Lemma deathStep_refl (p : Player) : deathStep p p.
Proof. unfold deathStep. auto. Qed.

Lemma deathStep_trans (p q r : Player) :
  deathStep p q -> deathStep q r -> deathStep p r.
Proof.
  intros (I1 & D1 & K1 & S1) (I2 & D2 & K2 & S2).
  split; [congruence|]. split; [|split].
  - intro Hp. destruct (D1 Hp) as [Hq Ho]. destruct (D2 Hq) as [Hr Ho'].
    split; congruence.
  - intro Hr. destruct (K2 Hr) as [Hq|Ho]; [|now right].
    destruct (K1 Hq) as [Hp|Ho]; [now left|right].
    destruct (D2 Hq) as [_ E]. congruence.
  - auto.
Qed.

Lemma deathStep_own (M : MathLib) (p0 p : Player) (jc : bool) :
  isDead p0 = false -> capturePhase M p0 = Some (p, jc) ->
  id p = id p0 /\
  deathStep p0 (if jc then p
                else if winThreshold <=? score p then winBranch p else p).
Proof.
  intros Hdead Hcap.
  pose proof (capturePhase_identity M p0 p jc Hcap) as (Hid & Hd & _).
  split; [exact Hid|].
  set (r := if jc then p else if winThreshold <=? score p then winBranch p else p).
  assert (Hr : id r = id p0 /\ isDead r = false).
  { destruct (winBranch_facts p) as (Wid & Wd & _).
    unfold r. destruct jc; [|destruct (_ <=? _)]; split; congruence. }
  destruct Hr as [Hrid Hrd].
  split; [exact Hrid|]. split; [congruence|]. split; [congruence|].
  intros (_ & Hout & Hin).
  rewrite (capturePhase_inside M p0 Hout Hin) in Hcap.
  injection Hcap as <- <-. unfold r, homeSafe.
  destruct (winThreshold <=? score p0); [|auto].
  destruct (winBranch_facts p0) as (_ & Wd & _ & Wo & _ & Wt & _ & Wp).
  rewrite Wd, Wo, Wt, Wp. auto.
Qed.

Lemma deathStep_kill (v : Player) : isOutside v = true -> deathStep v (killPlayer v).
Proof.
  intro Hout. unfold deathStep, homeSafe. simpl.
  split; [reflexivity|]. split; [auto|]. split; [auto|].
  intros (_ & Ho & _). congruence.
Qed.

(** C10. In the capture and collision pass a player that dies has
    [isOutside] set (both kills are guarded by it, and nothing clears it
    afterwards), and a live player that is inside its own territory and
    not outside when the pass begins is alive when it ends. *)
Theorem death_only_outside (M : MathLib) (s s' : GameState) :
  checkCaptureAndCollisions M s = Some s' ->
  Forall2
    (fun p p' =>
       id p' = id p /\
       (isDead p = false -> isDead p' = true -> isOutside p' = true) /\
       (isDead p = false -> isOutside p = false ->
        isPointInPolygon (currentPosOf p) (territory p) = true ->
        isDead p' = false))
    s s'.
Proof.
  intro Hcheck.
  assert (H : Forall2 deathStep s s').
  { revert Hcheck. apply checkCaptureAndCollisions_lift.
    - apply deathStep_refl.
    - apply deathStep_trans.
    - apply deathStep_own.
    - apply deathStep_kill. }
  clear Hcheck. induction H as [|p p' s s' (Hid & _ & Hk & Hs) _ IH];
    constructor; [|exact IH].
  split; [exact Hid|]. split.
  - intros Hp Hp'. destruct (Hk Hp'); congruence.
  - intros Hd Ho Hi. now destruct (Hs (conj Hd (conj Ho Hi))).
Qed.

(** ** The collision loop *)

Lemma killStep_refl (p : Player) : killStep p p.
Proof. unfold killStep. auto. Qed.

Lemma killStep_trans (p q r : Player) : killStep p q -> killStep q r -> killStep p r.
Proof.
  intros (I1 & O1 & D1) (I2 & O2 & D2). unfold killStep.
  split; [congruence|]. split; [congruence|auto].
Qed.

Lemma killStep_kill (v : Player) : killStep v (killPlayer v).
Proof. unfold killStep. simpl. auto. Qed.

(** A player found under [pid] before is found under [pid] after, related
    to its former self. *)
Lemma getPlayer_Forall2 (T : Player -> Player -> Prop) (s s' : GameState) :
  (forall p q, T p q -> id q = id p) ->
  Forall2 T s s' ->
  forall pid p, getPlayer s pid = Some p ->
  exists p', getPlayer s' pid = Some p' /\ T p p'.
Proof.
  intros Tid H. induction H as [|a a' s s' Ha _ IH]; intros pid p; simpl.
  - discriminate.
  - rewrite (Tid a a' Ha).
    destruct (String.eqb (id a) pid).
    + intros [= <-]. eauto.
    + apply IH.
Qed.

Lemma cutAll_killStep (player : Player) (prevPos currentPos : Point)
    (items : list Item) :
  forall g, Forall2 killStep g (cutAll player prevPos currentPos items g).
Proof.
  unfold cutAll. induction items as [|item rest IH]; intro g; simpl.
  - apply Forall2_T_refl, killStep_refl.
  - eapply Forall2_T_trans; [apply killStep_trans| |apply IH].
    apply cutForeignTrail_lift;
      [apply killStep_refl|intros; apply killStep_kill].
Qed.

Lemma cutAll_keeps_player (player : Player) (prevPos currentPos : Point)
    (items : list Item) :
  forall g, getPlayer g (id player) = Some player ->
            getPlayer (cutAll player prevPos currentPos items g) (id player)
            = Some player.
Proof.
  unfold cutAll. induction items as [|item rest IH]; intros g Hget; simpl.
  - exact Hget.
  - apply IH.
    apply (cutForeignTrail_lift killStep killStep_refl
             (fun v _ => killStep_kill v)); exact Hget.
Qed.

(** As long as no item is a self-collision the loop only cuts foreign
    trails. *)
Lemma collisionLoop_app (M : MathLib) (player : Player) (isInside : bool)
    (prevPos currentPos : Point) (pre rest : list Item) :
  (forall it, In it pre ->
     hitsOwnTrail M player isInside prevPos currentPos it = false) ->
  forall g,
    collisionLoop M player isInside prevPos currentPos (pre ++ rest) g
    = collisionLoop M player isInside prevPos currentPos rest
        (cutAll player prevPos currentPos pre g).
Proof.
  unfold cutAll. induction pre as [|item pre IH]; intros Hpre g; simpl.
  - reflexivity.
  - rewrite (Hpre item) by now left.
    apply IH. intros it Hit. apply Hpre. now right.
Qed.

Lemma collisionLoop_killStep (M : MathLib) (player : Player) (isInside : bool)
    (prevPos currentPos : Point) (nearby : list Item) :
  forall g, getPlayer g (id player) = Some player ->
    Forall2 killStep g
      (collisionLoop M player isInside prevPos currentPos nearby g).
Proof.
  induction nearby as [|item rest IH]; intros g Hget; simpl.
  - apply Forall2_T_refl, killStep_refl.
  - destruct (cutForeignTrail_lift killStep killStep_refl
                (fun v _ => killStep_kill v) player prevPos currentPos item g)
      as [H1 H2].
    specialize (H2 Hget).
    eapply Forall2_T_trans; [apply killStep_trans|exact H1|].
    destruct (hitsOwnTrail M player isInside prevPos currentPos item).
    + apply setPlayer_Forall2 with (p0 := player);
        [apply killStep_refl|exact H2|apply killStep_kill].
    + now apply IH.
Qed.

Lemma cutForeignTrail_territory (player : Player) (prevPos currentPos : Point)
    (item : Item) (g : GameState) :
  isTrailItem item = false ->
  cutForeignTrail player prevPos currentPos item g = g.
Proof.
  intro H. unfold cutForeignTrail. rewrite H. now rewrite andb_false_r.
Qed.

Lemma collisionLoop_filter (M : MathLib) (player : Player) (isInside : bool)
    (prevPos currentPos : Point) (nearby : list Item) :
  forall g,
    collisionLoop M player isInside prevPos currentPos (filter isTrailItem nearby) g
    = collisionLoop M player isInside prevPos currentPos nearby g.
Proof.
  induction nearby as [|item rest IH]; intro g; simpl; [reflexivity|].
  destruct (isTrailItem item) eqn:E; simpl.
  - destruct (hitsOwnTrail _ _ _ _ _ _); [reflexivity|apply IH].
  - rewrite cutForeignTrail_territory by exact E.
    destruct item; [discriminate|]. simpl. apply IH.
Qed.

(** When the collision loop runs: for a live player whose capture phases
    commit nothing, whose score is below the threshold and which is
    outside afterwards. *)
Lemma checkPlayer_collision (M : MathLib) (hash : SpatialHash) (s : GameState)
    (pid : string) (p0 p : Player) :
  getPlayer s pid = Some p0 -> isDead p0 = false ->
  capturePhase M p0 = Some (p, false) ->
  (winThreshold <=? score p) = false -> isOutside p = true ->
  checkPlayer M hash s pid
  = Some (collisionLoop M p
            (isPointInPolygon (currentPosOf p0) (territory p0))
            (prevPosOf p0) (currentPosOf p0)
            (query hash (posX p) (posY p)) (setPlayer s p)).
Proof.
  intros Hget Hdead Hcap Hscore Hout.
  unfold checkPlayer. now rewrite Hget, Hdead, Hcap, Hscore, Hout.
Qed.

(** C4 (as amended). In the collision loop of a moving player:
    (1) the owner of a foreign trail item whose segment the movement
    segment intersects is dead when the loop ends, provided the owner is
    in the map and outside, and the moving player has not hit its own
    trail at an earlier item; the loop does not stop there, so this holds
    for every such item;
    (2) if no item is a self-collision the moving player itself is left
    as it is, whatever foreign trails it cuts;
    (3) territory items play no part: the loop over the trail items alone
    gives the same result. *)
Theorem foreign_trail_cut (M : MathLib) (player : Player) (isInside : bool)
    (prevPos currentPos : Point) (nearby : list Item) (g : GameState) :
  (forall pre item post victim,
     nearby = pre ++ item :: post ->
     isTrailItem item = true ->
     itemPlayerId item <> id player ->
     segmentsIntersect prevPos currentPos (itemP1 item) (itemP2 item) = true ->
     getPlayer g (id player) = Some player ->
     getPlayer g (itemPlayerId item) = Some victim ->
     isOutside victim = true ->
     (forall it, In it pre ->
        hitsOwnTrail M player isInside prevPos currentPos it = false) ->
     exists victim',
       getPlayer (collisionLoop M player isInside prevPos currentPos nearby g)
         (itemPlayerId item) = Some victim' /\
       isDead victim' = true /\ trail victim' = []) /\
  ((forall it, In it nearby ->
      hitsOwnTrail M player isInside prevPos currentPos it = false) ->
   getPlayer g (id player) = Some player ->
   getPlayer (collisionLoop M player isInside prevPos currentPos nearby g)
     (id player) = Some player) /\
  collisionLoop M player isInside prevPos currentPos (filter isTrailItem nearby) g
  = collisionLoop M player isInside prevPos currentPos nearby g.
Proof.
  split; [|split].
  - intros pre item post victim -> Htrail Hforeign Hcross Hself Hvictim Hout Hpre.
    rewrite (collisionLoop_app M player isInside prevPos currentPos pre _ Hpre).
    set (g1 := cutAll player prevPos currentPos pre g).
    assert (Hself1 : getPlayer g1 (id player) = Some player)
      by now apply cutAll_keeps_player.
    destruct (getPlayer_Forall2 killStep g g1 (fun p q H => proj1 H)
                (cutAll_killStep player prevPos currentPos pre g)
                _ _ Hvictim) as (v1 & Hv1 & _ & Hout1 & _).
    rewrite Hout in Hout1.
    (* the item itself: the victim is killed *)
    simpl collisionLoop.
    set (g2 := cutForeignTrail player prevPos currentPos item g1).
    assert (Hg2 : g2 = setPlayer g1 (killPlayer v1)).
    { unfold g2, cutForeignTrail.
      apply String.eqb_neq in Hforeign.
      now rewrite Hforeign, Htrail, Hcross, Hv1, Hout1. }
    assert (Hid1 : id v1 = itemPlayerId item) by now apply getPlayer_In in Hv1.
    assert (Hv2 : getPlayer g2 (itemPlayerId item) = Some (killPlayer v1)).
    { rewrite Hg2, <- Hid1. apply (getPlayer_setPlayer_same g1 (killPlayer v1)). }
    assert (Hself2 : getPlayer g2 (id player) = Some player).
    { rewrite Hg2, getPlayer_setPlayer_other; [exact Hself1|].
      simpl. now rewrite Hid1. }
    (* the rest of the loop only kills *)
    assert (Hrest : Forall2 killStep g2
              (if hitsOwnTrail M player isInside prevPos currentPos item
               then setPlayer g2 (killPlayer player)
               else collisionLoop M player isInside prevPos currentPos post g2)).
    { destruct (hitsOwnTrail _ _ _ _ _ _).
      - apply setPlayer_Forall2 with (p0 := player);
          [apply killStep_refl|exact Hself2|apply killStep_kill].
      - now apply collisionLoop_killStep. }
    destruct (getPlayer_Forall2 killStep _ _ (fun p q H => proj1 H) Hrest
                _ _ Hv2) as (v' & Hv' & _ & _ & Hdead).
    exists v'. split; [exact Hv'|]. now apply Hdead.
  - intros Hnone Hself.
    rewrite <- (app_nil_r nearby).
    rewrite (collisionLoop_app M player isInside prevPos currentPos nearby [] Hnone).
    simpl. now apply cutAll_keeps_player.
  - apply collisionLoop_filter.
Qed.

(** ** The boundary walk terminates on the indices the room produces *)

Lemma rem_succ_range (i n : Z) :
  (0 <= i < n)%Z ->
  (Z.rem (i + 1) n = if (i + 1 <? n)%Z then i + 1 else 0)%Z.
Proof.
  intro H. destruct (i + 1 <? n)%Z eqn:E.
  - apply Z.ltb_lt in E. apply Z.rem_small. lia.
  - apply Z.ltb_ge in E. replace (i + 1)%Z with n by lia.
    apply Z.rem_same. lia.
Qed.

Lemma eba_loop_terminates (polygon : list Point) (target : Z) :
  (0 <= target < Z.of_nat (length polygon))%Z ->
  forall (d fuel : nat) (i : Z) (arc : list (option Point)),
    (0 <= i < Z.of_nat (length polygon))%Z ->
    (if (i <=? target)%Z then target - i
     else target - i + Z.of_nat (length polygon))%Z = Z.of_nat d ->
    (d <= fuel)%nat ->
    exists arc', eba_loop polygon target fuel i arc = Some arc'.
Proof.
  intro Ht. induction d as [|d IH]; intros fuel i arc Hi Hd Hfuel.
  - assert (i = target) by (destruct (i <=? target)%Z eqn:E;
      [apply Z.leb_le in E|apply Z.leb_gt in E]; lia).
    subst i. destruct fuel; simpl; rewrite Z.eqb_refl; eauto.
  - assert (Hne : (i =? target)%Z = false).
    { apply Z.eqb_neq. intros ->. rewrite Z.leb_refl in Hd. lia. }
    destruct fuel as [|fuel]; [lia|]. simpl. rewrite Hne.
    apply IH; [| |lia]; rewrite (rem_succ_range i _ Hi);
      destruct (i + 1 <? Z.of_nat (length polygon))%Z eqn:E;
      [apply Z.ltb_lt in E|apply Z.ltb_ge in E
      |apply Z.ltb_lt in E|apply Z.ltb_ge in E]; try lia.
    + destruct (i <=? target)%Z eqn:E1;
        [apply Z.leb_le in E1|apply Z.leb_gt in E1];
        (destruct (i + 1 <=? target)%Z eqn:E2;
         [apply Z.leb_le in E2|apply Z.leb_gt in E2]); lia.
    + destruct (i <=? target)%Z eqn:E1;
        [apply Z.leb_le in E1|apply Z.leb_gt in E1];
        (destruct (0 <=? target)%Z eqn:E2;
         [apply Z.leb_le in E2|apply Z.leb_gt in E2]); lia.
Qed.

Lemma rem_nonneg_range (a n : Z) :
  (0 <= a)%Z -> (0 < n)%Z -> (0 <= Z.rem a n < n)%Z.
Proof. intros Ha Hn. apply Z.rem_bound_pos; lia. Qed.

Lemma extractBoundaryArc_terminates (polygon : list Point) (s e : Z) :
  polygon <> [] -> (-1 <= s)%Z -> (-1 <= e)%Z ->
  exists arc, extractBoundaryArc polygon s e = Some arc.
Proof.
  intros Hne Hs He. unfold extractBoundaryArc.
  assert (Hn : (0 < Z.of_nat (length polygon))%Z)
    by (destruct polygon; [congruence|simpl; lia]).
  destruct (Z.of_nat (length polygon) =? 0)%Z eqn:E;
    [apply Z.eqb_eq in E; lia|]. clear E.
  pose proof (rem_nonneg_range (s + 1) _ ltac:(lia) Hn) as Hi.
  pose proof (rem_nonneg_range (e + 1) _ ltac:(lia) Hn) as Ht.
  set (i := Z.rem (s + 1) (Z.of_nat (length polygon))) in *.
  set (t := Z.rem (e + 1) (Z.of_nat (length polygon))) in *.
  apply eba_loop_terminates
    with (d := Z.to_nat (if (i <=? t)%Z then t - i
                         else t - i + Z.of_nat (length polygon))%Z);
    try assumption.
  - destruct (i <=? t)%Z eqn:E;
      [apply Z.leb_le in E|apply Z.leb_gt in E]; lia.
  - destruct (i <=? t)%Z eqn:E;
      [apply Z.leb_le in E|apply Z.leb_gt in E]; lia.
Qed.

(** The fuel of [extractBoundaryArc] is enough: a walk that has not met
    its target after [2n] steps never meets it, whatever the fuel. *)
Lemma eba_loop_stays (polygon : list Point) (target : Z) :
  ~ (0 <= target < Z.of_nat (length polygon))%Z ->
  forall (fuel : nat) (i : Z) (arc : list (option Point)),
    (0 <= i < Z.of_nat (length polygon))%Z ->
    eba_loop polygon target fuel i arc = None.
Proof.
  intro Ht. induction fuel as [|fuel IH]; intros i arc Hi; simpl;
    (destruct (i =? target)%Z eqn:E; [apply Z.eqb_eq in E; lia|]);
    [reflexivity|].
  apply IH. rewrite (rem_succ_range i _ Hi).
  destruct (i + 1 <? Z.of_nat (length polygon))%Z eqn:E1;
    [apply Z.ltb_lt in E1|apply Z.ltb_ge in E1]; lia.
Qed.

Lemma eba_loop_cycle_none (polygon : list Point) (target : Z)
    (fuel : nat) (i : Z) (arc : list (option Point)) :
  (0 <= i < Z.of_nat (length polygon))%Z ->
  (length polygon <= fuel)%nat ->
  eba_loop polygon target fuel i arc = None ->
  forall fuel' arc', eba_loop polygon target fuel' i arc' = None.
Proof.
  intros Hi Hfuel Hnone fuel' arc'.
  apply eba_loop_stays; [|exact Hi].
  intro Ht.
  destruct (eba_loop_terminates polygon target Ht
              (Z.to_nat (if (i <=? target)%Z then target - i
                         else target - i + Z.of_nat (length polygon))%Z)
              fuel i arc Hi) as [arc1 H1].
  - destruct (i <=? target)%Z eqn:E;
      [apply Z.leb_le in E|apply Z.leb_gt in E]; lia.
  - destruct (i <=? target)%Z eqn:E;
      [apply Z.leb_le in E|apply Z.leb_gt in E]; lia.
  - congruence.
Qed.

Lemma eba_loop_fuel_enough (polygon : list Point) (target : Z) :
  (0 < Z.of_nat (length polygon))%Z ->
  forall (m fuel : nat) (i : Z) (arc : list (option Point)),
    (- Z.of_nat m <= i < Z.of_nat (length polygon))%Z ->
    (- Z.of_nat (length polygon) < i)%Z ->
    (length polygon + m <= fuel)%nat ->
    eba_loop polygon target fuel i arc = None ->
    forall fuel' arc', eba_loop polygon target fuel' i arc' = None.
Proof.
  intro Hn.
  induction m as [|m IH]; intros fuel i arc Hi Hlow Hfuel Hnone fuel' arc'.
  - apply (eba_loop_cycle_none polygon target fuel i arc); [lia|lia|exact Hnone].
  - destruct (Z_lt_le_dec i 0) as [Hneg|Hpos].
    + destruct fuel as [|fuel]; [lia|]. simpl in Hnone.
      destruct (i =? target)%Z eqn:E; [discriminate|].
      assert (Hrem : Z.rem (i + 1) (Z.of_nat (length polygon)) = (i + 1)%Z).
      { destruct (Z.eq_dec (i + 1) 0) as [->|Hnz]; [apply Z.rem_0_l; lia|].
        rewrite <- (Z.opp_involutive (i + 1)).
        rewrite Z.rem_opp_l by lia. f_equal. apply Z.rem_small. lia. }
      rewrite Hrem in Hnone.
      destruct fuel' as [|fuel']; simpl; rewrite E; [reflexivity|].
      rewrite Hrem.
      apply (IH fuel (i + 1)%Z (arc ++ [aget polygon i]));
        [lia|lia|lia|exact Hnone].
    + apply (eba_loop_cycle_none polygon target fuel i arc); [lia|lia|exact Hnone].
Qed.

Lemma extractBoundaryArc_diverges (polygon : list Point) (s e : Z) :
  polygon <> [] ->
  extractBoundaryArc polygon s e = None ->
  forall fuel,
    eba_loop polygon (Z.rem (e + 1) (Z.of_nat (length polygon))) fuel
      (Z.rem (s + 1) (Z.of_nat (length polygon))) [] = None.
Proof.
  intros Hne. unfold extractBoundaryArc.
  assert (Hn : (0 < Z.of_nat (length polygon))%Z)
    by (destruct polygon; [congruence|simpl; lia]).
  destruct (Z.of_nat (length polygon) =? 0)%Z eqn:E;
    [apply Z.eqb_eq in E; lia|].
  intros Hnone fuel.
  apply (eba_loop_fuel_enough polygon _ Hn (length polygon) (2 * length polygon)
           _ []); [| |lia|exact Hnone];
    pose proof (Z.rem_bound_abs (s + 1) (Z.of_nat (length polygon)) ltac:(lia));
    lia.
Qed.

Lemma computeCapture_terminates (territory trail : list Point)
    (exitPt entryPt : Point) (exitIdx entryIdx : Z) :
  territory <> [] -> (-1 <= exitIdx)%Z -> (-1 <= entryIdx)%Z ->
  computeCapture territory trail exitPt exitIdx entryPt entryIdx <> Hangs.
Proof.
  intros Hne Hx He. unfold computeCapture.
  destruct (exitIdx =? entryIdx)%Z.
  - unfold pickLarger.
    destruct (definedPolygon _); [|discriminate].
    destruct (definedPolygon _); [|discriminate].
    destruct (_ <? _); discriminate.
  - destruct (extractBoundaryArc_terminates territory exitIdx entryIdx Hne Hx He)
      as [arcA ->].
    destruct (extractBoundaryArc_terminates territory entryIdx exitIdx Hne He Hx)
      as [arcB ->].
    destruct (definedPolygon _); [|discriminate].
    destruct (definedPolygon _); [|discriminate].
    destruct (_ <? _); discriminate.
Qed.

(** The same-edge case has no unbounded loop. *)
Lemma computeCapture_same_edge_terminates (territory trail : list Point)
    (exitPt entryPt : Point) (idx : Z) :
  computeCapture territory trail exitPt idx entryPt idx <> Hangs.
Proof.
  unfold computeCapture. rewrite Z.eqb_refl. unfold pickLarger.
  destruct (definedPolygon _); [|discriminate].
  destruct (definedPolygon _); [|discriminate].
  destruct (_ <? _); discriminate.
Qed.

Lemma isPointInPolygon_nil (pt : Point) : isPointInPolygon pt [] = false.
Proof. reflexivity. Qed.

Lemma entryHit_index_nonneg (M : MathLib) (p : Player) (a b : Point) :
  (0 <= edgeIndex (entryHit M p a b))%Z.
Proof.
  unfold entryHit.
  destruct (findBoundaryIntersection a b (territory p)) as [hit|] eqn:E;
    simpl; [|lia].
  unfold findBoundaryIntersection in E.
  revert E. generalize 0%nat (length (territory p)).
  intros i fuel. revert i. induction fuel as [|fuel IH]; intro i; simpl;
    [discriminate|].
  destruct (getSegmentIntersection _ _ _ _).
  - intros [= <-]. simpl. lia.
  - apply IH.
Qed.

(** ** The capture phases, case by case *)

(** Once the capture phases leave a player not outside, the rest of the
    loop body stores it, at most with the victory flag set. *)
Lemma checkPlayer_not_outside (M : MathLib) (hash : SpatialHash) (s : GameState)
    (pid : string) (p0 p : Player) (jc : bool) :
  getPlayer s pid = Some p0 -> isDead p0 = false ->
  capturePhase M p0 = Some (p, jc) -> isOutside p = false ->
  exists p',
    checkPlayer M hash s pid = Some (setPlayer s p') /\
    getPlayer (setPlayer s p') pid = Some p' /\
    (p' = p \/ (jc = false /\ p' = set_hasWon true p)).
Proof.
  intros Hget Hdead Hcap Hout.
  pose proof (capturePhase_identity M p0 p jc Hcap) as (Hid & _).
  apply getPlayer_In in Hget as Hin. destruct Hin as [_ Hpid].
  unfold checkPlayer. rewrite Hget, Hdead, Hcap.
  assert (Hp : getPlayer (setPlayer s p) pid = Some p).
  { rewrite <- Hpid, <- Hid. apply getPlayer_setPlayer_same. }
  destruct jc; [eauto|].
  destruct (winThreshold <=? score p).
  - unfold winBranch. destruct (hasWon p) eqn:Hw; simpl; rewrite Hout.
    + eauto.
    + exists (set_hasWon true p). split; [reflexivity|]. split; [|auto].
      rewrite <- Hpid, <- Hid. apply (getPlayer_setPlayer_same s (set_hasWon true p)).
  - rewrite Hout. eauto.
Qed.

(** The player the loop body stores is the one the capture phases made,
    at most with [hasWon] set: read its fields off. *)
Ltac stored_player H :=
  let p' := fresh "p'" in
  let Hc := fresh "Hc" in
  let Hg := fresh "Hg" in
  let Hp := fresh "Hp" in
  destruct H as (p' & Hc & Hg & Hp);
  eexists; exists p';
  split; [exact Hc|]; split; [exact Hg|];
  destruct Hp as [-> | [? ->]]; try discriminate; simpl; auto 10.



Lemma capturePhase_outside_not_inside (M : MathLib) (p0 : Player) :
  isOutside p0 = true ->
  isPointInPolygon (currentPosOf p0) (territory p0) = false ->
  capturePhase M p0 = loopClosureDetection M p0 false (currentPosOf p0) false.
Proof.
  intros Hout Hin.
  unfold capturePhase, exitDetection. rewrite Hout, Hin. simpl.
  unfold entryDetection. rewrite Hout. reflexivity.
Qed.

(** C3. A live player that is outside, not inside its territory, has an
    exit point and more than 10 trail points, and is less than 80 from the
    exit point: the pass completes for it and clears the trail state in
    every case.  The capture is computed with the exit point and exit
    edge as entry point and entry edge; the territory is replaced by the
    simplified capture only if the floor of its area is strictly above the
    old score, and otherwise territory and score are kept. *)
Theorem loop_closure_strict_growth (M : MathLib) (hash : SpatialHash)
    (s : GameState) (pid : string) (p0 : Player) (exitPt : Point) :
  getPlayer s pid = Some p0 ->
  isDead p0 = false ->
  isOutside p0 = true ->
  isPointInPolygon (currentPosOf p0) (territory p0) = false ->
  exitPoint p0 = Some exitPt ->
  (10 < length (trail p0))%nat ->
  (distanceTo M (currentPosOf p0) exitPt <? 80) = true ->
  exists s' p',
    checkPlayer M hash s pid = Some s' /\
    getPlayer s' pid = Some p' /\
    trail p' = [] /\ isOutside p' = false /\ exitPoint p' = None /\
    ((territory p' = territory p0 /\ score p' = score p0) \/
     (score p0 <? score p') = true) /\
    match computeCapture (territory p0) (trail p0) exitPt (exitEdgeIndex p0)
            exitPt (exitEdgeIndex p0) with
    | Returns capturedPoly =>
        let newTerritory := simplifyCapture capturedPoly in
        let newArea := Math_floor (calculateArea newTerritory) in
        if noNaNCoords newTerritory && (3 <? length newTerritory)%nat &&
           (score p0 <? newArea)
        then territory p' = newTerritory /\ score p' = newArea
        else territory p' = territory p0 /\ score p' = score p0
    | _ => territory p' = territory p0 /\ score p' = score p0
    end.
Proof.
  intros Hget Hdead Hout Hin Hexit Hlen Hnear.
  pose proof (capturePhase_outside_not_inside M p0 Hout Hin) as Hcap.
  unfold loopClosureDetection in Hcap.
  apply Nat.ltb_lt in Hlen.
  rewrite Hexit, Hout, Hlen, Hnear in Hcap. simpl in Hcap.
  pose proof (computeCapture_same_edge_terminates (territory p0) (trail p0)
                exitPt exitPt (exitEdgeIndex p0)) as Hterm.
  unfold tryLoopCapture in Hcap. cbv zeta.
  destruct (computeCapture _ _ _ _ _ _) as [poly| |]; [| |congruence].
  - destruct (noNaNCoords (simplifyCapture poly)); simpl in *;
      [destruct ((3 <? _)%nat && (score p0 <? _)) eqn:Hv; simpl|];
      stored_player (checkPlayer_not_outside M hash s pid p0 _ _ Hget Hdead Hcap
                       eq_refl).
    apply andb_true_iff in Hv. destruct Hv as [_ Hv]. repeat split; auto.
  - stored_player (checkPlayer_not_outside M hash s pid p0 _ _ Hget Hdead Hcap
                     eq_refl).
Qed.

(** ** What a commit guarantees *)

Lemma tryEntryCapture_commit (p p' : Player) (e : Point)
    (hit : BoundaryIntersection) :
  tryEntryCapture p e hit false = Returns (p', true) ->
  score p' = Math_floor (calculateArea (territory p')) /\
  (3 < length (territory p'))%nat /\
  (100 <? score p') = true /\ isFinite (score p') = true.
Proof.
  unfold tryEntryCapture.
  destruct (computeCapture _ _ _ _ _ _) as [poly| |]; try discriminate.
  destruct (negb _); try discriminate.
  destruct ((3 <? _)%nat && (100 <? _) && isFinite _) eqn:Hv;
    intro H; inversion H; subst; clear H. simpl.
  apply andb_true_iff in Hv. destruct Hv as [Hv Hfin].
  apply andb_true_iff in Hv. destruct Hv as [Hlen Harea].
  apply Nat.ltb_lt in Hlen. auto.
Qed.

Lemma tryLoopCapture_commit (p p' : Player) (e : Point) :
  tryLoopCapture p e false = Returns (p', true) ->
  score p' = Math_floor (calculateArea (territory p')) /\
  (3 < length (territory p'))%nat /\
  (score p <? score p') = true.
Proof.
  unfold tryLoopCapture.
  destruct (computeCapture _ _ _ _ _ _) as [poly| |]; try discriminate.
  destruct (negb _); try discriminate.
  destruct ((3 <? _)%nat && (score p <? _)) eqn:Hv;
    intro H; inversion H; subst; clear H. simpl.
  apply andb_true_iff in Hv. destruct Hv as [Hlen Harea].
  apply Nat.ltb_lt in Hlen. auto.
Qed.

(** C1 (as amended). When the capture phases of a player commit a
    capture, the new score is the floor of the area of the new territory,
    which has at least 4 vertices; for a loop closure in open space the
    new score is strictly above the old one, while for an entry-based
    capture it is only known to be finite and above 100. *)
Theorem capture_commit_area (M : MathLib) (p0 p' : Player) :
  capturePhase M p0 = Some (p', true) ->
  score p' = Math_floor (calculateArea (territory p')) /\
  (3 < length (territory p'))%nat /\
  (if isPointInPolygon (currentPosOf p0) (territory p0)
   then (100 <? score p') = true /\ isFinite (score p') = true
   else (score p0 <? score p') = true).
Proof.
  destruct (isPointInPolygon (currentPosOf p0) (territory p0)) eqn:Hin.
  - (* inside: only the entry branch can have committed *)
    destruct (isOutside p0) eqn:Hout;
      [|intro H; now apply capturePhase_not_outside in H].
    unfold capturePhase, exitDetection. rewrite Hin, Hout. simpl.
    unfold entryDetection. rewrite Hout. simpl.
    unfold loopClosureDetection.
    destruct (exitPoint p0) as [e|] eqn:He; [|rewrite He; discriminate].
    destruct (2 <? length (trail p0))%nat;
      [|rewrite He, Hout; discriminate].
    destruct (tryEntryCapture p0 e _ false) as [[q jq]| |] eqn:Hq;
      simpl; try discriminate.
    intro H. injection H as <- ->.
    apply tryEntryCapture_commit in Hq. simpl. tauto.
  - (* not inside: only the loop closure can have committed *)
    destruct (isOutside p0) eqn:Hout.
    + rewrite (capturePhase_outside_not_inside M p0 Hout Hin).
      unfold loopClosureDetection. rewrite Hout. simpl.
      destruct (exitPoint p0) as [e|]; [|discriminate].
      destruct (10 <? length (trail p0))%nat; [|discriminate].
      destruct (_ <? 80); [|discriminate].
      destruct (tryLoopCapture p0 e false) as [[q jq]| |] eqn:Hq;
        try discriminate.
      intro H. injection H as <- ->.
      apply tryLoopCapture_commit in Hq. simpl. tauto.
    + intro H. now apply capturePhase_not_outside in H.
Qed.

(** ** Victory *)

Lemma setPlayer_only (s : GameState) (q : Player) (pid : string) :
  pid <> id q -> getPlayer (setPlayer s q) pid = getPlayer s pid.
Proof. intro H. apply getPlayer_setPlayer_other. congruence. Qed.

(** The threshold of the code is below the one the specification names:
    a score that reaches [0.99 * pi * 2500^2] reaches [winThreshold]. *)
Lemma specWinThreshold_reaches (v : float) :
  (specWinThreshold <=? v) = true -> (winThreshold <=? v) = true.
Proof.
  rewrite !leb_spec.
  replace (Prim2SF specWinThreshold)
    with (S754_finite false 5218010674795625 (-28)) by (vm_compute; reflexivity).
  replace (Prim2SF winThreshold)
    with (S754_finite false 5213837101137496 (-28)) by (vm_compute; reflexivity).
  destruct (Prim2SF v) as [sv|sv| |sv mv ev]; unfold SFleb, SFcompare;
    try (intro; assumption).
  destruct sv; [intro; assumption|].
  destruct (Z.compare (-28) ev); try (intro; assumption).
  rewrite !Pos.compare_cont_spec. simpl Pos.switch_Eq.
  destruct (Pos.compare_spec 5218010674795625 mv) as [E|E|E];
    try (intro; discriminate); intros _.
  - subst mv. vm_compute. reflexivity.
  - destruct (Pos.compare_spec 5213837101137496 mv) as [F|F|F]; try reflexivity.
    exfalso. apply (Pos.lt_irrefl mv).
    apply Pos.lt_trans with (1 := F). apply Pos.lt_trans with (2 := E).
    vm_compute. reflexivity.
Qed.

(** C2 (as amended). A live player whose capture phases commit no capture
    in this pass and whose score is at least
    [winThreshold = 0.99 * pi * 2499^2] (so in particular every score of
    at least [0.99 * pi * 2500^2]) leaves the pass with [hasWon] set, not
    outside, with an empty trail if it was outside, still alive; no
    collision is examined for it, so every other player of the map is left
    as it was. *)
Theorem victory_latch (M : MathLib) (hash : SpatialHash) (s : GameState)
    (pid : string) (p0 p : Player) :
  getPlayer s pid = Some p0 ->
  isDead p0 = false ->
  capturePhase M p0 = Some (p, false) ->
  (winThreshold <=? score p) = true ->
  winThreshold = Math_PI * 2499 * 2499 * 0x1.fae147ae147aep-1 /\
  (forall v, (specWinThreshold <=? v) = true -> (winThreshold <=? v) = true) /\
  exists s' p',
    checkPlayer M hash s pid = Some s' /\
    getPlayer s' pid = Some p' /\
    hasWon p' = true /\ isOutside p' = false /\ isDead p' = false /\
    trail p' = (if isOutside p then [] else trail p) /\
    (forall other, other <> pid -> getPlayer s' other = getPlayer s other).
Proof.
  intros Hget Hdead Hcap Hscore.
  split; [reflexivity|]. split; [exact specWinThreshold_reaches|].
  pose proof (capturePhase_identity M p0 p false Hcap) as (Hid & Hd & _).
  apply getPlayer_In in Hget as Hin. destruct Hin as [_ Hpid].
  destruct (winBranch_facts p) as (Wid & Wd & Ww & Wo & _ & _ & Wt & _).
  exists (setPlayer s (winBranch p)), (winBranch p).
  split; [|split; [|repeat split]].
  - unfold checkPlayer. now rewrite Hget, Hdead, Hcap, Hscore.
  - rewrite <- Hpid, <- Hid, <- Wid. apply getPlayer_setPlayer_same.
  - exact Ww.
  - exact Wo.
  - congruence.
  - exact Wt.
  - intros other Hother. apply setPlayer_only. congruence.
Qed.

(** ** Steering (GameState.updatePlayerMovement) *)

Lemma wrapDown_exit (fuel : nat) :
  forall d d', wrapDown fuel d = Some d' -> (Math_PI <? d') = false.
Proof.
  induction fuel as [|fuel IH]; intros d d'; simpl;
    destruct (Math_PI <? d) eqn:E; try discriminate.
  - now intros [= <-].
  - apply IH.
  - now intros [= <-].
Qed.

(** C8 (as amended). The movement update brings the heading back into
    the range of [atan2] before it steers, not after: the new heading is
    [atan2(sin a, cos a) + angleDiff * PLAYER_TURN_SPEED * dt], where
    [angleDiff] is the wrapped difference to the target and is not above
    pi.  Nothing bounds the sum by pi. *)
Theorem steering_angle (M : MathLib) (fuel : nat) (p p' : Player) (dt : float) :
  updatePlayerMovement M fuel p dt = Some p' ->
  exists angleDiff,
    normalizeDiff fuel
      (targetAngle p - Math_atan2 M (Math_sin M (angle p)) (Math_cos M (angle p)))
    = Some angleDiff /\
    (Math_PI <? angleDiff) = false /\
    angle p' = Math_atan2 M (Math_sin M (angle p)) (Math_cos M (angle p))
               + angleDiff * PLAYER_TURN_SPEED * dt.
Proof.
  unfold updatePlayerMovement.
  destruct (normalizeDiff _ _) as [d|] eqn:Hd; [|discriminate].
  intros [= <-]. exists d. split; [reflexivity|]. split; [|reflexivity].
  unfold normalizeDiff in Hd.
  destruct (wrapUp fuel _); [|discriminate].
  now apply wrapDown_exit in Hd.
Qed.

(** C8, an instance: the player that turns across the cut at pi in a frame
    of 17 ms. *)
Lemma steering_angle_witness :
  exists angleDiff,
    normalizeDiff 8
      (targetAngle wrappingPlayer
       - RefMath.atan2 (RefMath.sin (angle wrappingPlayer))
           (RefMath.cos (angle wrappingPlayer)))
    = Some angleDiff /\
    (Math_PI <? angleDiff) = false /\
    angle (movedOf wrappingPlayer (17 / 1000))
    = RefMath.atan2 (RefMath.sin (angle wrappingPlayer))
        (RefMath.cos (angle wrappingPlayer))
      + angleDiff * PLAYER_TURN_SPEED * (17 / 1000).
Proof.
  apply (steering_angle RefMath.lib 8 wrappingPlayer
           (movedOf wrappingPlayer (17 / 1000)) (17 / 1000)).
  vm_compute. reflexivity.
Defined.

(** The overshoot does not depend on the Math library: ECMAScript fixes
    [sin(0)], [cos(0)] and [atan2(0, 1)], and a player created with
    heading 0 that steers towards 3 radians for 100 ms ends at 3.6. *)
Lemma steering_overshoot_any_math (M : MathLib) (p : Player) :
  Math_sin M 0 = 0 -> Math_cos M 0 = 1 -> Math_atan2 M 0 1 = 0 ->
  angle p = 0 -> targetAngle p = 3 ->
  exists p', updatePlayerMovement M 1 p 0.1 = Some p' /\
             (Math_PI <? angle p') = true.
Proof.
  intros Hsin Hcos Hatan Ha Ht.
  unfold updatePlayerMovement. rewrite Ha, Ht, Hsin, Hcos, Hatan.
  eexists. split; [reflexivity|].
  unfold moveWithDiff. simpl. rewrite Ha, Hsin, Hcos, Hatan.
  vm_compute. reflexivity.
Qed.

(** C8, the claim as stated fails: at the end of a tick the heading is
    above pi, both after a frame of 100 ms from heading 0 towards 3
    radians (3.6) and after a frame of 17 ms from 3.140625 towards -3
    radians, across the cut at pi (3.1697). *)
Lemma steering_angle_counterexample :
  (0 <? 17 / 1000) = true /\
  option_map (map (fun p => (isDead p, Math_PI <? angle p)))
    (tick RefMath.lib 8 0.1 [steeringPlayer]) = Some [(false, true)] /\
  option_map (map (fun p => (isDead p, Math_PI <? angle p)))
    (tick RefMath.lib 8 (17 / 1000) [wrappingPlayer]) = Some [(false, true)].
Proof. repeat apply conj; vm_compute; reflexivity. Qed.

(** ** The seed territory (GameState.createPlayer) *)

(** C9 (as amended). Every call of [createPlayer] at [(2500, 2500)],
    whatever the id, the colour and the players already in the map, gives
    a territory of exactly 32 vertices, each within 1e-9 of distance 155
    (= 300/2 + 5) from [(2500, 2500)], and the score 74992: the floor of
    the shoelace area of that 32-gon, which lies between 74992 and 74993.
    The score is more than one below 75477.  The sine and cosine are the
    ones of [RefMath]. *)
Theorem seed_territory (players : GameState) (pid : string) (pcolor : string) :
  let p := fst (createPlayer RefMath.lib players pid 2500 2500 pcolor) in
  getPlayer (snd (createPlayer RefMath.lib players pid 2500 2500 pcolor)) pid
  = Some p /\
  length (territory p) = 32%nat /\
  STARTING_TERRITORY_SIZE / 2 + 5 = 155 /\
  forallb (fun v => Math_abs (distanceFrom 2500 2500 v - 155) <? 1e-9)
    (territory p) = true /\
  score p = Math_floor (getPolygonArea (territory p)) /\
  (74992 <? getPolygonArea (territory p)) = true /\
  (getPolygonArea (territory p) <? 74993) = true /\
  score p = 74992 /\
  (score p <? 75477 - 1) = true.
Proof.
  cbv zeta. unfold createPlayer. cbn [fst snd]. split.
  - set (q := newPlayer RefMath.lib pid 2500 2500 pcolor).
    assert (Hid : id q = pid) by reflexivity. clearbody q. subst pid.
    unfold getPlayer. induction players as [|a rest IH]; simpl.
    + now rewrite String.eqb_refl.
    + destruct (String.eqb (id a) (id q)) eqn:E; simpl.
      * now rewrite String.eqb_refl.
      * now rewrite E.
  - repeat apply conj; vm_compute; reflexivity.
Qed.

(** C9, the claim as stated fails: the initial score is 74992, more than
    one away from 75477. *)
Lemma seed_territory_counterexample :
  let p := fst (createPlayer RefMath.lib newGameState "p" 2500 2500 "#FF6B6B") in
  score p = 74992 /\ (score p <? 75477 - 1) = true.
Proof. repeat apply conj; vm_compute; reflexivity. Qed.

(** ** The statements on concrete situations *)

(** C1, the claim as stated fails: ["A"] left its right edge at
    [(1200,1150)] and re-enters it behind that point, at [(1200,1050)].
    The capture is committed, and the territory shrinks from area 40000
    to area 35000. *)
Lemma capture_commit_area_counterexample :
  capturePhase RefMath.lib backwardA = Some (capturedOf backwardA, true) /\
  isPointInPolygon (currentPosOf backwardA) (territory backwardA) = true /\
  score backwardA = Math_floor (calculateArea (territory backwardA)) /\
  calculateArea (territory backwardA) = 40000 /\
  calculateArea (territory (capturedOf backwardA)) = 35000 /\
  score (capturedOf backwardA) = 35000 /\
  option_map (map score) (checkCaptureAndCollisions RefMath.lib [backwardA])
  = Some [35000].
Proof. repeat apply conj; vm_compute; reflexivity. Qed.

(** C1, an instance: the entry-based commit of [backwardA]. *)
Lemma capture_commit_area_witness :
  score (capturedOf backwardA)
  = Math_floor (calculateArea (territory (capturedOf backwardA))) /\
  (3 < length (territory (capturedOf backwardA)))%nat /\
  (if isPointInPolygon (currentPosOf backwardA) (territory backwardA)
   then (100 <? score (capturedOf backwardA)) = true /\
        isFinite (score (capturedOf backwardA)) = true
   else (score backwardA <? score (capturedOf backwardA)) = true).
Proof.
  apply (capture_commit_area RefMath.lib backwardA (capturedOf backwardA)).
  vm_compute. reflexivity.
Defined.

(** C2, the claim as stated fails: [lapPlayer] comes home from a lap of
    the arena, the capture is committed and the score, 19575595, is above
    both the threshold of the code and that of the specification; the
    pass ends with [hasWon] still false.  The next pass sets it. *)
Lemma victory_latch_counterexample :
  checkCaptureAndCollisions RefMath.lib [lapPlayer] = Some lapAfter /\
  map isDead lapAfter = [false] /\
  map score lapAfter = [19575595] /\
  (specWinThreshold <=? 19575595) = true /\
  (winThreshold <=? 19575595) = true /\
  map hasWon lapAfter = [false] /\
  option_map (map hasWon) (checkCaptureAndCollisions RefMath.lib lapAfter)
  = Some [true].
Proof. repeat apply conj; vm_compute; reflexivity. Qed.

(** C2, an instance: the pass after the one in which [lapPlayer] came
    home. *)
Lemma victory_latch_witness :
  winThreshold = Math_PI * 2499 * 2499 * 0x1.fae147ae147aep-1 /\
  (forall v, (specWinThreshold <=? v) = true -> (winThreshold <=? v) = true) /\
  exists s' p',
    checkPlayer RefMath.lib emptyHash lapAfter "W" = Some s' /\
    getPlayer s' "W" = Some p' /\
    hasWon p' = true /\ isOutside p' = false /\ isDead p' = false /\
    trail p' = (if isOutside (capturedOf lapPlayer) then []
                else trail (capturedOf lapPlayer)) /\
    (forall other, other <> "W"%string ->
                   getPlayer s' other = getPlayer lapAfter other).
Proof.
  apply (victory_latch RefMath.lib emptyHash lapAfter "W"
           (capturedOf lapPlayer) (capturedOf lapPlayer));
    vm_compute; reflexivity.
Defined.

(** C3, an instance: [loopCloser] closes its loop 41 units from the exit
    point and grows from 40000 to 45000. *)
Lemma loop_closure_strict_growth_witness :
  exists s' p',
    checkPlayer RefMath.lib emptyHash [loopCloser] "L" = Some s' /\
    getPlayer s' "L" = Some p' /\
    trail p' = [] /\ isOutside p' = false /\ exitPoint p' = None /\
    ((territory p' = territory loopCloser /\ score p' = score loopCloser) \/
     (score loopCloser <? score p') = true) /\
    match computeCapture (territory loopCloser) (trail loopCloser)
            (mkPoint 1200 1100) (exitEdgeIndex loopCloser)
            (mkPoint 1200 1100) (exitEdgeIndex loopCloser) with
    | Returns capturedPoly =>
        let newTerritory := simplifyCapture capturedPoly in
        let newArea := Math_floor (calculateArea newTerritory) in
        if noNaNCoords newTerritory && (3 <? length newTerritory)%nat &&
           (score loopCloser <? newArea)
        then territory p' = newTerritory /\ score p' = newArea
        else territory p' = territory loopCloser /\ score p' = score loopCloser
    | _ => territory p' = territory loopCloser /\ score p' = score loopCloser
    end.
Proof.
  apply (loop_closure_strict_growth RefMath.lib emptyHash [loopCloser] "L"
           loopCloser (mkPoint 1200 1100));
    try (vm_compute; reflexivity).
  vm_compute. lia.
Defined.

(** C4, the claim as stated fails: in [homecomingState] the movement
    segment of ["B"] crosses the first segment of the trail of ["A"], both
    are alive and ["B"] is outside; ["A"], which comes first in the map,
    re-enters its territory in the same pass, and is alive at the end of
    it.  (With ["B"] first in the map, ["A"] is killed.) *)
Lemma foreign_trail_cut_counterexample :
  map id homecomingState = ["A"; "B"]%string /\
  map isDead homecomingState = [false; false] /\
  isOutside crosserB = true /\
  firstn 2 (trail homecomerA) = [mkPoint 1200 1100; mkPoint 1250 1100] /\
  segmentsIntersect (prevPosOf crosserB) (currentPosOf crosserB)
    (mkPoint 1200 1100) (mkPoint 1250 1100) = true /\
  option_map (map isDead) (checkCaptureAndCollisions RefMath.lib homecomingState)
  = Some [false; false] /\
  option_map (map isDead)
    (checkCaptureAndCollisions RefMath.lib [crosserB; homecomerA])
  = Some [false; true].
Proof. repeat apply conj; vm_compute; reflexivity. Qed.

(** C4, an instance: in [crossingState] the tenth item the query returns
    for ["B"] is a segment of the trail of ["A"] that ["B"] crosses, and
    ["A"] is dead when the loop ends. *)
Lemma foreign_trail_cut_witness :
  exists victim',
    getPlayer
      (collisionLoop RefMath.lib crosserB false (prevPosOf crosserB)
         (currentPosOf crosserB) crossingNearby (setPlayer crossingState crosserB))
      "A" = Some victim' /\
    isDead victim' = true /\ trail victim' = [].
Proof.
  apply (proj1 (foreign_trail_cut RefMath.lib crosserB false (prevPosOf crosserB)
                  (currentPosOf crosserB) crossingNearby
                  (setPlayer crossingState crosserB))
           crossingBefore crossedItem crossingBehind walkerA);
    try (vm_compute; reflexivity).
  - vm_compute. discriminate.
  - intros it Hit. vm_compute in Hit.
    repeat (destruct Hit as [<- | Hit]; [vm_compute; reflexivity|]).
    destruct Hit.
Defined.


(** The run [winningRun] from the empty map returns, and the player it
    leaves is a winner that is alive; its score is above [winThreshold],
    which is 19423056.77. *)
Lemma winningRun_wins :
  option_map (map (fun p => (id p, hasWon p, isDead p, score p)))
    (run RefMath.lib 8 winningRun newGameState)
  = Some [("W"%string, true, false, 19591388)].
Proof. vm_compute. reflexivity. Qed.

Lemma winningRun_reaches :
  run RefMath.lib 8 winningRun newGameState = Some winnerState.
Proof.
  pose proof winningRun_wins as H. unfold winnerState.
  destruct (run RefMath.lib 8 winningRun newGameState); [reflexivity|discriminate].
Qed.

Lemma winnerState_won :
  map (fun p => (id p, hasWon p, isDead p, score p)) winnerState
  = [("W"%string, true, false, 19591388)].
Proof.
  pose proof winningRun_wins as H. unfold winnerState.
  destruct (run RefMath.lib 8 winningRun newGameState); [|discriminate].
  now injection H.
Qed.

(** C6, an instance: the state at the end of [winningRun], reached from
    the empty map, in which the player ["W"] has won. *)
Lemma won_player_never_dies_witness :
  map (fun p => (id p, hasWon p, isDead p, score p)) winnerState
  = [("W"%string, true, false, 19591388)] /\
  Forall (fun p => hasWon p = true -> isDead p = false) winnerState /\
  (forall later s',
     forallb keepsPlayers later = true ->
     run RefMath.lib 8 later winnerState = Some s' ->
     Forall2 (fun p p' => id p' = id p /\
                (hasWon p = true -> hasWon p' = true /\ isDead p' = false))
             winnerState s').
Proof.
  split; [exact winnerState_won|].
  apply (won_player_never_dies RefMath.lib 8 winningRun winnerState).
  exact winningRun_reaches.
Defined.

(** C7, an instance: the point [(1/3, 1)] and a quadrilateral around it.
    The crossing test of each of its four edges is the same in both
    directions; that of its diagonal [(0,0)-(1,3)] is not. *)
Lemma isPointInPolygon_rotation_reversal_witness :
  isPointInPolygon roundingPoint (rev roundingQuad)
  = isPointInPolygon roundingPoint roundingQuad.
Proof.
  apply (proj2 (isPointInPolygon_rotation_reversal roundingPoint roundingQuad)).
  intros u v Hin. vm_compute in Hin.
  repeat (destruct Hin as [Hin|Hin];
          [injection Hin as <- <-; vm_compute; reflexivity|]).
  destruct Hin.
Defined.

(** C10, an instance: the pass on [crossingState], in which ["A"] dies. *)
Lemma death_only_outside_witness :
  Forall2
    (fun p p' =>
       id p' = id p /\
       (isDead p = false -> isDead p' = true -> isOutside p' = true) /\
       (isDead p = false -> isOutside p = false ->
        isPointInPolygon (currentPosOf p) (territory p) = true ->
        isDead p' = false))
    crossingState crossingAfter.
Proof.
  apply (death_only_outside RefMath.lib crossingState crossingAfter).
  vm_compute. reflexivity.
Defined.

(** In [crossingState] the owner of the crossed trail dies and the
    crosser lives (scenario 4 of the specification). *)
Example crossing_kills_owner :
  map (fun p => (id p, isDead p, trail p)) crossingAfter
  = [("A"%string, true, []); ("B"%string, false, trail crosserB)].
Proof. vm_compute. reflexivity. Qed.

(** A winner stays a winner and stays alive (scenario 6 of the
    specification): the winner of [winningRun] through another pass, an
    input, a movement update and a pass. *)
Example winner_stays_alive :
  option_map (map (fun p => (hasWon p, isDead p, isOutside p)))
    (run RefMath.lib 8 (winningRun ++ afterVictory) newGameState)
  = Some [(true, false, false)].
Proof. vm_compute. reflexivity. Qed.

(** * Further properties of the code *)

(** ** Numbers: NaN and the numerals of cell keys *)

Lemma SFcompare_Eq_numeral (f g : spec_float) :
  SFcompare f g = Some Eq <-> (numeral f = numeral g /\ f <> S754_nan).
Proof.
  destruct f as [s1|s1| |s1 m1 e1], g as [s2|s2| |s2 m2 e2]; simpl;
    try destruct s1; try destruct s2;
    try (split;
         [intro H; first [discriminate|split; [reflexivity|discriminate]]
         |intros [H1 H2];
          first [discriminate|reflexivity|now elim H2]]; fail).
  - destruct (Z.compare_spec e1 e2) as [He|He|He].
    + subst e2. split.
      * intro H. injection H as H.
        destruct (Pos.compare_cont Eq m1 m2) eqn:Hm; try discriminate.
        apply Pcompare_Eq_eq in Hm. subst. split; [reflexivity|discriminate].
      * intros [H _]. injection H as ->. now rewrite Pcompare_refl.
    + split; [discriminate|]. intros [H _]. injection H as _ ->. lia.
    + split; [discriminate|]. intros [H _]. injection H as _ ->. lia.
  - destruct (Z.compare_spec e1 e2) as [He|He|He].
    + subst e2. split.
      * intro H. injection H as H. apply Pcompare_Eq_eq in H. subst.
        split; [reflexivity|discriminate].
      * intros [H _]. injection H as ->. now rewrite Pcompare_refl.
    + split; [discriminate|]. intros [H _]. injection H as _ ->. lia.
    + split; [discriminate|]. intros [H _]. injection H as _ ->. lia.
Qed.

Lemma isNaN_spec (v : float) : isNaN v = true <-> Prim2SF v = S754_nan.
Proof.
  unfold isNaN. rewrite FloatAxioms.eqb_spec. unfold SFeqb.
  destruct (SFcompare (Prim2SF v) (Prim2SF v)) as [[| |]|] eqn:E; simpl.
  - apply SFcompare_Eq_numeral in E. split; [discriminate|]. intro H. now elim (proj2 E).
  - split; [intros _|reflexivity].
    destruct (Prim2SF v) as [s|s| |s m e]; simpl in E; try discriminate;
      try reflexivity.
    + destruct s; discriminate.
    + destruct s; rewrite Z.compare_refl, Pcompare_refl in E; discriminate.
  - split; [intros _|reflexivity].
    destruct (Prim2SF v) as [s|s| |s m e]; simpl in E; try discriminate;
      try reflexivity.
    + destruct s; discriminate.
    + destruct s; rewrite Z.compare_refl, Pcompare_refl in E; discriminate.
  - split; [intros _|reflexivity].
    destruct (Prim2SF v) as [s|s| |s m e]; simpl in E; try discriminate;
      reflexivity.
Qed.

(** No comparison with NaN holds. *)
Lemma ltb_nan_l (v w : float) : isNaN v = true -> (v <? w) = false.
Proof.
  intro H. apply isNaN_spec in H. rewrite ltb_spec, H. reflexivity.
Qed.

Lemma ltb_nan_r (v w : float) : isNaN w = true -> (v <? w) = false.
Proof.
  intro H. apply isNaN_spec in H. rewrite ltb_spec, H. unfold SFltb.
  now destruct (Prim2SF v).
Qed.

(** Two numbers have the same numeral when their values agree. *)
Lemma sameNumeral_spec (a b : float) :
  sameNumeral a b = true <-> numeral (Prim2SF a) = numeral (Prim2SF b).
Proof.
  unfold sameNumeral. rewrite orb_true_iff, andb_true_iff, !isNaN_spec.
  rewrite FloatAxioms.eqb_spec. unfold SFeqb. split.
  - intros [H|[Ha Hb]].
    + destruct (SFcompare (Prim2SF a) (Prim2SF b)) as [[| |]|] eqn:E;
        try discriminate.
      now apply SFcompare_Eq_numeral in E.
    + now rewrite Ha, Hb.
  - intro H.
    destruct (Prim2SF a) as [s|s| |s m e] eqn:Ea;
      try (left;
           replace (SFcompare _ (Prim2SF b)) with (Some Eq);
           [reflexivity|symmetry; apply SFcompare_Eq_numeral;
                         split; [exact H|discriminate]]).
    right. split; [reflexivity|].
    destruct (Prim2SF b); simpl in H; try discriminate; reflexivity.
Qed.


(** ** geometry.ts: the boundary search *)

Lemma fbi_loop_first (p1 p2 : Point) (polygon : list Point) :
  forall (fuel i : nat),
    (forall j, (j < i)%nat -> edgeHit p1 p2 polygon j = None) ->
    match fbi_loop p1 p2 polygon fuel i with
    | Some hit =>
        exists k, (i <= k < i + fuel)%nat /\
          edgeIndex hit = Z.of_nat k /\
          edgeHit p1 p2 polygon k = Some (point hit) /\
          forall j, (j < k)%nat -> edgeHit p1 p2 polygon j = None
    | None => forall j, (j < i + fuel)%nat -> edgeHit p1 p2 polygon j = None
    end.
Proof.
  induction fuel as [|fuel IH]; intros i Hlow; simpl.
  - intros j Hj. apply Hlow. lia.
  - destruct (getSegmentIntersection p1 p2 (nth i polygon origin)
                (nth ((i + 1) mod length polygon) polygon origin))
      as [pt|] eqn:E.
    + exists i. simpl. repeat apply conj; try lia; auto.
    + specialize (IH (S i)).
      assert (Hlow' : forall j, (j < S i)%nat -> edgeHit p1 p2 polygon j = None).
      { intros j Hj. destruct (Nat.eq_dec j i) as [->|Hne]; [exact E|].
        apply Hlow. lia. }
      specialize (IH Hlow').
      destruct (fbi_loop p1 p2 polygon fuel (S i)) as [hit|].
      * destruct IH as (k & Hk & H1 & H2 & H3). exists k.
        repeat apply conj; try lia; auto.
      * intros j Hj. apply IH. lia.
Qed.

(** X1. [findBoundaryIntersection] reports the edge of lowest index that
    the segment meets, with the intersection point of that edge; it
    reports nothing exactly when the segment meets no edge. *)
Theorem findBoundaryIntersection_first_hit (p1 p2 : Point) (polygon : list Point) :
  match findBoundaryIntersection p1 p2 polygon with
  | Some hit =>
      exists k, (k < length polygon)%nat /\
        edgeIndex hit = Z.of_nat k /\
        edgeHit p1 p2 polygon k = Some (point hit) /\
        forall j, (j < k)%nat -> edgeHit p1 p2 polygon j = None
  | None => forall j, (j < length polygon)%nat -> edgeHit p1 p2 polygon j = None
  end.
Proof.
  unfold findBoundaryIntersection.
  pose proof (fbi_loop_first p1 p2 polygon (length polygon) 0) as H.
  assert (H0 : forall j, (j < 0)%nat -> edgeHit p1 p2 polygon j = None)
    by (intros j Hj; lia).
  specialize (H H0).
  destruct (fbi_loop p1 p2 polygon (length polygon) 0) as [hit|].
  - destruct H as (k & Hk & H1 & H2 & H3). exists k.
    repeat apply conj; try lia; auto.
  - exact H.
Qed.

(** ** geometry.ts: the boundary walk *)

Lemma skipn_cons_nth (l : list Point) (i : nat) :
  (i < length l)%nat -> skipn i l = nth i l origin :: skipn (S i) l.
Proof.
  revert i. induction l as [|a l IH]; intros i Hi; simpl in Hi; [lia|].
  destruct i as [|i]; [reflexivity|].
  simpl. apply IH. lia.
Qed.

Lemma cyclicSlice_step (polygon : list Point) (i d : nat) :
  (i < length polygon)%nat -> (d < length polygon)%nat ->
  cyclicSlice polygon i (S d)
  = nth i polygon origin
      :: cyclicSlice polygon (if (S i <? length polygon)%nat then S i else 0) d.
Proof.
  intros Hi Hd. unfold cyclicSlice.
  rewrite (skipn_cons_nth (polygon ++ polygon) i)
    by (rewrite length_app; lia).
  rewrite firstn_cons, app_nth1 by exact Hi. f_equal.
  destruct (S i <? length polygon)%nat eqn:E; [reflexivity|].
  apply Nat.ltb_ge in E. assert (S i = length polygon) as -> by lia.
  rewrite skipn_app, skipn_all, Nat.sub_diag.
  change (skipn 0 polygon) with polygon.
  change (skipn 0 (polygon ++ polygon)) with (polygon ++ polygon).
  rewrite app_nil_l, firstn_app.
  replace (d - length polygon)%nat with 0%nat by lia.
  simpl. now rewrite app_nil_r.
Qed.

Lemma aget_nth (polygon : list Point) (i : Z) :
  (0 <= i < Z.of_nat (length polygon))%Z ->
  aget polygon i = Some (nth (Z.to_nat i) polygon origin).
Proof.
  intro Hi. unfold aget.
  destruct (i <? 0)%Z eqn:E; [apply Z.ltb_lt in E; lia|].
  apply nth_error_nth'. lia.
Qed.

(** The distance the walk has to cover from [i] to [target]. *)
Lemma eba_loop_slice (polygon : list Point) (target : Z) :
  (0 <= target < Z.of_nat (length polygon))%Z ->
  forall (d fuel : nat) (i : Z) (arc : list (option Point)),
    (0 <= i < Z.of_nat (length polygon))%Z ->
    (if (i <=? target)%Z then target - i
     else target - i + Z.of_nat (length polygon))%Z = Z.of_nat d ->
    (d <= fuel)%nat ->
    eba_loop polygon target fuel i arc
    = Some (arc ++ map Some (cyclicSlice polygon (Z.to_nat i) d)).
Proof.
  intro Ht. induction d as [|d IH]; intros fuel i arc Hi Hd Hfuel.
  - assert (i = target) by (destruct (i <=? target)%Z eqn:E;
      [apply Z.leb_le in E|apply Z.leb_gt in E]; lia).
    subst i. unfold cyclicSlice. simpl. rewrite app_nil_r.
    destruct fuel; simpl; rewrite Z.eqb_refl; reflexivity.
  - assert (Hne : (i =? target)%Z = false).
    { apply Z.eqb_neq. intros ->. rewrite Z.leb_refl in Hd. lia. }
    assert (Hdn : (S d < length polygon)%nat).
    { destruct (i <=? target)%Z eqn:E;
        [apply Z.leb_le in E|apply Z.leb_gt in E]; lia. }
    destruct fuel as [|fuel]; [lia|]. simpl. rewrite Hne.
    rewrite (rem_succ_range i _ Hi).
    rewrite (aget_nth polygon i Hi).
    rewrite cyclicSlice_step by lia.
    assert (Hnext : (if (i + 1 <? Z.of_nat (length polygon))%Z then i + 1 else 0)%Z
                    = Z.of_nat (if (S (Z.to_nat i) <? length polygon)%nat
                                then S (Z.to_nat i) else 0)).
    { destruct (i + 1 <? Z.of_nat (length polygon))%Z eqn:E1;
        [apply Z.ltb_lt in E1|apply Z.ltb_ge in E1];
        (destruct (S (Z.to_nat i) <? length polygon)%nat eqn:E2;
         [apply Nat.ltb_lt in E2|apply Nat.ltb_ge in E2]); lia. }
    rewrite Hnext.
    rewrite IH.
    + rewrite Nat2Z.id. rewrite <- app_assoc. reflexivity.
    + rewrite <- Hnext.
      destruct (i + 1 <? Z.of_nat (length polygon))%Z eqn:E1;
        [apply Z.ltb_lt in E1|apply Z.ltb_ge in E1]; lia.
    + rewrite <- Hnext.
      destruct (i + 1 <? Z.of_nat (length polygon))%Z eqn:E1;
        [apply Z.ltb_lt in E1|apply Z.ltb_ge in E1].
      * destruct (i <=? target)%Z eqn:E2;
          [apply Z.leb_le in E2|apply Z.leb_gt in E2];
          (destruct (i + 1 <=? target)%Z eqn:E3;
           [apply Z.leb_le in E3|apply Z.leb_gt in E3]); lia.
      * destruct (i <=? target)%Z eqn:E2;
          [apply Z.leb_le in E2|apply Z.leb_gt in E2];
          (destruct (0 <=? target)%Z eqn:E3;
           [apply Z.leb_le in E3|apply Z.leb_gt in E3]); lia.
    + lia.
Qed.

Lemma rem_mod_nonneg (a n : Z) :
  (0 <= a)%Z -> (0 < n)%Z -> Z.rem a n = (a mod n)%Z.
Proof. intros Ha Hn. apply Z.rem_mod_nonneg; lia. Qed.

Lemma extractBoundaryArc_slice (polygon : list Point) (s e : Z) :
  polygon <> [] ->
  (-1 <= s < Z.of_nat (length polygon))%Z ->
  (-1 <= e < Z.of_nat (length polygon))%Z ->
  extractBoundaryArc polygon s e
  = Some (map Some
            (cyclicSlice polygon
               (Z.to_nat ((s + 1) mod Z.of_nat (length polygon)))
               (Z.to_nat ((e - s) mod Z.of_nat (length polygon))))).
Proof.
  intros Hne Hs He. unfold extractBoundaryArc.
  assert (Hn : (0 < Z.of_nat (length polygon))%Z)
    by (destruct polygon; [congruence|simpl; lia]).
  destruct (Z.of_nat (length polygon) =? 0)%Z eqn:E;
    [apply Z.eqb_eq in E; lia|]. clear E.
  rewrite !rem_mod_nonneg by lia.
  set (n := Z.of_nat (length polygon)) in *.
  pose proof (Z.mod_pos_bound (s + 1) n Hn) as Hi.
  pose proof (Z.mod_pos_bound (e + 1) n Hn) as Ht.
  pose proof (Z.mod_pos_bound (e - s) n Hn) as Hd.
  rewrite (eba_loop_slice polygon ((e + 1) mod n)%Z Ht
             (Z.to_nat ((e - s) mod n)) _ ((s + 1) mod n)%Z [] Hi).
  - reflexivity.
  - rewrite Z2Nat.id by lia.
    assert (Hs1 : ((s + 1) mod n = if (s + 1 <? n) then s + 1 else 0)%Z).
    { destruct (s + 1 <? n)%Z eqn:E1;
        [apply Z.ltb_lt in E1; apply Z.mod_small; lia|].
      apply Z.ltb_ge in E1. replace (s + 1)%Z with n by lia.
      apply Z.mod_same. lia. }
    assert (He1 : ((e + 1) mod n = if (e + 1 <? n) then e + 1 else 0)%Z).
    { destruct (e + 1 <? n)%Z eqn:E1;
        [apply Z.ltb_lt in E1; apply Z.mod_small; lia|].
      apply Z.ltb_ge in E1. replace (e + 1)%Z with n by lia.
      apply Z.mod_same. lia. }
    assert (Hes : ((e - s) mod n
                   = if (s <=? e) then (if (e - s <? n) then e - s else 0)
                     else e - s + n)%Z).
    { destruct (s <=? e)%Z eqn:E1.
      { apply Z.leb_le in E1. destruct (e - s <? n)%Z eqn:E2;
          [apply Z.ltb_lt in E2; apply Z.mod_small; lia|].
        apply Z.ltb_ge in E2. replace (e - s)%Z with n by lia.
        apply Z.mod_same. lia. }
      apply Z.leb_gt in E1.
      rewrite <- (Z.mod_small (e - s + n) n) by lia.
      rewrite <- (Z.mod_add (e - s) 1 n) by lia. f_equal. lia. }
    rewrite Hs1, He1, Hes.
    destruct (s + 1 <? n)%Z eqn:E1;
      [apply Z.ltb_lt in E1|apply Z.ltb_ge in E1];
      (destruct (e + 1 <? n)%Z eqn:E2;
       [apply Z.ltb_lt in E2|apply Z.ltb_ge in E2]);
      (destruct (s <=? e)%Z eqn:E3;
       [apply Z.leb_le in E3|apply Z.leb_gt in E3]);
      try (destruct (e - s <? n)%Z eqn:E5;
           [apply Z.ltb_lt in E5|apply Z.ltb_ge in E5]);
      match goal with
      | |- context [(?a <=? ?b)%Z] =>
          destruct (a <=? b)%Z eqn:E4;
          [apply Z.leb_le in E4|apply Z.leb_gt in E4]
      end; lia.
  - unfold n in *. lia.
Qed.

Lemma cyclicSlice_length (polygon : list Point) (start len : nat) :
  (start < length polygon)%nat -> (len <= length polygon)%nat ->
  length (cyclicSlice polygon start len) = len.
Proof.
  intros Hs Hl. unfold cyclicSlice.
  apply firstn_length_le. rewrite length_skipn, length_app. lia.
Qed.

Lemma cyclicSlice_nth (polygon : list Point) (start len k : nat) :
  (start < length polygon)%nat -> (len <= length polygon)%nat -> (k < len)%nat ->
  nth k (cyclicSlice polygon start len) origin
  = nth ((start + k) mod length polygon) polygon origin.
Proof.
  intros Hs Hl Hk. unfold cyclicSlice.
  rewrite nth_firstn.
  destruct (k <? len)%nat eqn:E; [|apply Nat.ltb_ge in E; lia].
  rewrite nth_skipn.
  destruct (Nat.lt_ge_cases (start + k) (length polygon)) as [Hlt|Hge].
  - rewrite app_nth1 by exact Hlt. now rewrite Nat.mod_small.
  - rewrite app_nth2 by exact Hge. f_equal.
    replace (start + k)%nat
      with ((start + k - length polygon) + 1 * length polygon)%nat at 2 by lia.
    rewrite Nat.Div0.mod_add. symmetry. apply Nat.mod_small. lia.
Qed.

(** X2. On a non-empty polygon and edge indices from [-1] up to the last
    one, [extractBoundaryArc] terminates, reads no vertex outside the
    array, and returns the [(end - start) mod n] vertices that follow
    vertex [start] cyclically: its [k]-th element is vertex
    [(start + 1 + k) mod n]. *)
Theorem extractBoundaryArc_walk (polygon : list Point) (s e : Z) :
  polygon <> [] ->
  (-1 <= s < Z.of_nat (length polygon))%Z ->
  (-1 <= e < Z.of_nat (length polygon))%Z ->
  exists arc,
    extractBoundaryArc polygon s e = Some (map Some arc) /\
    length arc = Z.to_nat ((e - s) mod Z.of_nat (length polygon)) /\
    forall k, (k < length arc)%nat ->
      nth k arc origin
      = nth ((Z.to_nat (s + 1) + k) mod length polygon) polygon origin.
Proof.
  intros Hne Hs He.
  assert (Hn : (0 < Z.of_nat (length polygon))%Z)
    by (destruct polygon; [congruence|simpl; lia]).
  pose proof (Z.mod_pos_bound (s + 1) _ Hn) as Hi.
  pose proof (Z.mod_pos_bound (e - s) _ Hn) as Hd.
  eexists. split; [apply extractBoundaryArc_slice; assumption|].
  rewrite cyclicSlice_length by lia.
  split; [reflexivity|]. intros k Hk.
  rewrite cyclicSlice_nth by lia.
  f_equal.
  rewrite Nat.Div0.add_mod.
  rewrite (Nat.Div0.add_mod (Z.to_nat (s + 1))).
  f_equal. f_equal.
  rewrite Z2Nat.inj_mod by lia. rewrite Nat2Z.id.
  now rewrite Nat.Div0.mod_mod.
Qed.

Lemma extractBoundaryArc_walk_witness :
  exists arc,
    extractBoundaryArc (squareAt 0 0) 2 0 = Some (map Some arc) /\
    length arc = Z.to_nat ((0 - 2) mod Z.of_nat (length (squareAt 0 0))) /\
    forall k, (k < length arc)%nat ->
      nth k arc origin
      = nth ((Z.to_nat (2 + 1) + k) mod length (squareAt 0 0)) (squareAt 0 0) origin.
Proof.
  apply (extractBoundaryArc_walk (squareAt 0 0) 2 0).
  - discriminate.
  - simpl. lia.
  - simpl. lia.
Defined.

(** ** geometry.ts: the shape of a capture *)

Lemma definedPolygon_map_Some (l : list Point) : definedPolygon (map Some l) = Some l.
Proof. induction l as [|a l IH]; simpl; [reflexivity|now rewrite IH]. Qed.

Lemma fullArc_loop_slice (territory : list Point) :
  forall (count : nat) (i : Z),
    (0 <= i < Z.of_nat (length territory))%Z ->
    (count <= length territory)%nat ->
    fullArc_loop territory count i
    = map Some (cyclicSlice territory (Z.to_nat i) count).
Proof.
  induction count as [|count IH]; intros i Hi Hc; [reflexivity|].
  simpl fullArc_loop.
  rewrite (aget_nth territory i Hi), (rem_succ_range i _ Hi).
  rewrite cyclicSlice_step by lia. simpl map. f_equal.
  rewrite IH.
  - do 2 f_equal.
    destruct (i + 1 <? Z.of_nat (length territory))%Z eqn:E1;
      [apply Z.ltb_lt in E1|apply Z.ltb_ge in E1];
      (destruct (S (Z.to_nat i) <? length territory)%nat eqn:E2;
       [apply Nat.ltb_lt in E2|apply Nat.ltb_ge in E2]); lia.
  - destruct (i + 1 <? Z.of_nat (length territory))%Z eqn:E1;
      [apply Z.ltb_lt in E1|apply Z.ltb_ge in E1]; lia.
  - lia.
Qed.

Lemma computeCapture_run (territory trail : list Point)
    (exitPt entryPt : Point) (exitIdx entryIdx : Z) :
  territory <> [] ->
  (-1 <= exitIdx < Z.of_nat (length territory))%Z ->
  (-1 <= entryIdx < Z.of_nat (length territory))%Z ->
  exists start len,
    (start < length territory)%nat /\ (len <= length territory)%nat /\
    (computeCapture territory trail exitPt exitIdx entryPt entryIdx
     = Returns (exitPt :: trail ++ entryPt :: cyclicSlice territory start len) \/
     computeCapture territory trail exitPt exitIdx entryPt entryIdx
     = Returns (exitPt :: trail ++ entryPt :: rev (cyclicSlice territory start len))).
Proof.
  intros Hne Hx He.
  assert (Hn : (0 < Z.of_nat (length territory))%Z)
    by (destruct territory; [congruence|simpl; lia]).
  assert (Hloop : forall arc,
            (exitPt :: trail ++ [entryPt]) ++ arc = exitPt :: trail ++ entryPt :: arc).
  { intro arc. simpl. now rewrite <- app_assoc. }
  unfold computeCapture.
  destruct (exitIdx =? entryIdx)%Z eqn:Esame.
  - pose proof (rem_nonneg_range (exitIdx + 1) _ ltac:(lia) Hn) as Hi.
    rewrite (fullArc_loop_slice territory _ _ Hi (Nat.le_refl _)).
    unfold pickLarger.
    rewrite <- map_app, !definedPolygon_map_Some, Hloop.
    destruct (_ <? _).
    + exists 0%nat, 0%nat. repeat apply conj; [lia|lia|].
      left. unfold cyclicSlice. simpl firstn. now rewrite <- Hloop, app_nil_r.
    + exists (Z.to_nat (Z.rem (exitIdx + 1) (Z.of_nat (length territory)))),
        (length territory).
      repeat apply conj; [lia|lia|now left].
  - rewrite (extractBoundaryArc_slice territory exitIdx entryIdx Hne Hx He).
    rewrite (extractBoundaryArc_slice territory entryIdx exitIdx Hne He Hx).
    rewrite <- map_rev, <- !map_app, !definedPolygon_map_Some, !Hloop.
    pose proof (Z.mod_pos_bound (exitIdx + 1) _ Hn).
    pose proof (Z.mod_pos_bound (entryIdx + 1) _ Hn).
    pose proof (Z.mod_pos_bound (exitIdx - entryIdx) _ Hn).
    pose proof (Z.mod_pos_bound (entryIdx - exitIdx) _ Hn).
    destruct (_ <? _).
    + eexists _, _. repeat apply conj; [| |right; reflexivity]; lia.
    + eexists _, _. repeat apply conj; [| |left; reflexivity]; lia.
Qed.

(** X3. With a non-empty territory and edge indices from [-1] up to the
    last one, [computeCapture] neither throws nor hangs, and the polygon it
    returns is the exit point, the trail, the entry point, and then one
    run of consecutive territory vertices (read cyclically, forwards or
    backwards, at most once around). *)
Theorem computeCapture_shape (territory trail : list Point)
    (exitPt entryPt : Point) (exitIdx entryIdx : Z) :
  territory <> [] ->
  (-1 <= exitIdx < Z.of_nat (length territory))%Z ->
  (-1 <= entryIdx < Z.of_nat (length territory))%Z ->
  exists start len,
    (start < length territory)%nat /\ (len <= length territory)%nat /\
    (computeCapture territory trail exitPt exitIdx entryPt entryIdx
     = Returns (exitPt :: trail ++ entryPt :: cyclicSlice territory start len) \/
     computeCapture territory trail exitPt exitIdx entryPt entryIdx
     = Returns (exitPt :: trail ++ entryPt :: rev (cyclicSlice territory start len))).
Proof. apply computeCapture_run. Qed.


Lemma computeCapture_shape_witness :
  exists start len,
    (start < length (squareAt 0 0))%nat /\ (len <= length (squareAt 0 0))%nat /\
    (computeCapture (squareAt 0 0) [mkPoint 300 100; mkPoint 300 (-100)]
       (mkPoint 200 100) 1 (mkPoint 100 0) 0
     = Returns (mkPoint 200 100 :: [mkPoint 300 100; mkPoint 300 (-100)]
                  ++ mkPoint 100 0 :: cyclicSlice (squareAt 0 0) start len) \/
     computeCapture (squareAt 0 0) [mkPoint 300 100; mkPoint 300 (-100)]
       (mkPoint 200 100) 1 (mkPoint 100 0) 0
     = Returns (mkPoint 200 100 :: [mkPoint 300 100; mkPoint 300 (-100)]
                  ++ mkPoint 100 0 :: rev (cyclicSlice (squareAt 0 0) start len))).
Proof.
  apply (computeCapture_shape (squareAt 0 0) [mkPoint 300 100; mkPoint 300 (-100)]
           (mkPoint 200 100) (mkPoint 100 0) 1 0).
  - discriminate.
  - simpl. lia.
  - simpl. lia.
Defined.

(** ** geometry.ts: simplifyPolygon *)

Lemma Subsequence_refl {A : Type} (l : list A) : Subsequence l l.
Proof. induction l; constructor; assumption. Qed.

Lemma simplify_loop_subsequence (tol : float) :
  forall (rest : list Point) (last : Point),
    Subsequence (simplify_loop tol last rest) rest.
Proof.
  induction rest as [|c rest IH]; intro last; simpl; [constructor|].
  destruct (_ <? _); constructor; apply IH.
Qed.

Lemma simplify_loop_spaced (tol : float) :
  forall (rest : list Point) (last : Point),
    spaced tol last (simplify_loop tol last rest) = true.
Proof.
  induction rest as [|c rest IH]; intro last; simpl; [reflexivity|].
  destruct (tol * tol <? _) eqn:E; [|apply IH].
  simpl. unfold apart. rewrite E. simpl. apply IH.
Qed.

Lemma simplify_loop_fixed (tol : float) :
  forall (l : list Point) (last : Point),
    spaced tol last l = true -> simplify_loop tol last l = l.
Proof.
  induction l as [|c l IH]; intros last H; simpl in *; [reflexivity|].
  apply andb_true_iff in H. destruct H as [H1 H2].
  unfold apart in H1. rewrite H1. f_equal. now apply IH.
Qed.

(** X4. [simplifyPolygon] only leaves vertices out (the result is a
    subsequence of the input), keeps the first vertex, leaves every kept
    vertex of an input of three or more further than the tolerance from
    the kept vertex before it, and simplifying a second time with the same
    tolerance changes nothing. *)
Theorem simplifyPolygon_idempotent (polygon : list Point) (tol : float) :
  Subsequence (simplifyPolygon polygon tol) polygon /\
  hd_error (simplifyPolygon polygon tol) = hd_error polygon /\
  ((3 <= length polygon)%nat ->
   exists p0 rest, simplifyPolygon polygon tol = p0 :: rest /\
                   spaced tol p0 rest = true) /\
  simplifyPolygon (simplifyPolygon polygon tol) tol = simplifyPolygon polygon tol.
Proof.
  destruct (length polygon <? 3)%nat eqn:E.
  - assert (Hs : simplifyPolygon polygon tol = polygon)
      by (unfold simplifyPolygon; now rewrite E).
    rewrite !Hs. repeat apply conj.
    + apply Subsequence_refl.
    + reflexivity.
    + apply Nat.ltb_lt in E. lia.
    + reflexivity.
  - destruct polygon as [|p0 rest]; [discriminate|].
    assert (Hs : simplifyPolygon (p0 :: rest) tol = p0 :: simplify_loop tol p0 rest)
      by (unfold simplifyPolygon; now rewrite E).
    rewrite !Hs. repeat apply conj.
    + constructor. apply simplify_loop_subsequence.
    + reflexivity.
    + intros _. exists p0, (simplify_loop tol p0 rest).
      split; [reflexivity|apply simplify_loop_spaced].
    + unfold simplifyPolygon.
      destruct (length (p0 :: simplify_loop tol p0 rest) <? 3)%nat; [reflexivity|].
      f_equal. apply simplify_loop_fixed, simplify_loop_spaced.
Qed.

(** ** geometry.ts: points that are never inside *)

Lemma chainParity_none (pt : Point) (polygon : list Point) :
  (forall a b, In a polygon -> In b polygon -> edgeCrosses pt a b = false) ->
  forall (l : list Point) (prev : Point),
    incl l polygon -> In prev polygon -> chainParity pt prev l = false.
Proof.
  intro H. induction l as [|a l IH]; intros prev Hl Hprev; [reflexivity|].
  simpl. rewrite H; [|apply Hl; now left|exact Hprev].
  rewrite IH; [reflexivity| |apply Hl; now left].
  intros z Hz. apply Hl. now right.
Qed.

Lemma last_In (l : list Point) (d : Point) : l <> [] -> In (last l d) l.
Proof.
  induction l as [|a l IH]; [congruence|]. intros _.
  destruct l as [|b l]; [now left|].
  right. apply IH. discriminate.
Qed.

(** X5. A point is outside a polygon (the crossing count stays even)
    whenever its [x] or its [y] is NaN, and whenever the comparison of its
    [y] with the [y] of every vertex has the same outcome: the point lies
    strictly above all of them, or above none. *)
Theorem isPointInPolygon_never_inside (pt : Point) (polygon : list Point) :
  isNaN (x pt) = true \/ isNaN (y pt) = true \/
  (exists b, forall v, In v polygon -> (y pt <? y v) = b) ->
  isPointInPolygon pt polygon = false.
Proof.
  intro H. rewrite isPointInPolygon_chain.
  destruct polygon as [|a0 l0]; [reflexivity|].
  apply chainParity_none with (polygon := a0 :: l0).
  - intros a b Ha Hb. unfold edgeCrosses.
    destruct H as [H|[H|[c H]]].
    + rewrite (ltb_nan_l (x pt) _ H). apply andb_false_r.
    + now rewrite !(ltb_nan_l (y pt) _ H).
    + rewrite (H a Ha), (H b Hb). now destruct c.
  - apply incl_refl.
  - apply last_In. discriminate.
Qed.

Lemma isPointInPolygon_never_inside_witness :
  isPointInPolygon (mkPoint 1100 900) exactSquare = false.
Proof.
  apply (isPointInPolygon_never_inside (mkPoint 1100 900) exactSquare).
  right. right. exists true.
  intros v Hv. vm_compute in Hv.
  repeat (destruct Hv as [<- | Hv]; [vm_compute; reflexivity|]).
  destruct Hv.
Defined.

(** ** The two area functions agree *)

Lemma SFabs_binary_round_aux (prec emax : Z) (s : bool) (m e : Z) (l : location) :
  SFabs (binary_round_aux prec emax s m e l) = binary_round_aux prec emax false m e l.
Proof.
  unfold binary_round_aux.
  destruct (shr_fexp prec emax m e l) as [mrs' e'].
  destruct (shr_fexp prec emax _ e' loc_Exact) as [mrs'' e''].
  destruct (shr_m mrs''); try reflexivity.
  destruct (e'' <=? emax - prec)%Z; reflexivity.
Qed.

Lemma SFabs_SFdiv_pos (prec emax : Z) (f : spec_float) (my : positive) (ey : Z) :
  SFabs (SFdiv prec emax f (S754_finite false my ey))
  = SFdiv prec emax (SFabs f) (S754_finite false my ey).
Proof.
  destruct f as [s|s| |s m e]; simpl; try reflexivity.
  destruct (SFdiv_core_binary prec emax (Z.pos m) e (Z.pos my) ey) as [[mz ez] lz].
  rewrite SFabs_binary_round_aux. reflexivity.
Qed.

Lemma abs_half (v : float) : Math_abs (v / 2) = Math_abs v / 2.
Proof.
  unfold Math_abs.
  rewrite <- (SF2Prim_Prim2SF (PrimFloat.abs (v / 2))).
  rewrite <- (SF2Prim_Prim2SF (PrimFloat.abs v / 2)).
  f_equal. rewrite abs_spec, !div_spec, abs_spec.
  replace (Prim2SF 2) with (S754_finite false 4503599627370496 (-51))
    by (vm_compute; reflexivity).
  apply SFabs_SFdiv_pos.
Qed.

Lemma calculateArea_agrees (polygon : list Point) :
  calculateArea polygon = getPolygonArea polygon.
Proof.
  unfold calculateArea, getPolygonArea, getSignedPolygonArea.
  symmetry. apply abs_half.
Qed.

(** X6. [GameRoom.calculateArea] and [getPolygonArea] of geometry.ts
    return the same number, bit for bit, on every polygon: taking the
    absolute value before or after halving makes no difference. *)
Theorem calculateArea_getPolygonArea (polygon : list Point) :
  calculateArea polygon = getPolygonArea polygon.
Proof. apply calculateArea_agrees. Qed.

(** ** SpatialHash.ts: cell keys *)

Lemma key_eqb_spec (k1 k2 : CellKey) :
  key_eqb k1 k2 = true <->
  (numeral (Prim2SF (fst k1)) = numeral (Prim2SF (fst k2)) /\
   numeral (Prim2SF (snd k1)) = numeral (Prim2SF (snd k2))).
Proof.
  unfold key_eqb. now rewrite andb_true_iff, !sameNumeral_spec.
Qed.

Lemma key_eqb_refl (k : CellKey) : key_eqb k k = true.
Proof. now apply key_eqb_spec. Qed.

(** Keys with the same numerals are the same key for every lookup. *)
Lemma key_eqb_same (k k1 k2 : CellKey) :
  key_eqb k1 k2 = true -> key_eqb k k1 = key_eqb k k2.
Proof.
  intro H. apply key_eqb_spec in H. destruct H as [H1 H2].
  destruct (key_eqb k k1) eqn:E1, (key_eqb k k2) eqn:E2; try reflexivity.
  - apply key_eqb_spec in E1. destruct E1 as [F1 F2].
    assert (key_eqb k k2 = true) by (apply key_eqb_spec; split; congruence).
    congruence.
  - apply key_eqb_spec in E2. destruct E2 as [F1 F2].
    assert (key_eqb k k1 = true) by (apply key_eqb_spec; split; congruence).
    congruence.
Qed.

Lemma key_eqb_other (k k1 k2 : CellKey) :
  key_eqb k1 k2 = false -> key_eqb k k1 = true -> key_eqb k k2 = false.
Proof.
  intros H H1. destruct (key_eqb k k2) eqn:E2; [|reflexivity].
  apply key_eqb_spec in H1. apply key_eqb_spec in E2.
  assert (key_eqb k1 k2 = true)
    by (apply key_eqb_spec; destruct H1, E2; split; congruence).
  congruence.
Qed.

(** Adding [0] to a cell coordinate does not change its numeral. *)
Lemma numeral_add_zero (c : float) :
  numeral (Prim2SF (c + 0)) = numeral (Prim2SF c).
Proof.
  rewrite add_spec.
  replace (Prim2SF 0) with (S754_zero false) by (vm_compute; reflexivity).
  unfold SF64add, SFadd.
  destruct (Prim2SF c) as [s|s| |s m e]; try reflexivity.
  now destruct s.
Qed.

Lemma key_eqb_centre (cx cy : float) : key_eqb (cx + 0, cy + 0) (cx, cy) = true.
Proof. apply key_eqb_spec. simpl. now rewrite !numeral_add_zero. Qed.

(** ** SpatialHash.ts: insert and query *)

Lemma bucketGet_same (h : SpatialHash) (k1 k2 : CellKey) :
  key_eqb k1 k2 = true -> bucketGet h k1 = bucketGet h k2.
Proof.
  intro H. induction h as [|[k b] h IH]; simpl; [reflexivity|].
  rewrite (key_eqb_same k k1 k2 H). now rewrite IH.
Qed.

Lemma cell_bucketPush (h : SpatialHash) (key key' : CellKey) (obj : Item) :
  cell (bucketPush h key obj) key'
  = if key_eqb key key' then cell h key' ++ [obj] else cell h key'.
Proof.
  unfold cell. induction h as [|[k b] h IH]; simpl.
  - now destruct (key_eqb key key').
  - destruct (key_eqb k key) eqn:Ek; simpl.
    + destruct (key_eqb key key') eqn:E.
      * rewrite <- (key_eqb_same k key key' E), Ek. reflexivity.
      * now rewrite (key_eqb_other k key key' E Ek).
    + destruct (key_eqb k key') eqn:Ek'.
      * destruct (key_eqb key key') eqn:E; [|reflexivity].
        rewrite <- (key_eqb_same k key key' E) in Ek'. congruence.
      * exact IH.
Qed.

Lemma cell_insert_grows (h : SpatialHash) (obj it : Item) (px py : float)
    (key : CellKey) :
  In it (cell h key) -> In it (cell (insert h obj px py) key).
Proof.
  intro H. unfold insert. rewrite cell_bucketPush.
  destruct (key_eqb _ _); [apply in_or_app; now left|exact H].
Qed.

Lemma cell_insert_here (h : SpatialHash) (obj : Item) (px py : float) :
  In obj (cell (insert h obj px py) (getKey px py)).
Proof.
  unfold insert. rewrite cell_bucketPush, key_eqb_refl.
  apply in_or_app. right. now left.
Qed.

(** What [query] returns, cell by cell. *)
Lemma query_cells (h : SpatialHash) (px py : float) (it : Item) :
  In it (query h px py) <->
  exists i j, In i [-1; 0; 1] /\ In j [-1; 0; 1] /\
    In it (cell h (Math_floor (px / cellSize) + i, Math_floor (py / cellSize) + j)).
Proof.
  unfold query. rewrite in_flat_map. split.
  - intros (i & Hi & H). apply in_flat_map in H. destruct H as (j & Hj & H).
    exists i, j. auto.
  - intros (i & j & Hi & Hj & H). exists i. split; [exact Hi|].
    apply in_flat_map. exists j. auto.
Qed.

Lemma query_centre (h : SpatialHash) (px py : float) (it : Item) :
  In it (cell h (getKey px py)) -> In it (query h px py).
Proof.
  intro H. apply query_cells. exists 0, 0.
  split; [simpl; auto|]. split; [simpl; auto|].
  unfold cell in *. unfold getKey in H.
  now rewrite (bucketGet_same h _ _ (key_eqb_centre _ _)).
Qed.

Lemma query_insert_grows (h : SpatialHash) (obj it : Item) (px py qx qy : float) :
  In it (query h qx qy) -> In it (query (insert h obj px py) qx qy).
Proof.
  rewrite !query_cells. intros (i & j & Hi & Hj & H).
  exists i, j. auto using cell_insert_grows.
Qed.

Lemma query_insertSegment_grows (h : SpatialHash) (obj it : Item) (p1 p2 : Point)
    (qx qy : float) :
  In it (query h qx qy) -> In it (query (insertSegment h obj p1 p2) qx qy).
Proof.
  intro H. unfold insertSegment. now do 3 apply query_insert_grows.
Qed.

Lemma cell_insert_sound (h : SpatialHash) (obj it : Item) (px py : float)
    (key : CellKey) :
  In it (cell (insert h obj px py) key) -> it = obj \/ In it (cell h key).
Proof.
  unfold insert. rewrite cell_bucketPush.
  destruct (key_eqb _ _); [|now right].
  intro H. apply in_app_or in H. destruct H as [H|[H|[]]]; auto.
Qed.

(** X7. An object inserted at a position is returned by the query at
    that position; an insertion removes nothing from the result of any
    query, and adds nothing but the inserted object. *)
Theorem insert_query (h : SpatialHash) (obj : Item) (px py : float) :
  In obj (query (insert h obj px py) px py) /\
  (forall it qx qy,
     In it (query h qx qy) -> In it (query (insert h obj px py) qx qy)) /\
  (forall it qx qy,
     In it (query (insert h obj px py) qx qy) ->
     it = obj \/ In it (query h qx qy)).
Proof.
  repeat apply conj.
  - apply query_centre, cell_insert_here.
  - intros it qx qy. apply query_insert_grows.
  - intros it qx qy. rewrite !query_cells. intros (i & j & Hi & Hj & H).
    apply cell_insert_sound in H. destruct H as [H|H]; [now left|].
    right. exists i, j. auto.
Qed.

(** X8. A segment inserted with [insertSegment] is returned by the query
    at its start, at its end and at its midpoint. *)
Theorem insertSegment_query (h : SpatialHash) (obj : Item) (p1 p2 : Point) :
  In obj (query (insertSegment h obj p1 p2) (x p1) (y p1)) /\
  In obj (query (insertSegment h obj p1 p2) (x p2) (y p2)) /\
  In obj (query (insertSegment h obj p1 p2)
            ((x p1 + x p2) / 2) ((y p1 + y p2) / 2)).
Proof.
  unfold insertSegment. repeat apply conj.
  - do 2 apply query_insert_grows. apply query_centre, cell_insert_here.
  - apply query_insert_grows. apply query_centre, cell_insert_here.
  - apply query_centre, cell_insert_here.
Qed.

(** ** GameRoom.ts: what the spatial hash of a pass holds *)

Lemma bucketGet_In (h : SpatialHash) (key : CellKey) (b : list Item) :
  bucketGet h key = Some b -> exists k, In (k, b) h.
Proof.
  induction h as [|[k b'] h IH]; simpl; [discriminate|].
  destruct (key_eqb k key).
  - intros [= ->]. exists k. now left.
  - intro H. destruct (IH H) as [k' Hk']. exists k'. now right.
Qed.

Lemma query_held (h : SpatialHash) (px py : float) (it : Item) :
  In it (query h px py) -> held h it.
Proof.
  rewrite query_cells. intros (i & j & _ & _ & H). unfold cell in H.
  destruct (bucketGet h _) as [b|] eqn:E; [|destruct H].
  apply bucketGet_In in E. destruct E as [k Hk]. now exists k, b.
Qed.

Lemma held_bucketPush (h : SpatialHash) (key : CellKey) (obj it : Item) :
  held (bucketPush h key obj) it -> it = obj \/ held h it.
Proof.
  induction h as [|[k b] h IH]; simpl.
  - intros (k' & b' & [[= <- <-]|[]] & Hin). destruct Hin as [->|[]]. now left.
  - destruct (key_eqb k key).
    + intros (k' & b' & [[= <- <-]|Hin'] & Hin).
      * apply in_app_or in Hin. destruct Hin as [Hin|[->|[]]]; [|now left].
        right. exists k, b. split; [now left|exact Hin].
      * right. exists k', b'. split; [now right|exact Hin].
    + intros (k' & b' & [[= <- <-]|Hin'] & Hin).
      * right. exists k, b. split; [now left|exact Hin].
      * destruct IH as [->|(k2 & b2 & H1 & H2)];
          [now exists k', b'|now left|].
        right. exists k2, b2. split; [now right|exact H2].
Qed.

Lemma held_insertSegment (h : SpatialHash) (obj it : Item) (p1 p2 : Point) :
  held (insertSegment h obj p1 p2) it -> it = obj \/ held h it.
Proof.
  unfold insertSegment, insert. intro H.
  apply held_bucketPush in H. destruct H as [H|H]; [now left|].
  apply held_bucketPush in H. destruct H as [H|H]; [now left|].
  now apply held_bucketPush in H.
Qed.

Lemma indexTrail_sound (pid : string) (it : Item) :
  forall (tr : list Point) (h : SpatialHash) (i : nat),
    held (indexTrail h pid tr i) it ->
    held h it \/
    exists k a b, it = TrailItem pid a b (i + k) /\
      nth_error tr k = Some a /\ nth_error tr (S k) = Some b.
Proof.
  induction tr as [|a tr IH]; intros h i H; [now left|].
  destruct tr as [|b rest]; [now left|].
  simpl indexTrail in H. apply IH in H.
  destruct H as [H|(k & a' & b' & -> & H1 & H2)].
  - apply held_insertSegment in H. destruct H as [->|H]; [|now left].
    right. exists 0%nat, a, b. rewrite Nat.add_0_r. auto.
  - right. exists (S k), a', b'.
    replace (i + S k)%nat with (S i + k)%nat by lia. auto.
Qed.

Lemma indexTerritory_sound (pid : string) (territory : list Point) (it : Item) :
  forall (fuel : nat) (h : SpatialHash) (i : nat),
    held (indexTerritory h pid territory fuel i) it ->
    held h it \/
    exists k, (i <= k < i + fuel)%nat /\
      it = TerritoryItem pid (nth k territory origin)
             (nth ((k + 1) mod length territory) territory origin).
Proof.
  induction fuel as [|fuel IH]; intros h i H; [now left|].
  simpl in H. apply IH in H. destruct H as [H|(k & Hk & ->)].
  - apply held_insertSegment in H. destruct H as [->|H]; [|now left].
    right. exists i. split; [lia|reflexivity].
  - right. exists k. split; [lia|reflexivity].
Qed.

Lemma indexPlayer_sound (h : SpatialHash) (p : Player) (it : Item) :
  held (indexPlayer h p) it -> held h it \/ segmentOf [p] it.
Proof.
  unfold indexPlayer. destruct (isDead p) eqn:Hdead; [now left|].
  intro H. apply indexTerritory_sound in H.
  destruct H as [H|(k & Hk & ->)].
  - apply indexTrail_sound in H. destruct H as [H|(k & a & b & -> & H1 & H2)];
      [now left|].
    right. exists p. simpl. auto.
  - right. exists p. simpl. repeat apply conj; auto.
    exists k. split; [lia|auto].
Qed.

Lemma segmentOf_incl (l1 l2 : list Player) (it : Item) :
  incl l1 l2 -> segmentOf l1 it -> segmentOf l2 it.
Proof. intros Hincl (p & Hin & H). exists p. auto. Qed.

Lemma fold_indexPlayer_sound (it : Item) :
  forall (players : list Player) (h : SpatialHash),
    held (fold_left indexPlayer players h) it -> held h it \/ segmentOf players it.
Proof.
  induction players as [|p players IH]; intros h H; [now left|].
  simpl in H. apply IH in H. destruct H as [H|H].
  - apply indexPlayer_sound in H. destruct H as [H|H]; [now left|].
    right. revert H. apply segmentOf_incl. intros q [->|[]]. now left.
  - right. revert H. apply segmentOf_incl. intros q Hq. now right.
Qed.

(** X9. Whatever a query of the hash built for a pass returns is a trail
    segment or a territory edge of a player that was alive when the hash
    was built: a trail item carries two consecutive points of that
    player's trail and the index of the first.  Nothing of a dead player
    is ever returned. *)
Theorem buildSpatialHash_sound (players : list Player) (px py : float) (it : Item) :
  In it (query (buildSpatialHash players) px py) -> segmentOf players it.
Proof.
  intro H. apply query_held in H. apply fold_indexPlayer_sound in H.
  destruct H as [(k & b & [] & _)|H]. exact H.
Qed.

Lemma buildSpatialHash_sound_witness :
  In crossedItem
    (query (buildSpatialHash crossingState) (posX crosserB) (posY crosserB)) /\
  segmentOf crossingState crossedItem.
Proof.
  assert (H : In crossedItem
                (query (buildSpatialHash crossingState) (posX crosserB) (posY crosserB))).
  { apply (nth_error_In _ 9). vm_compute. reflexivity. }
  split; [exact H|].
  exact (buildSpatialHash_sound crossingState (posX crosserB) (posY crosserB)
           crossedItem H).
Defined.

(** The three positions under which [insertSegment] files a segment. *)
Lemma insertSegment_found (h : SpatialHash) (obj : Item) (p1 p2 : Point) :
  In obj (query (insertSegment h obj p1 p2) (x p1) (y p1)) /\
  In obj (query (insertSegment h obj p1 p2) (x p2) (y p2)) /\
  In obj (query (insertSegment h obj p1 p2)
            ((x p1 + x p2) / 2) ((y p1 + y p2) / 2)).
Proof.
  unfold insertSegment. repeat apply conj.
  - do 2 apply query_insert_grows. apply query_centre, cell_insert_here.
  - apply query_insert_grows. apply query_centre, cell_insert_here.
  - apply query_centre, cell_insert_here.
Qed.

Lemma foundAtSegment_grows (h h' : SpatialHash) (it : Item) :
  (forall qx qy, In it (query h qx qy) -> In it (query h' qx qy)) ->
  foundAtSegment h it -> foundAtSegment h' it.
Proof. intros Hg (H1 & H2 & H3). repeat apply conj; now apply Hg. Qed.

Lemma indexTrail_grows (pid : string) (it : Item) (qx qy : float) :
  forall (tr : list Point) (h : SpatialHash) (i : nat),
    In it (query h qx qy) -> In it (query (indexTrail h pid tr i) qx qy).
Proof.
  induction tr as [|a tr IH]; intros h i H; [exact H|].
  destruct tr as [|b rest]; [exact H|].
  simpl indexTrail. apply IH. now apply query_insertSegment_grows.
Qed.

Lemma indexTerritory_grows (pid : string) (territory : list Point) (it : Item)
    (qx qy : float) :
  forall (fuel : nat) (h : SpatialHash) (i : nat),
    In it (query h qx qy) ->
    In it (query (indexTerritory h pid territory fuel i) qx qy).
Proof.
  induction fuel as [|fuel IH]; intros h i H; [exact H|].
  simpl. apply IH. now apply query_insertSegment_grows.
Qed.

Lemma indexPlayer_grows (p : Player) (it : Item) (qx qy : float) (h : SpatialHash) :
  In it (query h qx qy) -> In it (query (indexPlayer h p) qx qy).
Proof.
  intro H. unfold indexPlayer. destruct (isDead p); [exact H|].
  now apply indexTerritory_grows, indexTrail_grows.
Qed.

Lemma fold_indexPlayer_grows (it : Item) (qx qy : float) :
  forall (players : list Player) (h : SpatialHash),
    In it (query h qx qy) -> In it (query (fold_left indexPlayer players h) qx qy).
Proof.
  induction players as [|p players IH]; intros h H; [exact H|].
  simpl. apply IH. now apply indexPlayer_grows.
Qed.

Lemma indexTrail_complete (pid : string) :
  forall (tr : list Point) (h : SpatialHash) (i k : nat) (a b : Point),
    nth_error tr k = Some a -> nth_error tr (S k) = Some b ->
    foundAtSegment (indexTrail h pid tr i) (TrailItem pid a b (i + k)).
Proof.
  induction tr as [|a0 tr IH]; intros h i k a b Ha Hb;
    [destruct k; discriminate|].
  destruct tr as [|b0 rest]; [destruct k; [discriminate|destruct k; discriminate]|].
  change (indexTrail h pid (a0 :: b0 :: rest) i)
    with (indexTrail (insertSegment h (TrailItem pid a0 b0 i) a0 b0) pid
            (b0 :: rest) (S i)).
  destruct k as [|k].
  - simpl in Ha, Hb. injection Ha as <-. injection Hb as <-.
    rewrite Nat.add_0_r.
    apply foundAtSegment_grows with (h := insertSegment h (TrailItem pid a0 b0 i) a0 b0).
    + intros qx qy. apply indexTrail_grows.
    + apply (insertSegment_found h (TrailItem pid a0 b0 i) a0 b0).
  - replace (i + S k)%nat with (S i + k)%nat by lia.
    apply IH; assumption.
Qed.

Lemma indexTerritory_complete (pid : string) (territory : list Point) :
  forall (fuel : nat) (h : SpatialHash) (i k : nat),
    (i <= k < i + fuel)%nat ->
    foundAtSegment (indexTerritory h pid territory fuel i)
      (TerritoryItem pid (nth k territory origin)
         (nth ((k + 1) mod length territory) territory origin)).
Proof.
  induction fuel as [|fuel IH]; intros h i k Hk; [lia|].
  simpl. destruct (Nat.eq_dec k i) as [->|Hne].
  - eapply foundAtSegment_grows.
    + intros qx qy. apply indexTerritory_grows.
    + apply (insertSegment_found h (TerritoryItem pid _ _)).
  - apply IH. lia.
Qed.

Lemma indexPlayer_complete (h : SpatialHash) (p : Player) (it : Item) :
  segmentOf [p] it -> foundAtSegment (indexPlayer h p) it.
Proof.
  intros (q & [<-|[]] & Hdead & Hid & H). unfold indexPlayer. rewrite Hdead.
  destruct it as [pid a b i|pid a b]; simpl in Hid; subst pid.
  - destruct H as [Ha Hb].
    eapply foundAtSegment_grows.
    + intros qx qy. apply indexTerritory_grows.
    + apply (indexTrail_complete (id p) (trail p) h 0 i a b Ha Hb).
  - destruct H as (i & Hi & -> & ->).
    apply indexTerritory_complete. lia.
Qed.

Lemma fold_indexPlayer_complete (it : Item) :
  forall (players : list Player) (h : SpatialHash),
    segmentOf players it -> foundAtSegment (fold_left indexPlayer players h) it.
Proof.
  induction players as [|p players IH]; intros h (q & Hin & H);
    [destruct Hin|].
  simpl. destruct Hin as [<-|Hin].
  - eapply foundAtSegment_grows.
    + intros qx qy. apply fold_indexPlayer_grows.
    + apply indexPlayer_complete. exists p. split; [now left|exact H].
  - apply IH. now exists q.
Qed.

(** X10. Every trail segment and every territory edge of every live
    player is in the hash built for a pass: the query at either end of the
    segment, and at its midpoint, returns its item. *)
Theorem buildSpatialHash_complete (players : list Player) (it : Item) :
  segmentOf players it ->
  In it (query (buildSpatialHash players) (x (itemP1 it)) (y (itemP1 it))) /\
  In it (query (buildSpatialHash players) (x (itemP2 it)) (y (itemP2 it))) /\
  In it (query (buildSpatialHash players)
           ((x (itemP1 it) + x (itemP2 it)) / 2)
           ((y (itemP1 it) + y (itemP2 it)) / 2)).
Proof. apply fold_indexPlayer_complete. Qed.

Lemma buildSpatialHash_complete_witness :
  In crossedItem
    (query (buildSpatialHash crossingState)
       (x (itemP1 crossedItem)) (y (itemP1 crossedItem))) /\
  In crossedItem
    (query (buildSpatialHash crossingState)
       (x (itemP2 crossedItem)) (y (itemP2 crossedItem))) /\
  In crossedItem
    (query (buildSpatialHash crossingState)
       ((x (itemP1 crossedItem) + x (itemP2 crossedItem)) / 2)
       ((y (itemP1 crossedItem) + y (itemP2 crossedItem)) / 2)).
Proof.
  apply (buildSpatialHash_complete crossingState crossedItem).
  exists walkerA. repeat apply conj; try reflexivity. now left.
Defined.

(** ** GameRoom.ts: what the capture phases can do to a player *)

Lemma tryEntryCapture_cases (p p' : Player) (e : Point)
    (hit : BoundaryIntersection) (jc' : bool) :
  tryEntryCapture p e hit false = Returns (p', jc') ->
  (p' = p /\ jc' = false) \/
  (jc' = true /\
   exists newT, (3 < length newT)%nat /\
     p' = commitTerritory newT (Math_floor (calculateArea newT)) p).
Proof.
  unfold tryEntryCapture.
  destruct (computeCapture _ _ _ _ _ _) as [poly| |]; try discriminate.
  destruct (negb _); try discriminate.
  destruct ((3 <? _)%nat && (100 <? _) && isFinite _) eqn:Hv;
    intro H; inversion H; subst; clear H; [|now left].
  right. split; [reflexivity|].
  apply andb_true_iff in Hv. destruct Hv as [Hv _].
  apply andb_true_iff in Hv. destruct Hv as [Hlen _].
  apply Nat.ltb_lt in Hlen. eauto.
Qed.

Lemma tryLoopCapture_cases (p p' : Player) (e : Point) (jc' : bool) :
  tryLoopCapture p e false = Returns (p', jc') ->
  (p' = p /\ jc' = false) \/
  (jc' = true /\
   exists newT, (3 < length newT)%nat /\
     p' = commitTerritory newT (Math_floor (calculateArea newT)) p).
Proof.
  unfold tryLoopCapture.
  destruct (computeCapture _ _ _ _ _ _) as [poly| |]; try discriminate.
  destruct (negb _); try discriminate.
  destruct ((3 <? _)%nat && (score p <? _)) eqn:Hv;
    intro H; inversion H; subst; clear H; [|now left].
  right. split; [reflexivity|].
  apply andb_true_iff in Hv. destruct Hv as [Hlen _].
  apply Nat.ltb_lt in Hlen. eauto.
Qed.

Lemma loopClosureDetection_inert (M : MathLib) (p : Player) (isInside : bool)
    (c : Point) (jc : bool) :
  exitPoint p = None \/ isOutside p = false \/ isInside = true \/
  (length (trail p) <= 10)%nat ->
  loopClosureDetection M p isInside c jc = Some (p, jc).
Proof.
  intro H. unfold loopClosureDetection.
  destruct (exitPoint p) as [e|]; [|reflexivity].
  destruct H as [H|[H|[H|H]]]; [discriminate|rewrite H; reflexivity
                                |rewrite H; now rewrite andb_false_r|].
  apply Nat.ltb_ge in H. rewrite H. now rewrite andb_false_r.
Qed.

Lemma capturePhase_cases (M : MathLib) (p0 p : Player) (jc : bool) :
  capturePhase M p0 = Some (p, jc) -> CaptureCase p0 p jc.
Proof.
  unfold capturePhase, exitDetection.
  destruct (isOutside p0) eqn:Hout; simpl negb; simpl andb.
  - (* outside: entry or loop closure *)
    unfold entryDetection. rewrite Hout. simpl andb.
    destruct (isPointInPolygon (currentPosOf p0) (territory p0)) eqn:Hin.
    + destruct (exitPoint p0) as [e|] eqn:He.
      * destruct (2 <? length (trail p0))%nat.
        -- destruct (tryEntryCapture p0 e _ false) as [[q jq]| |] eqn:E;
             [| |discriminate].
           ++ rewrite loopClosureDetection_inert by (now left).
              intros [= <- <-].
              apply tryEntryCapture_cases in E.
              destruct E as [[-> ->]|[-> (newT & Hlen & ->)]];
                [now apply CaseClear|now apply CaseCommit].
           ++ rewrite loopClosureDetection_inert by (now left).
              intros [= <- <-]. now apply CaseClear.
        -- rewrite loopClosureDetection_inert by (right; right; now left).
           intros [= <- <-]. apply CaseNothing.
      * rewrite loopClosureDetection_inert by (now left).
        intros [= <- <-]. apply CaseNothing.
    + unfold loopClosureDetection.
      destruct (exitPoint p0) as [e|] eqn:He;
        [|intros [= <- <-]; apply CaseNothing].
      destruct (_ && _); [|intros [= <- <-]; apply CaseNothing].
      destruct (_ <? 80); [|intros [= <- <-]; apply CaseNothing].
      destruct (tryLoopCapture p0 e false) as [[q jq]| |] eqn:E;
        [| |discriminate]; intros [= <- <-].
      * apply tryLoopCapture_cases in E.
        destruct E as [[-> ->]|[-> (newT & Hlen & ->)]];
          [now apply CaseClear|now apply CaseCommit].
      * now apply CaseClear.
  - (* not outside: at most an exit *)
    destruct (isPointInPolygon (currentPosOf p0) (territory p0)) eqn:Hin;
      simpl negb; simpl andb.
    + unfold entryDetection. rewrite Hout. simpl andb. cbv iota beta.
      rewrite loopClosureDetection_inert by (right; now left).
      intros [= <- <-]. apply CaseNothing.
    + destruct (invulnerableTimer p0 <=? 0) eqn:Hinv.
      * destruct (findBoundaryIntersection _ _ _) as [hit|] eqn:Hhit;
          unfold entryDetection; simpl isOutside; simpl andb; cbv iota beta;
          rewrite loopClosureDetection_inert
            by (right; right; right; simpl; lia);
          intros [= <- <-].
        -- apply (CaseExit p0 (point hit) (edgeIndex hit)); auto.
           now rewrite Hhit.
        -- apply (CaseExit p0 (prevPosOf p0) 0%Z); auto.
           now rewrite Hhit.
      * unfold entryDetection. rewrite Hout. simpl andb. cbv iota beta.
        rewrite loopClosureDetection_inert by (right; now left).
        intros [= <- <-]. apply CaseNothing.
Qed.

(** ** Invariants of the player records

    A property of single players that creation, the movement update, an
    input, the capture phases and a kill preserve holds of every player of
    every state the room can reach. *)

Section Invariant.

Variable M : MathLib.
Variable I : Player -> Prop.

Hypothesis I_new : forall pid px py c, I (newPlayer M pid px py c).
Hypothesis I_update :
  forall fuel dt p p', updatePlayer M fuel dt p = Some p' -> I p -> I p'.
Hypothesis I_input :
  forall p a, isDead p = false -> I p ->
    I (set_targetAngle a p) /\ I (set_speed PLAYER_SPEED (set_targetAngle a p)).
Hypothesis I_own :
  forall p0 p jc, isDead p0 = false -> I p0 -> CaptureCase p0 p jc ->
    I (afterCapture p jc).
Hypothesis I_kill : forall v, isOutside v = true -> I v -> I (killPlayer v).

Lemma keeps_refl (p : Player) : keeps I p p.
Proof. split; auto. Qed.

Lemma keeps_trans (p q r : Player) : keeps I p q -> keeps I q r -> keeps I p r.
Proof. intros [H1 H2] [H3 H4]. split; [congruence|auto]. Qed.

Lemma keeps_own (p0 p : Player) (jc : bool) :
  isDead p0 = false -> capturePhase M p0 = Some (p, jc) ->
  id p = id p0 /\
  keeps I p0 (if jc then p else if winThreshold <=? score p then winBranch p else p).
Proof.
  intros Hdead Hcap.
  pose proof (capturePhase_identity M p0 p jc Hcap) as (Hid & _).
  split; [exact Hid|]. split.
  - destruct jc; [exact Hid|].
    destruct (_ <=? _); [|exact Hid].
    destruct (winBranch_facts p) as (Wid & _). congruence.
  - intro Hp. apply capturePhase_cases in Hcap.
    exact (I_own p0 p jc Hdead Hp Hcap).
Qed.

Lemma keeps_kill (v : Player) : isOutside v = true -> keeps I v (killPlayer v).
Proof. intro H. split; [reflexivity|auto]. Qed.

Lemma keeps_Forall (s s' : GameState) :
  Forall2 (keeps I) s s' -> Forall I s -> Forall I s'.
Proof.
  induction 1 as [|p p' s s' [_ Hp] _ IH]; intro Hs; [constructor|].
  inversion Hs; subst. constructor; auto.
Qed.

Lemma checkPlayer_inv (hash : SpatialHash) (s s' : GameState) (pid : string) :
  checkPlayer M hash s pid = Some s' -> Forall I s -> Forall I s'.
Proof.
  intro H. apply keeps_Forall. revert H.
  apply (checkPlayer_lift (keeps I) keeps_refl keeps_trans M keeps_own keeps_kill).
Qed.

Lemma checkCaptureAndCollisions_inv (s s' : GameState) :
  checkCaptureAndCollisions M s = Some s' -> Forall I s -> Forall I s'.
Proof.
  intro H. apply keeps_Forall. revert H.
  apply (checkCaptureAndCollisions_lift (keeps I) keeps_refl keeps_trans M
           keeps_own keeps_kill).
Qed.

Lemma update_inv (fuel : nat) (dt : float) :
  forall s s', update M fuel dt s = Some s' -> Forall I s -> Forall I s'.
Proof.
  induction s as [|p s IH]; intros s'; simpl.
  - intros [= <-] _. constructor.
  - destruct (updatePlayer M fuel dt p) as [p'|] eqn:Hp; [|discriminate].
    destruct (update M fuel dt s) as [r|]; [|discriminate].
    intros [= <-] Hs. inversion Hs; subst. constructor; eauto.
Qed.

Lemma setPlayer_inv (s : GameState) (q : Player) :
  Forall I s -> I q -> Forall I (setPlayer s q).
Proof.
  intros Hs Hq. induction s as [|a s IH]; simpl.
  - constructor; [exact Hq|constructor].
  - inversion Hs; subst.
    destruct (String.eqb (id a) (id q)); constructor; auto.
Qed.

Lemma setPlayerInput_inv (s : GameState) (pid : string) (a : float) :
  Forall I s -> Forall I (setPlayerInput s pid a).
Proof.
  intro Hs. unfold setPlayerInput.
  destruct (getPlayer s pid) as [p|] eqn:Hget; [|exact Hs].
  destruct (isDead p) eqn:Hdead; simpl; [exact Hs|].
  apply getPlayer_In in Hget. destruct Hget as [Hin _].
  rewrite Forall_forall in Hs. pose proof (Hs p Hin) as Hp.
  destruct (I_input p a Hdead Hp) as [H1 H2].
  apply setPlayer_inv; [now apply Forall_forall|].
  now destruct (_ =? 0).
Qed.

Lemma step_inv (fuel : nat) (ev : Event) (s s' : GameState) :
  step M fuel ev s = Some s' -> Forall I s -> Forall I s'.
Proof.
  destruct ev; simpl.
  - intros [= <-] Hs. now apply setPlayer_inv.
  - intros [= <-] Hs. unfold removePlayer. rewrite Forall_forall in *.
    intros p Hp. apply filter_In in Hp. now apply Hs.
  - intros [= <-]. apply setPlayerInput_inv.
  - apply update_inv.
  - apply checkCaptureAndCollisions_inv.
Qed.

Lemma run_inv (fuel : nat) (evs : list Event) :
  forall s s', run M fuel evs s = Some s' -> Forall I s -> Forall I s'.
Proof.
  induction evs as [|ev evs IH]; intros s s'; simpl.
  - now intros [= <-].
  - destruct (step M fuel ev s) as [s1|] eqn:H1; [|discriminate].
    intros Hrun Hs. apply (IH s1 s' Hrun). now apply step_inv with (1 := H1).
Qed.

Lemma reachable_inv (fuel : nat) (evs : list Event) (s : GameState) :
  run M fuel evs newGameState = Some s -> Forall I s.
Proof. intro H. apply (run_inv fuel evs _ _ H). constructor. Qed.

End Invariant.

(** ** The player records are well formed *)

Lemma trailSpaced_snoc (c : Point) :
  forall l : list Point,
    trailSpaced l = true ->
    match rev l with
    | [] => true
    | lastPoint :: _ => stepFar lastPoint c
    end = true ->
    trailSpaced (l ++ [c]) = true.
Proof.
  induction l as [|a l IH]; intros Hl Hc; [reflexivity|].
  destruct l as [|b l].
  - simpl in *. now rewrite Hc.
  - change (trailSpaced (a :: b :: l)) with (stepFar a b && trailSpaced (b :: l)) in Hl.
    apply andb_true_iff in Hl. destruct Hl as [Hab Hl].
    change ((a :: b :: l) ++ [c]) with (a :: b :: (l ++ [c])).
    change (trailSpaced (a :: b :: (l ++ [c])))
      with (stepFar a b && trailSpaced ((b :: l) ++ [c])).
    rewrite Hab. simpl andb. apply IH; [exact Hl|].
    change (rev (a :: b :: l)) with (rev (b :: l) ++ [a]) in Hc.
    destruct (rev (b :: l)) as [|z r] eqn:Er; [|exact Hc].
    apply (f_equal (@length Point)) in Er. rewrite length_rev in Er. discriminate.
Qed.

Lemma seed_loop_length (M : MathLib) (cx cy radius : float) (segments : nat) :
  forall fuel i, length (seed_loop M cx cy radius segments fuel i) = fuel.
Proof. induction fuel as [|fuel IH]; intro i; simpl; [reflexivity|now rewrite IH]. Qed.

Lemma wellFormed_new (M : MathLib) (pid : string) (px py : float) (c : string) :
  wellFormed (newPlayer M pid px py c).
Proof.
  unfold wellFormed, newPlayer.
  cbn [isOutside trail exitPoint exitEdgeIndex isDead territory score].
  rewrite seed_loop_length.
  repeat apply conj; try discriminate; auto; lia.
Qed.

(** The fields on which [wellFormed] depends. *)
Lemma wellFormed_same (p q : Player) :
  isOutside q = isOutside p -> trail q = trail p -> exitPoint q = exitPoint p ->
  exitEdgeIndex q = exitEdgeIndex p -> isDead q = isDead p ->
  territory q = territory p -> score q = score p ->
  wellFormed p -> wellFormed q.
Proof.
  unfold wellFormed. intros -> -> -> -> -> -> ->. auto.
Qed.

Lemma wellFormed_update (M : MathLib) (fuel : nat) (dt : float) (p p' : Player) :
  updatePlayer M fuel dt p = Some p' -> wellFormed p -> wellFormed p'.
Proof.
  unfold updatePlayer.
  destruct (isDead p) eqn:Hd.
  - intros [= <-]. now apply wellFormed_same.
  - destruct (updatePlayerMovement _ _ _ _) as [q|] eqn:Hq; [|discriminate].
    intros [= <-]. revert Hq. unfold updatePlayerMovement.
    destruct (normalizeDiff _ _); [|discriminate]. intros [= <-] Hp.
    set (p1 := if 0 <? invulnerableTimer p
               then set_invulnerableTimer (invulnerableTimer p - dt) p else p).
    assert (H1 : wellFormed (moveWithDiff M p1 dt f)).
    { revert Hp. unfold p1.
      destruct (0 <? invulnerableTimer p); now apply wellFormed_same. }
    assert (Hd1 : isDead (moveWithDiff M p1 dt f) = false)
      by (unfold p1; now destruct (0 <? invulnerableTimer p)).
    revert H1 Hd1. generalize (moveWithDiff M p1 dt f). intros q Hq Hdq.
    unfold updatePlayerTrail.
    destruct (isOutside q) eqn:Ho; simpl negb; cbv iota; [|exact Hq].
    match goal with |- wellFormed (if ?c then _ else _) =>
      destruct c eqn:Hclose end; [exact Hq|].
    destruct Hq as (W1 & W2 & W3 & W4 & W5 & W6 & W7).
    unfold wellFormed. simpl. rewrite Ho, Hdq.
    repeat apply conj; try discriminate; auto; try lia.
    + intros _. destruct (W2 Ho) as (e & He & Hhd).
      exists e. split; [exact He|]. intros _.
      specialize (Hhd Hdq). destruct (trail q); [discriminate|exact Hhd].
    + apply trailSpaced_snoc; [exact W7|].
      destruct (rev (trail q)) as [|lastPoint r]; [reflexivity|].
      unfold stepFar. simpl in Hclose |- *. now rewrite Hclose.
Qed.

Lemma wellFormed_input (p : Player) (a : float) :
  isDead p = false -> wellFormed p ->
  wellFormed (set_targetAngle a p) /\
  wellFormed (set_speed PLAYER_SPEED (set_targetAngle a p)).
Proof. intros _ Hp. split; revert Hp; now apply wellFormed_same. Qed.

Lemma wellFormed_clear (p : Player) :
  isDead p = false -> (3 < length (territory p))%nat ->
  (score p = Math_floor (getPolygonArea (territory p)) \/
   score p = Math_floor (calculateArea (territory p))) ->
  wellFormed (clearTrailState p).
Proof.
  intros Hd Hlen Hscore. unfold wellFormed. simpl. rewrite Hd.
  repeat apply conj; try discriminate; auto; lia.
Qed.

Lemma wellFormed_hasWon (p : Player) :
  wellFormed p -> wellFormed (set_hasWon true p).
Proof. now apply wellFormed_same. Qed.

Lemma wellFormed_winBranch (p : Player) :
  isDead p = false -> wellFormed p -> wellFormed (winBranch p).
Proof.
  intros Hd Hp. unfold winBranch.
  assert (Hq : wellFormed (if negb (hasWon p) then set_hasWon true p else p))
    by (destruct (negb (hasWon p)); [now apply wellFormed_hasWon|exact Hp]).
  assert (Hdq : isDead (if negb (hasWon p) then set_hasWon true p else p) = false)
    by now destruct (negb (hasWon p)).
  revert Hq Hdq. generalize (if negb (hasWon p) then set_hasWon true p else p).
  intros q Hq Hdq. destruct (isOutside q); [|exact Hq].
  destruct Hq as (_ & _ & _ & _ & W5 & W6 & _). now apply wellFormed_clear.
Qed.

Lemma wellFormed_afterCapture (p : Player) (jc : bool) :
  isDead p = false -> wellFormed p -> wellFormed (afterCapture p jc).
Proof.
  intros Hd Hp. unfold afterCapture. destruct jc; [exact Hp|].
  destruct (_ <=? _); [now apply wellFormed_winBranch|exact Hp].
Qed.

Lemma findBoundaryIntersection_index (p1 p2 : Point) (polygon : list Point)
    (hit : BoundaryIntersection) :
  findBoundaryIntersection p1 p2 polygon = Some hit ->
  (0 <= edgeIndex hit < Z.of_nat (length polygon))%Z.
Proof.
  unfold findBoundaryIntersection. intro H.
  pose proof (fbi_loop_first p1 p2 polygon (length polygon) 0) as F.
  rewrite H in F. destruct F as (k & Hk & -> & _); [intros j Hj; lia|]. lia.
Qed.

Lemma wellFormed_own (p0 p : Player) (jc : bool) :
  isDead p0 = false -> wellFormed p0 -> CaptureCase p0 p jc ->
  wellFormed (afterCapture p jc).
Proof.
  intros Hd Hp Hcase.
  destruct Hp as (W1 & W2 & W3 & W4 & W5 & W6 & W7).
  destruct Hcase as [|pt k Hout Hin Hinv Hhit|Hout|newT Hout Hlen].
  - apply wellFormed_afterCapture; [exact Hd|]. unfold wellFormed. auto 10.
  - apply wellFormed_afterCapture; [exact Hd|].
    unfold wellFormed, exited. simpl. rewrite Hd.
    repeat apply conj; try discriminate; eauto.
    + destruct (findBoundaryIntersection _ _ _) as [hit|] eqn:E.
      * destruct Hhit as [_ ->].
        apply findBoundaryIntersection_index in E. lia.
      * destruct Hhit as [_ ->]. lia.
    + destruct (findBoundaryIntersection _ _ _) as [hit|] eqn:E.
      * destruct Hhit as [_ ->].
        apply findBoundaryIntersection_index in E. lia.
      * destruct Hhit as [_ ->]. lia.
  - apply wellFormed_afterCapture; [exact Hd|]. now apply wellFormed_clear.
  - apply wellFormed_afterCapture; [exact Hd|].
    apply wellFormed_clear; simpl; auto.
Qed.

Lemma wellFormed_kill (v : Player) :
  isOutside v = true -> wellFormed v -> wellFormed (killPlayer v).
Proof.
  intros Hout (W1 & W2 & W3 & W4 & W5 & W6 & W7).
  unfold wellFormed. simpl. rewrite Hout.
  repeat apply conj; try discriminate; auto; try lia.
  intros _. destruct (W2 Hout) as (e & He & _). exists e. split; [exact He|discriminate].
Qed.

Lemma reachable_wellFormed (M : MathLib) (fuel : nat) (evs : list Event)
    (s : GameState) :
  run M fuel evs newGameState = Some s -> Forall wellFormed s.
Proof.
  apply (reachable_inv M wellFormed).
  - apply wellFormed_new.
  - apply wellFormed_update.
  - apply wellFormed_input.
  - apply wellFormed_own.
  - apply wellFormed_kill.
Qed.

(** X11. In every state the room can reach, a player that is not outside
    has no trail, no exit point and exit edge [-1]; a player that is
    outside has an exit point, and while it lives its trail starts at that
    point; a dead player is flagged outside and has an empty trail. *)
Theorem reachable_trail_state (M : MathLib) (fuel : nat) (evs : list Event)
    (s : GameState) :
  run M fuel evs newGameState = Some s ->
  Forall
    (fun p =>
       (isOutside p = false ->
        trail p = [] /\ exitPoint p = None /\ exitEdgeIndex p = (-1)%Z) /\
       (isOutside p = true ->
        exists e, exitPoint p = Some e /\
                  (isDead p = false -> hd_error (trail p) = Some e)) /\
       (isDead p = true -> trail p = [] /\ isOutside p = true))
    s.
Proof.
  intros Hrun. apply reachable_wellFormed in Hrun.
  rewrite Forall_forall in *. intros p Hin.
  destruct (Hrun p Hin) as (W1 & W2 & W3 & _). auto.
Qed.

Lemma reachable_trail_state_witness :
  Forall
    (fun p =>
       (isOutside p = false ->
        trail p = [] /\ exitPoint p = None /\ exitEdgeIndex p = (-1)%Z) /\
       (isOutside p = true ->
        exists e, exitPoint p = Some e /\
                  (isDead p = false -> hd_error (trail p) = Some e)) /\
       (isDead p = true -> trail p = [] /\ isOutside p = true))
    firstFramesState.
Proof.
  apply (reachable_trail_state RefMath.lib 8 firstFrames firstFramesState).
  vm_compute. reflexivity.
Defined.

(** X12. In every state the room can reach, the territory of every
    player has at least four vertices, its exit edge is [-1] or the index
    of an edge of that territory, and its score is the floor of the area of
    that territory, which [getPolygonArea] and [calculateArea] compute
    alike. *)
Theorem reachable_score_is_area (M : MathLib) (fuel : nat) (evs : list Event)
    (s : GameState) :
  run M fuel evs newGameState = Some s ->
  Forall
    (fun p =>
       (3 < length (territory p))%nat /\
       (-1 <= exitEdgeIndex p < Z.of_nat (length (territory p)))%Z /\
       score p = Math_floor (getPolygonArea (territory p)) /\
       score p = Math_floor (calculateArea (territory p)))
    s.
Proof.
  intros Hrun. apply reachable_wellFormed in Hrun.
  rewrite Forall_forall in *. intros p Hin.
  destruct (Hrun p Hin) as (_ & _ & _ & W4 & W5 & W6 & _).
  rewrite calculateArea_agrees in *. destruct W6; auto.
Qed.

Lemma reachable_score_is_area_witness :
  Forall
    (fun p =>
       (3 < length (territory p))%nat /\
       (-1 <= exitEdgeIndex p < Z.of_nat (length (territory p)))%Z /\
       score p = Math_floor (getPolygonArea (territory p)) /\
       score p = Math_floor (calculateArea (territory p)))
    firstFramesState.
Proof.
  apply (reachable_score_is_area RefMath.lib 8 firstFrames firstFramesState).
  vm_compute. reflexivity.
Defined.

(** X13. In every state the room can reach, no two consecutive points of
    a trail are closer than [TRAIL_POINT_DISTANCE]: for each the test
    [distSq < TRAIL_POINT_DISTANCE * TRAIL_POINT_DISTANCE] of
    [updatePlayerTrail] is false. *)
Theorem reachable_trail_spacing (M : MathLib) (fuel : nat) (evs : list Event)
    (s : GameState) :
  run M fuel evs newGameState = Some s ->
  Forall (fun p => trailSpaced (trail p) = true) s.
Proof.
  intros Hrun. apply reachable_wellFormed in Hrun.
  rewrite Forall_forall in *. intros p Hin.
  destruct (Hrun p Hin) as (_ & _ & _ & _ & _ & _ & W7). exact W7.
Qed.

Lemma reachable_trail_spacing_witness :
  Forall (fun p => trailSpaced (trail p) = true) firstFramesState.
Proof.
  apply (reachable_trail_spacing RefMath.lib 8 firstFrames firstFramesState).
  vm_compute. reflexivity.
Defined.

(** ** The capture and collision pass always completes *)

Lemma entryDetection_total (M : MathLib) (p : Player) (isInside : bool)
    (a b : Point) (jc : bool) :
  territory p <> [] -> (-1 <= exitEdgeIndex p)%Z ->
  entryDetection M p isInside a b jc <> None.
Proof.
  intros Hne Hidx. unfold entryDetection.
  destruct (_ && _); [|discriminate].
  destruct (exitPoint p) as [e|]; [|discriminate].
  destruct (_ <? _)%nat; [|discriminate].
  unfold tryEntryCapture.
  pose proof (computeCapture_terminates (territory p) (trail p) e
                (point (entryHit M p a b)) (exitEdgeIndex p)
                (edgeIndex (entryHit M p a b)) Hne Hidx) as Ht.
  pose proof (entryHit_index_nonneg M p a b) as Hhit.
  destruct (computeCapture _ _ _ _ _ _) as [poly| |];
    [|discriminate|elim Ht; [lia|reflexivity]].
  destruct (negb _); [discriminate|].
  destruct (_ && _); discriminate.
Qed.

Lemma loopClosureDetection_total (M : MathLib) (p : Player) (isInside : bool)
    (c : Point) (jc : bool) :
  loopClosureDetection M p isInside c jc <> None.
Proof.
  unfold loopClosureDetection.
  destruct (exitPoint p) as [e|]; [|discriminate].
  destruct (_ && _); [|discriminate].
  destruct (_ <? 80); [|discriminate].
  unfold tryLoopCapture.
  pose proof (computeCapture_same_edge_terminates (territory p) (trail p) e e
                (exitEdgeIndex p)) as Ht.
  destruct (computeCapture _ _ _ _ _ _) as [poly| |];
    [|discriminate|now elim Ht].
  destruct (negb _); [discriminate|].
  destruct (_ && _); discriminate.
Qed.

Lemma capturePhase_total (M : MathLib) (p0 : Player) :
  wellFormed p0 -> capturePhase M p0 <> None.
Proof.
  intros (_ & _ & _ & W4 & W5 & _). unfold capturePhase.
  set (p1 := exitDetection p0 _ _ _).
  assert (H1 : territory p1 <> [] /\ (-1 <= exitEdgeIndex p1)%Z).
  { unfold p1, exitDetection. destruct (_ && _).
    - destruct (findBoundaryIntersection _ _ _) as [hit|] eqn:E; simpl.
      + apply findBoundaryIntersection_index in E.
        split; [destruct (territory p0); [simpl in W5; lia|discriminate]|lia].
      + split; [destruct (territory p0); [simpl in W5; lia|discriminate]|lia].
    - split; [destruct (territory p0); [simpl in W5; lia|discriminate]|lia]. }
  destruct H1 as [Hne Hidx].
  pose proof (entryDetection_total M p1
                (isPointInPolygon (currentPosOf p0) (territory p0))
                (prevPosOf p0) (currentPosOf p0) false Hne Hidx) as He.
  destruct (entryDetection M p1 _ _ _ _) as [[q jq]|]; [|now elim He].
  apply loopClosureDetection_total.
Qed.

Lemma checkPlayer_total (M : MathLib) (hash : SpatialHash) (s : GameState)
    (pid : string) :
  Forall wellFormed s -> checkPlayer M hash s pid <> None.
Proof.
  intro Hs. unfold checkPlayer.
  destruct (getPlayer s pid) as [p0|] eqn:Hget; [|discriminate].
  destruct (isDead p0); [discriminate|].
  apply getPlayer_In in Hget. destruct Hget as [Hin _].
  rewrite Forall_forall in Hs.
  pose proof (capturePhase_total M p0 (Hs p0 Hin)) as Ht.
  destruct (capturePhase M p0) as [[p jc]|]; [|now elim Ht].
  destruct jc; [discriminate|].
  destruct (_ <=? _); [discriminate|].
  destruct (isOutside p); discriminate.
Qed.

Lemma checkPlayers_total (M : MathLib) (hash : SpatialHash) (pids : list string) :
  forall s, Forall wellFormed s -> checkPlayers M hash pids s <> None.
Proof.
  induction pids as [|pid rest IH]; intros s Hs; simpl; [discriminate|].
  pose proof (checkPlayer_total M hash s pid Hs) as Ht.
  destruct (checkPlayer M hash s pid) as [s1|] eqn:H1; [|now elim Ht].
  apply IH.
  apply (checkPlayer_inv M wellFormed wellFormed_own wellFormed_kill hash s s1 pid H1 Hs).
Qed.

Lemma update_fails (M : MathLib) (fuel : nat) (dt : float) :
  forall s, update M fuel dt s = None ->
    exists p, In p s /\ isDead p = false /\
      normalizeDiff fuel
        (targetAngle p
         - Math_atan2 M (Math_sin M (angle p)) (Math_cos M (angle p))) = None.
Proof.
  induction s as [|p s IH]; simpl; [discriminate|].
  destruct (updatePlayer M fuel dt p) as [p'|] eqn:Hp.
  - destruct (update M fuel dt s) as [r|]; [discriminate|].
    intros _. destruct (IH eq_refl) as (q & Hq & H). exists q. split; [now right|exact H].
  - intros _. exists p. split; [now left|].
    revert Hp. unfold updatePlayer. destruct (isDead p); [discriminate|].
    split; [reflexivity|].
    revert Hp. unfold updatePlayerMovement.
    destruct (0 <? invulnerableTimer p); simpl;
      destruct (normalizeDiff _ _); try discriminate; reflexivity.
Qed.

(** X14. From every state the room can reach, the capture and collision
    pass completes: no boundary walk of a capture runs forever.  The only
    step that can fail to return from such a state is the movement update,
    and only because the steering loop of a live player does not end
    within the fuel. *)
Theorem reachable_pass_completes (M : MathLib) (fuel : nat) (evs : list Event)
    (s : GameState) :
  run M fuel evs newGameState = Some s ->
  (exists s', checkCaptureAndCollisions M s = Some s') /\
  (forall ev, step M fuel ev s = None ->
     exists dt p, ev = EvUpdate dt /\ In p s /\ isDead p = false /\
       normalizeDiff fuel
         (targetAngle p
          - Math_atan2 M (Math_sin M (angle p)) (Math_cos M (angle p))) = None).
Proof.
  intro Hrun. apply reachable_wellFormed in Hrun.
  pose proof (checkPlayers_total M (buildSpatialHash (getAllPlayers s))
                (map id (getAllPlayers s)) s Hrun) as Ht.
  assert (Hpass : exists s', checkCaptureAndCollisions M s = Some s').
  { unfold checkCaptureAndCollisions.
    destruct (checkPlayers M _ _ s) as [s'|]; [now exists s'|now elim Ht]. }
  split; [exact Hpass|].
  intros ev Hev. destruct ev; simpl in Hev; try discriminate.
  - destruct (update_fails M fuel dt s Hev) as (p & H). exists dt, p. auto.
  - destruct Hpass as [s' Hs']. congruence.
Qed.

Lemma reachable_pass_completes_witness :
  (exists s', checkCaptureAndCollisions RefMath.lib firstFramesState = Some s') /\
  (forall ev, step RefMath.lib 8 ev firstFramesState = None ->
     exists dt p, ev = EvUpdate dt /\ In p firstFramesState /\ isDead p = false /\
       normalizeDiff 8
         (targetAngle p
          - Math_atan2 RefMath.lib (Math_sin RefMath.lib (angle p))
              (Math_cos RefMath.lib (angle p))) = None).
Proof.
  apply (reachable_pass_completes RefMath.lib 8 firstFrames firstFramesState).
  vm_compute. reflexivity.
Defined.

(** ** GameRoom.ts: one pass, player by player *)

Lemma killPlayer_idem (p : Player) : killPlayer (killPlayer p) = killPlayer p.
Proof. reflexivity. Qed.

Lemma slot_kill (M : MathLib) (rest : list string) (p v : Player) :
  slot M rest p v -> isDead p = false -> isOutside v = true ->
  slot M rest p (killPlayer v).
Proof.
  intros (Hid & Hpre & Hpost) Hd Hout. split; [exact Hid|]. split.
  - intro Hin. destruct (Hpre Hin) as [->|(H1 & H2 & ->)].
    + right. auto.
    + right. auto.
  - intro Hin. destruct (Hpost Hin) as [[H1 _]|[(H1 & H2 & ->)|(H1 & q & jc & Hc & H)]].
    + congruence.
    + right. left. auto.
    + right. right. split; [exact H1|]. exists q, jc. split; [exact Hc|].
      destruct H as [->|[H2 ->]]; right; auto.
Qed.

Lemma slot_id (M : MathLib) (rest : list string) (p c : Player) :
  slot M rest p c -> id c = id p.
Proof. now intros (H & _). Qed.

Lemma slot_weaken (M : MathLib) (pid : string) (rest : list string) (p c : Player) :
  slot M (pid :: rest) p c -> id p <> pid -> slot M rest p c.
Proof.
  intros (Hid & Hpre & Hpost) Hne. split; [exact Hid|]. split.
  - intro Hin. apply Hpre. now right.
  - intro Hin. apply Hpost. intros [H|H]; [congruence|auto].
Qed.

Lemma getPlayer_None_ids (s : GameState) (pid : string) :
  getPlayer s pid = None <-> ~ In pid (map id s).
Proof.
  unfold getPlayer. induction s as [|a s IH]; simpl; [tauto|].
  destruct (String.eqb (id a) pid) eqn:E.
  - apply String.eqb_eq in E. split; [discriminate|]. intro H. elim H. now left.
  - apply String.eqb_neq in E. rewrite IH. tauto.
Qed.

Lemma getPlayer_unique (s : GameState) (p : Player) :
  NoDup (map id s) -> In p s -> getPlayer s (id p) = Some p.
Proof.
  unfold getPlayer. induction s as [|a s IH]; simpl; [tauto|].
  intros Hnd [->|Hin].
  - now rewrite String.eqb_refl.
  - inversion Hnd; subst.
    destruct (String.eqb (id a) (id p)) eqn:E; [|auto].
    apply String.eqb_eq in E. elim H1. rewrite E. now apply in_map.
Qed.

Lemma setPlayer_stored (s : GameState) (pid : string) (c : Player) :
  getPlayer s pid = Some c -> setPlayer s c = s.
Proof.
  unfold getPlayer. induction s as [|a s IH]; simpl; [discriminate|].
  destruct (String.eqb (id a) pid) eqn:E.
  - intros [= ->]. now rewrite String.eqb_refl.
  - intro H. pose proof H as H'. apply find_some in H'. destruct H' as [_ H'].
    apply String.eqb_eq in H'. rewrite H'. rewrite E. f_equal. auto.
Qed.

(** Storing a related player keeps the slots related. *)
Lemma Forall2_setPlayer (Q : Player -> Player -> Prop) (s0 cur : GameState)
    (c' : Player) :
  (forall p c, Q p c -> id c = id p) ->
  Forall2 Q s0 cur ->
  forall p, getPlayer s0 (id c') = Some p -> Q p c' ->
  Forall2 Q s0 (setPlayer cur c').
Proof.
  intros Qid H. induction H as [|a b s0 cur Hab Hrest IH]; intros p; simpl;
    [discriminate|].
  rewrite (Qid a b Hab).
  destruct (String.eqb (id a) (id c')).
  - intros [= ->] Hq. constructor; [exact Hq|assumption].
  - intros Hget Hq. constructor; [exact Hab|eauto].
Qed.

Lemma Forall2_getPlayer (Q : Player -> Player -> Prop) (s0 cur : GameState) :
  (forall p c, Q p c -> id c = id p) ->
  Forall2 Q s0 cur ->
  forall pid c, getPlayer cur pid = Some c ->
  exists p, getPlayer s0 pid = Some p /\ Q p c.
Proof.
  intros Qid H. induction H as [|a b s0 cur Hab _ IH]; intros pid c; simpl;
    [discriminate|].
  rewrite (Qid a b Hab).
  destruct (String.eqb (id a) pid).
  - intros [= <-]. eauto.
  - apply IH.
Qed.

(** The turn of [pid] is over: its slot holds a processed player. *)
Lemma slots_turn (M : MathLib) (pid : string) (rest : list string)
    (s0 cur : GameState) (p c' : Player) :
  NoDup (map id s0) -> ~ In pid rest ->
  Forall2 (slot M (pid :: rest)) s0 cur ->
  getPlayer s0 pid = Some p -> processed M p c' -> id c' = pid ->
  Forall2 (slot M rest) s0 (setPlayer cur c').
Proof.
  intros Hnd Hnot H. revert Hnd.
  induction H as [|a b s0 cur Hab Hrest IH]; intros Hnd; simpl;
    [discriminate|].
  inversion Hnd as [|? ? Hnotin Hnd']; subst.
  rewrite (slot_id _ _ _ _ Hab).
  destruct (String.eqb (id a) pid) eqn:E.
  - intros [= ->] Hproc Hid. rewrite Hid, E.
    apply String.eqb_eq in E.
    constructor.
    + split; [congruence|]. split; [intro Hin; elim Hnot; congruence|auto].
    + clear IH. revert Hnotin. clear - Hrest E. intro Hnotin.
      induction Hrest as [|a' b' s0 cur Hab' _ IH]; constructor.
      * apply slot_weaken with (1 := Hab').
        intro Heq. apply Hnotin. simpl. left. congruence.
      * apply IH. intro Hin. apply Hnotin. simpl. now right.
  - intros Hget Hproc Hid. rewrite Hid, E.
    apply String.eqb_neq in E.
    constructor; [now apply slot_weaken with (1 := Hab)|].
    now apply IH.
Qed.

(** A turn for an [id] that the map does not hold. *)
Lemma slots_absent (M : MathLib) (pid : string) (rest : list string)
    (s0 cur : GameState) :
  Forall2 (slot M (pid :: rest)) s0 cur ->
  getPlayer cur pid = None ->
  Forall2 (slot M rest) s0 cur.
Proof.
  intro H. induction H as [|a b s0 cur Hab _ IH]; simpl; [constructor|].
  unfold getPlayer in *. simpl.
  destruct (String.eqb (id b) pid) eqn:E; [discriminate|].
  intro Hget. apply String.eqb_neq in E. constructor; [|auto].
  apply slot_weaken with (1 := Hab). rewrite <- (slot_id _ _ _ _ Hab). exact E.
Qed.

Section Pass.

Variable M : MathLib.
Variable s0 : GameState.
Hypothesis s0_unique : NoDup (map id s0).

(** The owner of an item of the hash of the pass was alive at the start. *)
Lemma segmentOf_owner (item : Item) :
  segmentOf s0 item ->
  exists p, getPlayer s0 (itemPlayerId item) = Some p /\ isDead p = false.
Proof.
  intros (p & Hin & Hdead & Hid & _). exists p. split; [|exact Hdead].
  rewrite Hid. now apply getPlayer_unique.
Qed.

Lemma cutForeignTrail_slots (rest : list string) (player : Player)
    (prevPos currentPos : Point) (item : Item) (g : GameState) :
  segmentOf s0 item ->
  Forall2 (slot M rest) s0 g ->
  Forall2 (slot M rest) s0 (cutForeignTrail player prevPos currentPos item g).
Proof.
  intros Hseg Hg. unfold cutForeignTrail.
  destruct (_ && _); [|exact Hg].
  destruct (segmentsIntersect _ _ _ _); [|exact Hg].
  destruct (getPlayer g (itemPlayerId item)) as [victim|] eqn:Hv; [|exact Hg].
  destruct (isOutside victim) eqn:Hout; [|exact Hg].
  destruct (Forall2_getPlayer _ _ _ (slot_id M rest) Hg _ _ Hv) as (p & Hp & Hs).
  destruct (segmentOf_owner item Hseg) as (p' & Hp' & Hd).
  assert (p' = p) by congruence. subst p'.
  apply getPlayer_In in Hv. destruct Hv as [_ Hvid].
  apply (Forall2_setPlayer _ _ _ _ (slot_id M rest) Hg p).
  - simpl. now rewrite Hvid.
  - now apply slot_kill.
Qed.

Lemma collisionLoop_slots (rest : list string) (player p : Player)
    (isInside : bool) (prevPos currentPos : Point) :
  isOutside player = true ->
  getPlayer s0 (id player) = Some p -> isDead p = false ->
  forall (nearby : list Item) (g : GameState),
    (forall item, In item nearby -> segmentOf s0 item) ->
    Forall2 (slot M rest) s0 g ->
    getPlayer g (id player) = Some player ->
    Forall2 (slot M rest) s0
      (collisionLoop M player isInside prevPos currentPos nearby g).
Proof.
  intros Hout Hp Hd. induction nearby as [|item nearby IH]; intros g Hseg Hg Hget;
    simpl; [exact Hg|].
  assert (H1 : Forall2 (slot M rest) s0
                 (cutForeignTrail player prevPos currentPos item g))
    by (apply cutForeignTrail_slots; [apply Hseg; now left|exact Hg]).
  assert (H2 : getPlayer (cutForeignTrail player prevPos currentPos item g)
                 (id player) = Some player).
  { apply (cutForeignTrail_lift (fun _ _ => True) (fun _ => Logic.I)
             (fun _ _ => Logic.I)); exact Hget. }
  destruct (hitsOwnTrail M player isInside prevPos currentPos item).
  - apply (Forall2_setPlayer _ _ _ _ (slot_id M rest) H1 p); [exact Hp|].
    apply slot_kill; [|exact Hd|exact Hout].
    destruct (Forall2_getPlayer _ _ _ (slot_id M rest) H1 _ _ H2) as (p' & Hp' & Hs).
    congruence.
  - apply IH; [intros it Hit; apply Hseg; now right|exact H1|exact H2].
Qed.

Lemma checkPlayer_slots (pid : string) (rest : list string) (cur cur' : GameState) :
  ~ In pid rest ->
  Forall2 (slot M (pid :: rest)) s0 cur ->
  checkPlayer M (buildSpatialHash s0) cur pid = Some cur' ->
  Forall2 (slot M rest) s0 cur'.
Proof.
  intros Hnot Hcur. unfold checkPlayer.
  destruct (getPlayer cur pid) as [c|] eqn:Hget;
    [|intros [= <-]; now apply slots_absent with (pid := pid)].
  destruct (Forall2_getPlayer _ _ _ (slot_id M (pid :: rest)) Hcur _ _ Hget)
    as (p & Hp & Hid & Hpre & _).
  apply getPlayer_In in Hp as Hp'. destruct Hp' as [_ Hpid].
  assert (Hin : In (id p) (pid :: rest)) by (left; congruence).
  specialize (Hpre Hin).
  apply getPlayer_In in Hget as Hc. destruct Hc as [_ Hcid].
  destruct (isDead c) eqn:Hdead.
  - intros [= <-]. rewrite <- (setPlayer_stored cur pid c Hget).
    apply slots_turn with (pid := pid) (p := p); auto.
    destruct Hpre as [->|(H1 & H2 & ->)]; [left; auto|right; left; auto].
  - assert (c = p) by (destruct Hpre as [->|(_ & _ & ->)]; [reflexivity|discriminate]).
    subst c.
    destruct (capturePhase M p) as [[q jc]|] eqn:Hcap; [|discriminate].
    pose proof (capturePhase_identity M p q jc Hcap) as (Hqid & _).
    assert (Hown : processed M p (afterCapture q jc)).
    { right. right. split; [exact Hdead|]. exists q, jc. auto. }
    assert (Haid : id (afterCapture q jc) = pid).
    { unfold afterCapture. destruct jc; [congruence|].
      destruct (_ <=? _); [|congruence].
      destruct (winBranch_facts q) as (Wid & _). congruence. }
    assert (Hstore : Forall2 (slot M rest) s0 (setPlayer cur (afterCapture q jc)))
      by (apply slots_turn with (pid := pid) (p := p); auto).
    unfold afterCapture in Hstore, Hown, Haid.
    destruct jc; [intros [= <-]; exact Hstore|].
    destruct (winThreshold <=? score q); [intros [= <-]; exact Hstore|].
    destruct (isOutside q) eqn:Hout; intros [= <-]; [|exact Hstore].
    apply collisionLoop_slots with (p := p); auto.
    + congruence.
    + intros item Hitem. now apply buildSpatialHash_sound in Hitem.
    + apply getPlayer_setPlayer_same.
Qed.

Lemma checkPlayers_slots (pids : list string) :
  NoDup pids ->
  forall cur cur',
    Forall2 (slot M pids) s0 cur ->
    checkPlayers M (buildSpatialHash s0) pids cur = Some cur' ->
    Forall2 (slot M []) s0 cur'.
Proof.
  induction pids as [|pid rest IH]; intros Hnd cur cur' Hcur; simpl.
  - now intros [= <-].
  - inversion Hnd as [|? ? Hnot Hnd']; subst.
    destruct (checkPlayer M (buildSpatialHash s0) cur pid) as [cur1|] eqn:Hc1;
      [|discriminate].
    apply IH; [assumption|].
    now apply checkPlayer_slots with (pid := pid) (cur := cur).
Qed.

Lemma pass_processed (s' : GameState) :
  checkCaptureAndCollisions M s0 = Some s' -> Forall2 (processed M) s0 s'.
Proof.
  unfold checkCaptureAndCollisions, getAllPlayers. intro H.
  apply checkPlayers_slots in H; [|exact s0_unique|].
  - clear - H. induction H as [|a b s0 s' (_ & _ & Hab) _ IH]; constructor; auto.
  - clear. assert (Hall : forall p, In p s0 -> In (id p) (map id s0))
      by (intros p Hp; now apply in_map).
    revert Hall. generalize (map id s0) as ids.
    induction s0 as [|a s IH]; intros ids Hall; constructor.
    + split; [reflexivity|]. split; [intros _; now left|].
      intro Hn. elim Hn. apply Hall. now left.
    + apply IH. intros p Hp. apply Hall. now right.
Qed.

End Pass.

(** X15. In a pass over a map with distinct ids every player is handled
    once, on the state it had when the pass began: a player that was dead
    is left exactly as it was; a live one is either killed before its turn
    (it was outside), or its capture phases run on that initial state and
    it is stored as they leave it (after the victory test), after which it
    can still be killed if it is outside.  Being killed is the only thing
    another player's turn can do to it. *)
Theorem pass_player_by_player (M : MathLib) (s s' : GameState) :
  NoDup (map id s) ->
  checkCaptureAndCollisions M s = Some s' ->
  Forall2
    (fun p p' =>
       processed M p p' /\
       (isDead p = true -> p' = p) /\
       (isDead p = false -> isOutside p = false ->
        exists q jc, capturePhase M p = Some (q, jc) /\
          (p' = afterCapture q jc \/ p' = killPlayer (afterCapture q jc))))
    s s'.
Proof.
  intros Hnd Hpass.
  pose proof (pass_processed M s Hnd s' Hpass) as H. clear Hnd Hpass.
  induction H as [|p p' s s' Hp _ IH]; constructor; [|exact IH].
  split; [exact Hp|]. split.
  - intro Hd.
    destruct Hp as [[_ ->]|[(H1 & _)|(H1 & _)]]; [reflexivity|congruence|congruence].
  - intros Hd Ho.
    destruct Hp as [[H1 _]|[(_ & H1 & _)|(_ & q & jc & Hc & H)]];
      [congruence|congruence|].
    exists q, jc. split; [exact Hc|]. destruct H as [->|[_ ->]]; auto.
Qed.

Lemma pass_player_by_player_witness :
  Forall2
    (fun p p' =>
       processed RefMath.lib p p' /\
       (isDead p = true -> p' = p) /\
       (isDead p = false -> isOutside p = false ->
        exists q jc, capturePhase RefMath.lib p = Some (q, jc) /\
          (p' = afterCapture q jc \/ p' = killPlayer (afterCapture q jc))))
    crossingState crossingAfter.
Proof.
  apply (pass_player_by_player RefMath.lib crossingState crossingAfter).
  - repeat constructor; simpl; intuition discriminate.
  - vm_compute. reflexivity.
Defined.

(** ** The map never holds two players under one id *)

Lemma setPlayer_ids (s : GameState) (q : Player) :
  map id (setPlayer s q) = map id s \/
  (~ In (id q) (map id s) /\ map id (setPlayer s q) = map id s ++ [id q]).
Proof.
  induction s as [|a s IH]; simpl.
  - right. auto.
  - destruct (String.eqb (id a) (id q)) eqn:E.
    + left. simpl. apply String.eqb_eq in E. now rewrite E.
    + apply String.eqb_neq in E. simpl.
      destruct IH as [->|[Hn ->]]; [now left|].
      right. split; [|reflexivity]. intros [H|H]; auto.
Qed.

Lemma setPlayer_unique (s : GameState) (q : Player) :
  NoDup (map id s) -> NoDup (map id (setPlayer s q)).
Proof.
  intro H. destruct (setPlayer_ids s q) as [->|[Hn ->]]; [exact H|].
  apply NoDup_app; [exact H|repeat constructor; simpl; tauto|].
  intros z Hz [<-|[]]. exact (Hn Hz).
Qed.

Lemma filter_unique (f : Player -> bool) (s : GameState) :
  NoDup (map id s) -> NoDup (map id (filter f s)).
Proof.
  induction s as [|a s IH]; simpl; [auto|].
  intro H. inversion H; subst.
  destruct (f a); simpl; [|auto].
  constructor; [|auto].
  intro Hin. apply in_map_iff in Hin. destruct Hin as (z & Hz & Hin).
  apply filter_In in Hin. destruct Hin as [Hin _].
  apply H2. rewrite <- Hz. now apply in_map.
Qed.

Lemma Forall2_ids (T : Player -> Player -> Prop) (s s' : GameState) :
  (forall p q, T p q -> id q = id p) -> Forall2 T s s' -> map id s' = map id s.
Proof.
  intros Tid H. induction H as [|a b s s' Hab _ IH]; simpl; [reflexivity|].
  now rewrite (Tid a b Hab), IH.
Qed.

Lemma step_unique (M : MathLib) (fuel : nat) (ev : Event) (s s' : GameState) :
  step M fuel ev s = Some s' -> NoDup (map id s) -> NoDup (map id s').
Proof.
  destruct (keepsPlayers ev) eqn:Hk.
  - intros Hstep Hs.
    apply keepsPlayers_wonStep with (1 := Hk) in Hstep.
    rewrite (Forall2_ids wonStep s s'); [exact Hs| |exact Hstep].
    now intros p q [H _].
  - destruct ev; try discriminate; simpl; intros [= <-] Hs.
    + now apply setPlayer_unique.
    + now apply filter_unique.
Qed.

Lemma reachable_unique (M : MathLib) (fuel : nat) (evs : list Event) :
  forall s s', run M fuel evs s = Some s' -> NoDup (map id s) -> NoDup (map id s').
Proof.
  induction evs as [|ev evs IH]; intros s s'; simpl.
  - now intros [= <-].
  - destruct (step M fuel ev s) as [s1|] eqn:H1; [|discriminate].
    intros Hrun Hs. apply (IH s1 s' Hrun). now apply step_unique with (1 := H1).
Qed.

(** ** GameRoom.ts: findSpawnPosition *)

Lemma attempt_loop_spec (M : MathLib) (random : nat -> float) (ok : Point -> bool) :
  forall (attempts calls : nat),
    match GameRoom.attempt_loop M random ok attempts calls with
    | (Some pos, calls') =>
        exists k, (k < attempts)%nat /\
          pos = GameRoom.candidate M random (calls + 2 * k) /\
          ok pos = true /\ calls' = (calls + 2 * (k + 1))%nat
    | (None, calls') => calls' = (calls + 2 * attempts)%nat
    end.
Proof.
  induction attempts as [|attempts IH]; intro calls; simpl.
  - lia.
  - destruct (ok (GameRoom.candidate M random calls)) eqn:E.
    + exists 0%nat. rewrite Nat.add_0_r. repeat apply conj; auto; lia.
    + specialize (IH (S (S calls))).
      destruct (GameRoom.attempt_loop M random ok attempts (S (S calls)))
        as [[pos|] calls'].
      * destruct IH as (k & Hk & Hpos & Hok & Hc). exists (S k).
        repeat apply conj; try lia; auto.
        rewrite Hpos. f_equal. lia.
      * lia.
Qed.

Lemma valid_loop_safe (M : MathLib) (pos : Point) (players : list Player) :
  GameRoom.valid_loop pos players = true ->
  Forall
    (fun p =>
       isDead p = false ->
       isPointInPolygon pos (territory p) = false /\
       (GameRoom.minDist_loop pos (territory p) infinity
        <? STARTING_TERRITORY_SIZE / 2 + 5 + 100) = false)
    players.
Proof.
  induction players as [|p players IH]; simpl; [constructor|].
  destruct (isDead p) eqn:Hd.
  - intro H. constructor; [intro; congruence|exact (IH H)].
  - destruct (isPointInPolygon pos (territory p)) eqn:Hin; [discriminate|].
    destruct (_ <? _) eqn:E; [discriminate|].
    intro H. constructor; [intros _; split; [exact Hin|exact E]|exact (IH H)].
Qed.

Lemma inside_loop_safe (pos : Point) (players : list Player) :
  GameRoom.inside_loop pos players = false ->
  Forall (fun p => isDead p = false -> isPointInPolygon pos (territory p) = false)
    players.
Proof.
  induction players as [|p players IH]; simpl; [constructor|].
  destruct (isDead p) eqn:Hd.
  - intro H. constructor; [intro; congruence|exact (IH H)].
  - destruct (isPointInPolygon pos (territory p)) eqn:Hin; [discriminate|].
    intro H. constructor; [intros _; exact Hin|exact (IH H)].
Qed.

(** X16. [findSpawnPosition] draws two random numbers per attempt.  The
    position it returns is one of its random candidates and lies inside
    the territory of no live player -- and, when one of the first hundred
    attempts succeeds, no closer than the safe distance to any vertex of
    such a territory -- unless all two hundred attempts fail, in which
    case it is the centre of the world. *)
Theorem findSpawnPosition_safe (M : MathLib) (random : nat -> float)
    (players : GameState) (calls : nat) :
  let pos := fst (GameRoom.findSpawnPosition M random players calls) in
  let calls' := snd (GameRoom.findSpawnPosition M random players calls) in
  (pos = mkPoint (WORLD_WIDTH / 2) (WORLD_HEIGHT / 2) /\ calls' = (calls + 400)%nat) \/
  (exists k, (k < 200)%nat /\
     pos = GameRoom.candidate M random (calls + 2 * k) /\
     calls' = (calls + 2 * (k + 1))%nat /\
     Forall (fun p => isDead p = false -> isPointInPolygon pos (territory p) = false)
       players /\
     ((k < 100)%nat ->
      Forall
        (fun p =>
           isDead p = false ->
           (GameRoom.minDist_loop pos (territory p) infinity
            <? STARTING_TERRITORY_SIZE / 2 + 5 + 100) = false)
        players)).
Proof.
  unfold GameRoom.findSpawnPosition, getAllPlayers.
  pose proof (attempt_loop_spec M random
                (fun pos => GameRoom.valid_loop pos players) 100 calls) as H1.
  destruct (GameRoom.attempt_loop M random _ 100 calls) as [[pos|] calls1].
  - destruct H1 as (k & Hk & Hpos & Hok & Hc). simpl. right.
    exists k. apply (valid_loop_safe M) in Hok.
    repeat apply conj; auto; try lia.
    + revert Hok. apply Forall_impl. intros p H Hd. now apply H.
    + intros _. revert Hok. apply Forall_impl. intros p H Hd. now apply H.
  - pose proof (attempt_loop_spec M random
                  (fun pos => negb (GameRoom.inside_loop pos players)) 100 calls1)
      as H2.
    destruct (GameRoom.attempt_loop M random _ 100 calls1) as [[pos|] calls2].
    + destruct H2 as (k & Hk & Hpos & Hok & Hc). simpl. right.
      exists (100 + k)%nat. apply negb_true_iff, inside_loop_safe in Hok.
      repeat apply conj; auto; try lia.
      rewrite Hpos. f_equal. lia.
    + simpl. left. split; [reflexivity|lia].
Qed.

(** ** ai/BotBrain.ts: what a bot can do *)

Lemma steerTowardsTerritory_input (M : MathLib) (bot : BotBrain.t) (player : Player)
    (game : GameState) :
  BotBrain.steerTowardsTerritory M bot player game = game \/
  exists a,
    BotBrain.steerTowardsTerritory M bot player game
    = setPlayerInput game (BotBrain.playerId bot) a.
Proof.
  unfold BotBrain.steerTowardsTerritory.
  destruct (_ =? _)%nat; [now left|right]. eauto.
Qed.

Lemma BotBrain_update_cases (M : MathLib) (random : nat -> float)
    (bot : BotBrain.t) (dt : float) (game : GameState) (calls : nat) :
  let bot' := fst (fst (BotBrain.update M random bot dt game calls)) in
  let game' := snd (fst (BotBrain.update M random bot dt game calls)) in
  let calls' := snd (BotBrain.update M random bot dt game calls) in
  BotBrain.playerId bot' = BotBrain.playerId bot /\
  (calls' = calls \/ calls' = S (S calls)) /\
  (game' = game \/
   exists a p,
     getPlayer game (BotBrain.playerId bot) = Some p /\ isDead p = false /\
     game' = setPlayerInput game (BotBrain.playerId bot) a) /\
  ((BotBrain.aiUpdateTimer bot + dt <? BotBrain.AI_UPDATE_INTERVAL) = true ->
   game' = game /\ calls' = calls /\
   BotBrain.aiUpdateTimer bot' = BotBrain.aiUpdateTimer bot + dt).
Proof.
  unfold BotBrain.update.
  destruct (BotBrain.aiUpdateTimer bot + dt <? BotBrain.AI_UPDATE_INTERVAL) eqn:Ht.
  - simpl. auto 10.
  - simpl BotBrain.playerId.
    destruct (getPlayer game (BotBrain.playerId bot)) as [player|] eqn:Hget;
      [|simpl; repeat apply conj; auto; discriminate].
    destruct (isDead player) eqn:Hd;
      [simpl; repeat apply conj; auto; discriminate|].
    destruct (_ <? Math_sqrt _).
    + simpl. repeat apply conj; auto; [|discriminate].
      right. eauto.
    + unfold BotBrain.processBehavior. simpl BotBrain.playerId.
      simpl BotBrain.changeDirTimer. simpl BotBrain.isReturning.
      destruct ((40 <? _)%nat && isOutside player).
      * simpl. repeat apply conj; auto; [|discriminate].
        destruct (steerTowardsTerritory_input M
                    (BotBrain.mk (BotBrain.playerId bot) (BotBrain.changeDirTimer bot)
                       (BotBrain.isReturning bot) 0) player game) as [->|[a ->]];
          [now left|right; eauto].
      * destruct (_ <=? 0).
        -- destruct (_ && isOutside player).
           ++ simpl. repeat apply conj; auto; [|discriminate].
              destruct (steerTowardsTerritory_input M
                    (BotBrain.mk (BotBrain.playerId bot) (BotBrain.changeDirTimer bot)
                       (BotBrain.isReturning bot) 0) player game) as [->|[a ->]];
                [now left|right; eauto].
           ++ simpl. repeat apply conj; auto; [|discriminate].
              right. eauto.
        -- simpl. repeat apply conj; auto; discriminate.
Qed.

(** X17. One call of [BotBrain.update] leaves the game as it is or makes
    exactly one [setPlayerInput] for the bot's own player, and only for a
    player that exists and is alive; it keeps the bot's [playerId], draws
    at most two random numbers, and does nothing at all to the game while
    the AI timer is below [AI_UPDATE_INTERVAL]. *)
Theorem BotBrain_update_frame (M : MathLib) (random : nat -> float)
    (bot : BotBrain.t) (dt : float) (game : GameState) (calls : nat) :
  let bot' := fst (fst (BotBrain.update M random bot dt game calls)) in
  let game' := snd (fst (BotBrain.update M random bot dt game calls)) in
  let calls' := snd (BotBrain.update M random bot dt game calls) in
  BotBrain.playerId bot' = BotBrain.playerId bot /\
  (calls' = calls \/ calls' = S (S calls)) /\
  (game' = game \/
   exists a p,
     getPlayer game (BotBrain.playerId bot) = Some p /\ isDead p = false /\
     game' = setPlayerInput game (BotBrain.playerId bot) a) /\
  ((BotBrain.aiUpdateTimer bot + dt <? BotBrain.AI_UPDATE_INTERVAL) = true ->
   game' = game /\ calls' = calls /\
   BotBrain.aiUpdateTimer bot' = BotBrain.aiUpdateTimer bot + dt).
Proof. apply BotBrain_update_cases. Qed.

(** ** GameRoom.ts: the room acts on the game through the game's own
    operations *)

Lemma run_app (M : MathLib) (fuel : nat) (evs1 evs2 : list Event) :
  forall g g1, run M fuel evs1 g = Some g1 ->
    run M fuel (evs1 ++ evs2) g = run M fuel evs2 g1.
Proof.
  induction evs1 as [|ev evs1 IH]; intros g g1; simpl.
  - now intros [= <-].
  - destruct (step M fuel ev g) as [g'|]; [apply IH|discriminate].
Qed.

Lemma flagCleared_refl (s : GameState) : Forall2 flagCleared s s.
Proof. induction s; constructor; [now left|assumption]. Qed.

Lemma syncPlayer_flag (player : Player) (playerState : PlayerState.t) :
  flagCleared player (fst (GameRoom.syncPlayer player playerState)).
Proof.
  unfold GameRoom.syncPlayer. destruct (_ || _); [now right|now left].
Qed.

Lemma syncLoop_flags :
  forall (players : list Player) (state : list (string * PlayerState.t)),
    Forall2 flagCleared players (fst (GameRoom.syncLoop players state)).
Proof.
  induction players as [|player rest IH]; intro state; simpl; [constructor|].
  destruct (mapGet state (id player)) as [playerState|].
  - pose proof (syncPlayer_flag player playerState) as Hf.
    destruct (GameRoom.syncPlayer player playerState) as [player' playerState'].
    specialize (IH (mapSet state (id player) playerState')).
    destruct (GameRoom.syncLoop rest _) as [rest' state'].
    constructor; assumption.
  - specialize (IH state).
    destruct (GameRoom.syncLoop rest state) as [rest' state'].
    constructor; [now left|assumption].
Qed.

Lemma botTurn_refines (M : MathLib) (random : nat -> float) (fuel : nat)
    (room : GameRoom.t) (botId : string) (dt : float) :
  exists evs,
    run M fuel evs (GameRoom.game room)
    = Some (GameRoom.game (GameRoom.botTurn M random room botId dt)).
Proof.
  unfold GameRoom.botTurn.
  destruct (mapGet (GameRoom.bots room) botId) as [bot|]; [|now exists []].
  destruct (getPlayer (GameRoom.game room) botId) as [player|]; [|now exists []].
  destruct (isDead player && (1 <? deathTimer player)).
  - now exists [EvRemove botId].
  - destruct (negb (isDead player)); [|now exists []].
    pose proof (BotBrain_update_cases M random bot dt (GameRoom.game room)
                  (GameRoom.randomCalls room)) as (_ & _ & Hg & _).
    destruct (BotBrain.update M random bot dt (GameRoom.game room)
                (GameRoom.randomCalls room)) as [[bot' game'] calls].
    simpl in Hg |- *.
    destruct Hg as [->|(a & p & _ & _ & ->)]; [now exists []|].
    now exists [EvInput (BotBrain.playerId bot) a].
Qed.

Lemma botTurns_refines (M : MathLib) (random : nat -> float) (fuel : nat)
    (dt : float) (botIds : list string) :
  forall room,
    exists evs,
      run M fuel evs (GameRoom.game room)
      = Some (GameRoom.game
                (fold_left (fun r botId => GameRoom.botTurn M random r botId dt)
                   botIds room)).
Proof.
  induction botIds as [|botId rest IH]; intro room; simpl; [now exists []|].
  destruct (botTurn_refines M random fuel room botId dt) as [evs1 H1].
  destruct (IH (GameRoom.botTurn M random room botId dt)) as [evs2 H2].
  exists (evs1 ++ evs2). now rewrite (run_app M fuel evs1 evs2 _ _ H1).
Qed.

Lemma spawnBot_refines (M : MathLib) (random : nat -> float)
    (base36 : float -> string) (fuel : nat) (room : GameRoom.t) :
  exists evs,
    run M fuel evs (GameRoom.game room)
    = Some (GameRoom.game (GameRoom.spawnBot M random base36 room)).
Proof.
  unfold GameRoom.spawnBot.
  destruct (GameRoom.findSpawnPosition M random (GameRoom.game room) _)
    as [spawn calls].
  eexists [EvCreate _ _ _ _]. simpl. reflexivity.
Qed.

Lemma spawnBots_refines (M : MathLib) (random : nat -> float)
    (base36 : float -> string) (fuel : nat) (l : list nat) :
  forall room,
    exists evs,
      run M fuel evs (GameRoom.game room)
      = Some (GameRoom.game
                (fold_left (fun r _ => GameRoom.spawnBot M random base36 r) l room)).
Proof.
  induction l as [|n l IH]; intro room; simpl; [now exists []|].
  destruct (spawnBot_refines M random base36 fuel room) as [evs1 H1].
  destruct (IH (GameRoom.spawnBot M random base36 room)) as [evs2 H2].
  exists (evs1 ++ evs2). now rewrite (run_app M fuel evs1 evs2 _ _ H1).
Qed.

Lemma roomStep_game (M : MathLib) (random : nat -> float)
    (base36 : float -> string) (fuel : nat) (ev : RoomEvent)
    (room room' : GameRoom.t) :
  roomStep M random base36 fuel ev room = Some room' ->
  exists evs g,
    run M fuel evs (GameRoom.game room) = Some g /\
    Forall2 flagCleared g (GameRoom.game room').
Proof.
  destruct ev as [sessionId username|sessionId|sessionId a|dt|]; simpl.
  - intros [= <-]. unfold GameRoom.onJoin.
    destruct (GameRoom.findSpawnPosition M random (GameRoom.game room) _)
      as [spawn calls].
    eexists [EvCreate _ _ _ _], _. simpl. split; [reflexivity|].
    apply flagCleared_refl.
  - intros [= <-]. exists [EvRemove sessionId], (removePlayer (GameRoom.game room) sessionId).
    split; [reflexivity|apply flagCleared_refl].
  - intros [= <-]. exists [EvInput sessionId a], (setPlayerInput (GameRoom.game room) sessionId a).
    split; [reflexivity|apply flagCleared_refl].
  - unfold GameRoom.update.
    destruct (update M fuel dt (GameRoom.game room)) as [game1|] eqn:Hu;
      [|discriminate].
    set (room0 := GameRoom.mk game1 _ _ _ _).
    destruct (botTurns_refines M random fuel dt (map fst (GameRoom.bots room0)) room0)
      as [evs Hb].
    fold (GameRoom.botTurns M random room0 dt) in Hb.
    destruct (checkCaptureAndCollisions M (GameRoom.game (GameRoom.botTurns M random room0 dt)))
      as [game2|] eqn:Hc; [|discriminate].
    intros [= <-].
    exists (EvUpdate dt :: evs ++ [EvCheck]), game2. split.
    + simpl. rewrite Hu.
      rewrite (run_app M fuel evs [EvCheck] game1 _ Hb). simpl. now rewrite Hc.
    + unfold GameRoom.syncState, getAllPlayers. simpl.
      pose proof (syncLoop_flags game2
                    (GameRoom.state (GameRoom.botTurns M random room0 dt))) as Hf.
      destruct (GameRoom.syncLoop game2 _) as [game' state']. exact Hf.
  - intros [= <-]. unfold GameRoom.manageBotPopulation.
    destruct (_ <=? _)%nat; [exists [], (GameRoom.game room);
                             split; [reflexivity|apply flagCleared_refl]|].
    destruct (_ <? _)%nat; [|exists [], (GameRoom.game room);
                             split; [reflexivity|apply flagCleared_refl]].
    destruct (spawnBots_refines M random base36 fuel
                (seq 0 (GameRoom.TARGET_TOTAL_PLAYERS
                        - (length (filter (fun p => negb (String.prefix "BOT_" (id p)))
                                     (getAllPlayers (GameRoom.game room)))
                           + length (GameRoom.bots room)))) room) as [evs H].
    eexists evs, _. split; [exact H|apply flagCleared_refl].
Qed.

(** X18. Whatever the room does to the game in one of its handlers (a
    join, a leave, an input message, a simulation step with its bots, the
    bot timer) is a sequence of the game's own operations -- createPlayer,
    removePlayer, setPlayerInput, update, and the capture and collision
    pass -- followed at most by the clearing of [territoryChanged] flags
    that [syncState] does. *)
Theorem roomStep_refines (M : MathLib) (random : nat -> float)
    (base36 : float -> string) (fuel : nat) (ev : RoomEvent)
    (room room' : GameRoom.t) :
  roomStep M random base36 fuel ev room = Some room' ->
  exists evs g,
    run M fuel evs (GameRoom.game room) = Some g /\
    Forall2 (fun p p' => p' = p \/ p' = set_territoryChanged false p)
      g (GameRoom.game room').
Proof. apply roomStep_game. Qed.

Lemma roomStep_refines_witness :
  exists evs g,
    run RefMath.lib 8 evs (GameRoom.game demoRoom) = Some g /\
    Forall2 (fun p p' => p' = p \/ p' = set_territoryChanged false p)
      g (GameRoom.game demoNext).
Proof.
  apply (roomStep_refines RefMath.lib demoRandom demoBase36 8 (OnTick (17 / 1000))
           demoRoom demoNext).
  vm_compute. reflexivity.
Defined.

(** A property of the game that its operations and the clearing of flags
    preserve holds of the game of every room. *)
Lemma roomRun_game_inv (M : MathLib) (random : nat -> float)
    (base36 : float -> string) (fuel : nat) (P : GameState -> Prop) :
  (forall ev g g', step M fuel ev g = Some g' -> P g -> P g') ->
  (forall g g', Forall2 flagCleared g g' -> P g -> P g') ->
  forall evs room room',
    roomRun M random base36 fuel evs room = Some room' ->
    P (GameRoom.game room) -> P (GameRoom.game room').
Proof.
  intros Hstep Hflag.
  assert (Hrun : forall evs g g', run M fuel evs g = Some g' -> P g -> P g').
  { induction evs as [|ev evs IH]; intros g g'; simpl.
    - now intros [= <-].
    - destruct (step M fuel ev g) as [g1|] eqn:E; [|discriminate].
      intros H Hg. apply (IH g1 g' H). now apply (Hstep ev g g1). }
  induction evs as [|ev evs IH]; intros room room'; simpl.
  - now intros [= <-].
  - destruct (roomStep M random base36 fuel ev room) as [room1|] eqn:E;
      [|discriminate].
    intros H Hg. apply (IH room1 room' H).
    destruct (roomStep_game M random base36 fuel ev room room1 E)
      as (gevs & g & Hg1 & Hg2).
    apply (Hflag g _ Hg2). now apply (Hrun gevs (GameRoom.game room) g).
Qed.

Lemma flagCleared_wellFormed (g g' : GameState) :
  Forall2 flagCleared g g' -> Forall wellFormed g -> Forall wellFormed g'.
Proof.
  induction 1 as [|p p' g g' Hp _ IH]; intro H; [constructor|].
  inversion H; subst. constructor; [|auto].
  destruct Hp as [->| ->]; [assumption|].
  now apply wellFormed_same with (p := p).
Qed.

Lemma flagCleared_ids (g g' : GameState) :
  Forall2 flagCleared g g' -> map id g' = map id g.
Proof.
  apply Forall2_ids. intros p q [->| ->]; reflexivity.
Qed.

Lemma room_wellFormed (M : MathLib) (random : nat -> float)
    (base36 : float -> string) (fuel : nat) (evs : list RoomEvent)
    (room : GameRoom.t) :
  roomRun M random base36 fuel evs GameRoom.new = Some room ->
  Forall wellFormed (GameRoom.game room) /\ NoDup (map id (GameRoom.game room)).
Proof.
  intro H. split.
  - apply (roomRun_game_inv M random base36 fuel (Forall wellFormed))
      with (evs := evs) (room := GameRoom.new); [| |exact H|constructor].
    + intros ev g g'.
      apply (step_inv M wellFormed (wellFormed_new M) (wellFormed_update M)
               wellFormed_input wellFormed_own wellFormed_kill).
    + apply flagCleared_wellFormed.
  - apply (roomRun_game_inv M random base36 fuel (fun g => NoDup (map id g)))
      with (evs := evs) (room := GameRoom.new); [| |exact H|constructor].
    + intros ev g g'. apply step_unique.
    + intros g g' Hf. now rewrite (flagCleared_ids g g' Hf).
Qed.

(** ** GameRoom.ts: the views follow the players *)

Lemma flatPoints_length (l : list Point) : length (flatPoints l) = (length l * 2)%nat.
Proof. induction l as [|a l IH]; simpl; [reflexivity|now rewrite IH]. Qed.

Lemma flatPoints_nil (l : list Point) : length (flatPoints l) = 0%nat -> l = [].
Proof. destruct l; [reflexivity|discriminate]. Qed.

(** The game and the views are changed in step. *)
Section InStep.

Variable V : Player -> string * PlayerState.t -> Prop.
Hypothesis V_key : forall p kv, V p kv -> fst kv = id p.

Lemma inStep_set (g : GameState) (st : list (string * PlayerState.t))
    (q : Player) (v : PlayerState.t) :
  Forall2 V g st -> V q (id q, v) ->
  Forall2 V (setPlayer g q) (mapSet st (id q) v).
Proof.
  intros H Hq. induction H as [|p [k w] g st Hp Hrest IH]; simpl.
  - constructor; [exact Hq|constructor].
  - pose proof (V_key _ _ Hp) as Hk. simpl in Hk. subst k.
    destruct (String.eqb (id p) (id q)) eqn:E.
    + apply String.eqb_eq in E. rewrite E. constructor; assumption.
    + constructor; assumption.
Qed.

Lemma inStep_delete (g : GameState) (st : list (string * PlayerState.t))
    (k : string) :
  Forall2 V g st -> Forall2 V (removePlayer g k) (mapDelete st k).
Proof.
  intro H. induction H as [|p [k' w] g st Hp _ IH]; simpl; [constructor|].
  pose proof (V_key _ _ Hp) as Hk. simpl in Hk. subst k'.
  destruct (String.eqb (id p) k); simpl; [exact IH|constructor; [exact Hp|exact IH]].
Qed.

Lemma inStep_absent (g : GameState) (st : list (string * PlayerState.t))
    (k : string) :
  Forall2 V g st -> getPlayer g k = None -> mapDelete st k = st.
Proof.
  unfold getPlayer. intro H.
  induction H as [|p [k' w] g st Hp _ IH]; simpl; [reflexivity|].
  pose proof (V_key _ _ Hp) as Hk. simpl in Hk. subst k'.
  destruct (String.eqb (id p) k); simpl; [discriminate|].
  intro Hg. now rewrite IH.
Qed.

End InStep.

Lemma Forall2_follow (V V' : Player -> string * PlayerState.t -> Prop)
    (R : Player -> Player -> Prop) (g g' : GameState)
    (st : list (string * PlayerState.t)) :
  (forall p p' kv, R p p' -> V p kv -> V' p' kv) ->
  Forall2 R g g' -> Forall2 V g st -> Forall2 V' g' st.
Proof.
  intros HR H. revert st. induction H as [|p p' g g' Hp _ IH]; intros st Hst;
    inversion Hst; subst; constructor; eauto.
Qed.

Lemma steered_refl (p : Player) : steered p p.
Proof. exists (targetAngle p), (speed p). now destruct p. Qed.

Lemma setPlayerInput_steered (s : GameState) (pid : string) (a : float) :
  Forall2 steered s (setPlayerInput s pid a).
Proof.
  unfold setPlayerInput.
  destruct (getPlayer s pid) as [p|] eqn:Hget;
    [|apply Forall2_T_refl, steered_refl].
  destruct (negb (isDead p)); [|apply Forall2_T_refl, steered_refl].
  apply getPlayer_In in Hget as Hin. destruct Hin as [_ Hid].
  apply setPlayer_Forall2 with (p0 := p).
  - apply steered_refl.
  - destruct (speed _ =? 0); simpl; now rewrite Hid.
  - destruct (speed (set_targetAngle a p) =? 0).
    + now exists a, PLAYER_SPEED.
    + exists a, (speed p). now destruct p.
Qed.

Lemma updatePlayer_moved (M : MathLib) (fuel : nat) (dt : float) (p p' : Player) :
  updatePlayer M fuel dt p = Some p' -> moved p p'.
Proof.
  unfold updatePlayer.
  destruct (isDead p) eqn:Hd.
  - intros [= <-]. unfold moved. simpl. auto.
  - destruct (updatePlayerMovement _ _ _ _) as [q|] eqn:Hq; [|discriminate].
    intros [= <-]. revert Hq. unfold updatePlayerMovement.
    destruct (normalizeDiff _ _); [|discriminate]. intros [= <-].
    unfold updatePlayerTrail, moveWithDiff, moved.
    destruct (0 <? invulnerableTimer p); simpl;
      (destruct (negb (isOutside p)); simpl; [auto|
       match goal with |- context [if ?c then _ else _] => destruct c end;
       simpl; eauto 10]).
Qed.

Lemma update_moved (M : MathLib) (fuel : nat) (dt : float) :
  forall s s', update M fuel dt s = Some s' -> Forall2 moved s s'.
Proof.
  induction s as [|p s IH]; intros s'; simpl.
  - intros [= <-]. constructor.
  - destruct (updatePlayer M fuel dt p) as [p'|] eqn:Hp; [|discriminate].
    destruct (update M fuel dt s) as [r|]; [|discriminate].
    intros [= <-]. constructor; [now apply updatePlayer_moved in Hp|auto].
Qed.

Lemma viewExact_key (p : Player) (kv : string * PlayerState.t) :
  viewExact p kv -> fst kv = id p.
Proof. now intros (H & _). Qed.

Lemma viewMoved_key (p : Player) (kv : string * PlayerState.t) :
  viewMoved p kv -> fst kv = id p.
Proof. now intros (H & _). Qed.

Lemma viewExact_steered (p p' : Player) (kv : string * PlayerState.t) :
  steered p p' -> viewExact p kv -> viewExact p' kv.
Proof. intros (a & v & ->). unfold viewExact. simpl. auto. Qed.

Lemma viewMoved_steered (p p' : Player) (kv : string * PlayerState.t) :
  steered p p' -> viewMoved p kv -> viewMoved p' kv.
Proof. intros (a & v & ->). unfold viewMoved. simpl. auto. Qed.

Lemma viewExact_moved (p p' : Player) (kv : string * PlayerState.t) :
  moved p p' -> viewExact p kv -> viewMoved p' kv.
Proof.
  intros (Hid & Hterr & Hflag & Htrail) (H1 & H2 & H3 & H4 & H5).
  unfold viewMoved. rewrite Hid, Hterr, Hflag.
  repeat apply conj; auto.
  exists (trail p). split; [exact H3|].
  destruct Htrail as [->|[c ->]]; eauto.
Qed.

Lemma newView_exact (M : MathLib) (random : nat -> float) (pid : string)
    (name : option string) (px py : float) (c : string) :
  viewExact (newPlayer M pid px py c)
    (pid, GameRoom.newView pid name (newPlayer M pid px py c)).
Proof. unfold viewExact. simpl. auto. Qed.

(** *** The capture and collision pass *)

Lemma afterCapture_view (p q : Player) (jc : bool) :
  wellFormed p -> CaptureCase p q jc ->
  id (afterCapture q jc) = id p /\
  (trail (afterCapture q jc) = trail p \/ trail (afterCapture q jc) = [] \/
   (trail p = [] /\ exists pt, trail (afterCapture q jc) = [pt])) /\
  (territoryChanged (afterCapture q jc) = true \/
   (territory (afterCapture q jc) = territory p /\
    territoryChanged (afterCapture q jc) = territoryChanged p)).
Proof.
  intros (W1 & _) Hcase.
  assert (Hwin : forall r,
            id (winBranch r) = id r /\
            (trail (winBranch r) = trail r \/ trail (winBranch r) = []) /\
            territory (winBranch r) = territory r /\
            territoryChanged (winBranch r) = territoryChanged r).
  { intro r. unfold winBranch.
    destruct (negb (hasWon r)); simpl; destruct (isOutside r); simpl; auto. }
  destruct Hcase as [|pt k Hout Hin Hinv Hhit|Hout|newT Hout Hlen];
    unfold afterCapture.
  - destruct (winThreshold <=? _); [|auto 10].
    destruct (Hwin p) as (H1 & H2 & H3 & H4).
    rewrite H1, H3, H4. destruct H2 as [->| ->]; auto 10.
  - destruct (W1 Hout) as (Ht & _).
    destruct (winThreshold <=? _).
    + destruct (Hwin (exited p pt k)) as (H1 & H2 & H3 & H4).
      rewrite H1, H3, H4. simpl.
      destruct H2 as [->| ->]; simpl; eauto 10.
    + simpl. eauto 10.
  - destruct (winThreshold <=? _); [|simpl; auto 10].
    destruct (Hwin (clearTrailState p)) as (H1 & H2 & H3 & H4).
    rewrite H1, H3, H4. simpl.
    destruct H2 as [->| ->]; simpl; auto 10.
  - simpl. auto 10.
Qed.

Lemma viewMoved_processed (M : MathLib) (p p' : Player)
    (kv : string * PlayerState.t) :
  wellFormed p -> processed M p p' -> viewMoved p kv -> viewStale p' kv.
Proof.
  intros Hw Hproc (Hk & Hi & (T & HT & Htrail) & Hterr & Hflag).
  assert (Hsame : viewStale p kv).
  { unfold viewStale. repeat apply conj; auto.
    rewrite HT, flatPoints_length. intro Hlen.
    destruct Htrail as [->|[c Hc]]; [reflexivity|].
    rewrite Hc, length_app in Hlen. simpl in Hlen. lia. }
  assert (Hempty : forall r, id r = id p -> trail r = [] ->
            (territoryChanged r = true \/
             (territory r = territory p /\ territoryChanged r = territoryChanged p)) ->
            viewStale r kv).
  { intros r Hid Htr Hch. unfold viewStale. rewrite Hid, Htr.
    repeat apply conj; auto.
    - rewrite HT, flatPoints_length. simpl. intro Hlen.
      assert (T = []) by (destruct T; [reflexivity|simpl in Hlen; lia]).
      now subst T.
    - intros _ Hf. destruct Hch as [Hch|[Ht _]]; [congruence|].
      now rewrite Ht. }
  destruct Hproc as [[_ ->]|[(_ & _ & ->)|(_ & q & jc & Hcap & Hq)]].
  - exact Hsame.
  - apply Hempty; simpl; auto.
  - apply capturePhase_cases in Hcap.
    destruct (afterCapture_view p q jc Hw Hcap) as (Hid & Htr & Hch).
    destruct Hq as [->|[_ ->]]; [|apply Hempty; simpl; auto].
    destruct Htr as [Htr|[Htr|[Hp0 [pt Hpt]]]].
    + unfold viewStale. rewrite Hid, Htr. repeat apply conj; auto.
      * apply Hsame.
      * intros Hlen Hf. destruct Hch as [Hch|[Ht _]]; [congruence|].
        now rewrite Ht.
    + now apply Hempty.
    + unfold viewStale. rewrite Hid, Hpt. repeat apply conj; auto.
      * rewrite HT, flatPoints_length. simpl. intro Hlen.
        destruct Htrail as [Ht|[c Hc]].
        -- rewrite <- Ht, Hp0 in Hlen. simpl in Hlen. lia.
        -- rewrite Hp0 in Hc. now destruct T.
      * intros Hlen Hf. destruct Hch as [Hch|[Ht _]]; [congruence|].
        now rewrite Ht.
Qed.

(** *** syncState *)

Lemma syncPlayer_fresh (p : Player) (k : string) (v : PlayerState.t) :
  viewStale p (k, v) ->
  viewFresh (fst (GameRoom.syncPlayer p v)) (k, snd (GameRoom.syncPlayer p v)).
Proof.
  intros (Hk & Hi & Htrail & Hterr). simpl in *.
  unfold GameRoom.syncPlayer, GameRoom.syncTrail, GameRoom.syncTerritory.
  cbn [PlayerState.trail PlayerState.territory].
  destruct (length (PlayerState.trail v) =? length (trail p) * 2)%nat eqn:E1;
    cbn [negb];
    [apply Nat.eqb_eq in E1|];
    cbn [PlayerState.territory PlayerState.set_trail].
  - destruct (length (PlayerState.territory v) =? length (territory p) * 2)%nat
      eqn:E2; cbn [negb orb].
    + apply Nat.eqb_eq in E2. destruct (territoryChanged p) eqn:Hf.
      * unfold viewFresh, viewExact. simpl. auto 15.
      * unfold viewFresh, viewExact. simpl. auto 15.
    + unfold viewFresh, viewExact. simpl. auto 15.
  - destruct (length (PlayerState.territory v) =? length (territory p) * 2)%nat
      eqn:E2; cbn [negb orb].
    + apply Nat.eqb_eq in E2. destruct (territoryChanged p) eqn:Hf.
      * unfold viewFresh, viewExact. simpl. auto 15.
      * unfold viewFresh, viewExact. simpl. auto 15.
    + unfold viewFresh, viewExact. simpl. auto 15.
Qed.

Lemma mapGet_skip (pre st : list (string * PlayerState.t)) (k : string) :
  (forall kv, In kv pre -> fst kv <> k) -> mapGet (pre ++ st) k = mapGet st k.
Proof.
  unfold mapGet. induction pre as [|[k' w] pre IH]; intro H; simpl; [reflexivity|].
  destruct (String.eqb k' k) eqn:E.
  - apply String.eqb_eq in E. elim (H (k', w)); [now left|exact E].
  - apply IH. intros kv Hkv. apply H. now right.
Qed.

Lemma mapSet_skip (pre st : list (string * PlayerState.t)) (k : string)
    (v : PlayerState.t) :
  (forall kv, In kv pre -> fst kv <> k) ->
  mapSet (pre ++ st) k v = pre ++ mapSet st k v.
Proof.
  induction pre as [|[k' w] pre IH]; intro H; simpl; [reflexivity|].
  destruct (String.eqb k' k) eqn:E.
  - apply String.eqb_eq in E. elim (H (k', w)); [now left|exact E].
  - f_equal. apply IH. intros kv Hkv. apply H. now right.
Qed.

Lemma syncLoop_fresh :
  forall (players : list Player) (st pre : list (string * PlayerState.t)),
    NoDup (map id players) ->
    (forall kv, In kv pre -> ~ In (fst kv) (map id players)) ->
    Forall2 viewStale players st ->
    exists players' st',
      GameRoom.syncLoop players (pre ++ st) = (players', pre ++ st') /\
      Forall2 viewFresh players' st'.
Proof.
  induction players as [|p players IH]; intros st pre Hnd Hpre Hst.
  - inversion Hst; subst. exists [], []. simpl. split; [reflexivity|constructor].
  - inversion Hst as [|? [k v] ? st0 Hp Hrest]; subst.
    inversion Hnd as [|? ? Hnotin Hnd']; subst.
    pose proof Hp as (Hk & _). simpl in Hk. subst k.
    assert (Hskip : forall kv, In kv pre -> fst kv <> id p).
    { intros kv Hkv Heq. apply (Hpre kv Hkv). simpl. now left. }
    simpl GameRoom.syncLoop.
    rewrite (mapGet_skip pre _ _ Hskip).
    unfold mapGet. simpl find. rewrite String.eqb_refl. simpl snd.
    pose proof (syncPlayer_fresh p (id p) v Hp) as Hfresh.
    destruct (GameRoom.syncPlayer p v) as [p' v'] eqn:Esync.
    rewrite (mapSet_skip pre _ _ _ Hskip).
    simpl mapSet. rewrite String.eqb_refl.
    destruct (IH st0 (pre ++ [(id p, v')]) Hnd') as (rest' & st' & Hst' & Hf').
    + intros kv Hkv. apply in_app_or in Hkv. destruct Hkv as [Hkv|[<-|[]]].
      * intro Hin. apply (Hpre kv Hkv). simpl. now right.
      * exact Hnotin.
    + exact Hrest.
    + rewrite <- app_assoc in Hst'. simpl app in Hst'. rewrite Hst'.
      exists (p' :: rest'), ((id p, v') :: st'). split.
      * now rewrite <- app_assoc.
      * constructor; assumption.
Qed.

Lemma syncState_fresh (room : GameRoom.t) :
  NoDup (map id (GameRoom.game room)) ->
  Forall2 viewStale (GameRoom.game room) (GameRoom.state room) ->
  Forall2 viewFresh (GameRoom.game (GameRoom.syncState room))
    (GameRoom.state (GameRoom.syncState room)).
Proof.
  intros Hnd Hst. unfold GameRoom.syncState, getAllPlayers.
  destruct (syncLoop_fresh (GameRoom.game room) (GameRoom.state room) [] Hnd)
    as (game' & st' & H1 & H2); [intros kv []|exact Hst|].
  simpl app in H1. rewrite H1. exact H2.
Qed.

(** *** The bots *)

Lemma mapGet_In {V : Type} (m : list (string * V)) (k : string) (v : V) :
  mapGet m k = Some v -> In (k, v) m.
Proof.
  unfold mapGet. destruct (find _ m) as [[k' w]|] eqn:E; [|discriminate].
  intros [= <-]. apply find_some in E. destruct E as [Hin Heq].
  simpl in Heq. apply String.eqb_eq in Heq. now subst k'.
Qed.

Lemma Forall_mapSet {V : Type} (P : string * V -> Prop) (m : list (string * V))
    (k : string) (v : V) :
  Forall P m -> P (k, v) -> Forall P (mapSet m k v).
Proof.
  intros Hm Hv. induction m as [|[k' w] m IH]; simpl.
  - constructor; [exact Hv|constructor].
  - inversion Hm; subst.
    destruct (String.eqb k' k) eqn:E.
    + apply String.eqb_eq in E. subst k'. constructor; assumption.
    + constructor; auto.
Qed.

Lemma Forall_mapDelete {V : Type} (P : string * V -> Prop) (m : list (string * V))
    (k : string) :
  Forall P m -> Forall P (mapDelete m k).
Proof.
  unfold mapDelete. rewrite !Forall_forall. intros H kv Hkv.
  apply filter_In in Hkv. now apply H.
Qed.

Lemma botTurn_moved (M : MathLib) (random : nat -> float) (room : GameRoom.t)
    (botId : string) (dt : float) :
  Forall2 viewMoved (GameRoom.game room) (GameRoom.state room) ->
  botsFiled room ->
  Forall2 viewMoved (GameRoom.game (GameRoom.botTurn M random room botId dt))
    (GameRoom.state (GameRoom.botTurn M random room botId dt)) /\
  botsFiled (GameRoom.botTurn M random room botId dt).
Proof.
  intros Hv Hb. unfold GameRoom.botTurn.
  destruct (mapGet (GameRoom.bots room) botId) as [bot|] eqn:Hbot; [|auto].
  assert (Hfiled : BotBrain.playerId bot = botId).
  { apply mapGet_In in Hbot. unfold botsFiled in Hb. rewrite Forall_forall in Hb.
    exact (Hb _ Hbot). }
  destruct (getPlayer (GameRoom.game room) botId) as [player|] eqn:Hget.
  - destruct (isDead player && (1 <? deathTimer player)).
    + simpl. split; [now apply inStep_delete with (1 := viewMoved_key)|].
      now apply Forall_mapDelete.
    + destruct (negb (isDead player)); [|auto].
      pose proof (BotBrain_update_cases M random bot dt (GameRoom.game room)
                    (GameRoom.randomCalls room)) as (Hid & _ & Hg & _).
      destruct (BotBrain.update M random bot dt (GameRoom.game room)
                  (GameRoom.randomCalls room)) as [[bot' game'] calls].
      simpl in Hid, Hg |- *. split.
      * destruct Hg as [->|(a & p & _ & _ & ->)]; [exact Hv|].
        apply (Forall2_follow viewMoved viewMoved steered) with (g := GameRoom.game room);
          [intros; now apply viewMoved_steered with (p := p0)
          |apply setPlayerInput_steered|exact Hv].
      * apply Forall_mapSet; [exact Hb|]. simpl. congruence.
  - simpl. split.
    + now rewrite (inStep_absent viewMoved viewMoved_key _ _ _ Hv Hget).
    + now apply Forall_mapDelete.
Qed.

Lemma botTurns_moved (M : MathLib) (random : nat -> float) (dt : float)
    (botIds : list string) :
  forall room,
    Forall2 viewMoved (GameRoom.game room) (GameRoom.state room) ->
    botsFiled room ->
    Forall2 viewMoved
      (GameRoom.game
         (fold_left (fun r botId => GameRoom.botTurn M random r botId dt) botIds room))
      (GameRoom.state
         (fold_left (fun r botId => GameRoom.botTurn M random r botId dt) botIds room)) /\
    botsFiled
      (fold_left (fun r botId => GameRoom.botTurn M random r botId dt) botIds room).
Proof.
  induction botIds as [|botId rest IH]; intros room Hv Hb; simpl; [auto|].
  destruct (botTurn_moved M random room botId dt Hv Hb) as [Hv' Hb'].
  exact (IH _ Hv' Hb').
Qed.

Lemma botTurns_viewMoved (M : MathLib) (random : nat -> float) (dt : float)
    (room : GameRoom.t) :
  Forall2 viewMoved (GameRoom.game room) (GameRoom.state room) ->
  botsFiled room ->
  Forall2 viewMoved (GameRoom.game (GameRoom.botTurns M random room dt))
    (GameRoom.state (GameRoom.botTurns M random room dt)) /\
  botsFiled (GameRoom.botTurns M random room dt).
Proof. apply botTurns_moved. Qed.

(** *** One simulation step *)

Lemma processed_stale (M : MathLib) :
  forall (g g' : GameState) (st : list (string * PlayerState.t)),
    Forall wellFormed g -> Forall2 (processed M) g g' ->
    Forall2 viewMoved g st -> Forall2 viewStale g' st.
Proof.
  intros g g' st Hw H. revert st Hw.
  induction H as [|p p' g g' Hp _ IH]; intros st Hw Hst;
    inversion Hst; subst; [constructor|].
  inversion Hw; subst. constructor; [|auto].
  now apply viewMoved_processed with (M := M) (p := p).
Qed.

Lemma run_wellFormed (M : MathLib) (fuel : nat) (evs : list Event)
    (g g' : GameState) :
  run M fuel evs g = Some g' ->
  Forall wellFormed g /\ NoDup (map id g) ->
  Forall wellFormed g' /\ NoDup (map id g').
Proof.
  intros H [Hw Hn]. split.
  - apply (run_inv M wellFormed (wellFormed_new M) (wellFormed_update M)
             wellFormed_input wellFormed_own wellFormed_kill fuel evs g g' H Hw).
  - exact (reachable_unique M fuel evs g g' H Hn).
Qed.

(** The game on which the pass of a simulation step runs. *)
Lemma update_before_pass (M : MathLib) (random : nat -> float) (fuel : nat)
    (room : GameRoom.t) (dt : float) (game1 : GameState) :
  Forall wellFormed (GameRoom.game room) /\ NoDup (map id (GameRoom.game room)) ->
  update M fuel dt (GameRoom.game room) = Some game1 ->
  Forall wellFormed
    (GameRoom.game
       (GameRoom.botTurns M random
          (GameRoom.mk game1 (GameRoom.state room) (GameRoom.bots room)
             (GameRoom.colorIndex room) (GameRoom.randomCalls room)) dt)) /\
  NoDup
    (map id
       (GameRoom.game
          (GameRoom.botTurns M random
             (GameRoom.mk game1 (GameRoom.state room) (GameRoom.bots room)
                (GameRoom.colorIndex room) (GameRoom.randomCalls room)) dt))).
Proof.
  intros Hinv Hu.
  assert (H1 : Forall wellFormed game1 /\ NoDup (map id game1)).
  { apply (run_wellFormed M fuel [EvUpdate dt] (GameRoom.game room)); [|exact Hinv].
    simpl. now rewrite Hu. }
  destruct (botTurns_refines M random fuel dt
              (map fst (GameRoom.bots room))
              (GameRoom.mk game1 (GameRoom.state room) (GameRoom.bots room)
                 (GameRoom.colorIndex room) (GameRoom.randomCalls room)))
    as [evs Hevs].
  exact (run_wellFormed M fuel evs game1 _ Hevs H1).
Qed.

Lemma update_fresh (M : MathLib) (random : nat -> float) (fuel : nat)
    (room room' : GameRoom.t) (dt : float) :
  Forall wellFormed (GameRoom.game room) /\ NoDup (map id (GameRoom.game room)) ->
  Forall2 viewExact (GameRoom.game room) (GameRoom.state room) ->
  botsFiled room ->
  GameRoom.update M random fuel room dt = Some room' ->
  Forall2 viewFresh (GameRoom.game room') (GameRoom.state room') /\
  botsFiled room'.
Proof.
  intros Hinv Hv Hb. unfold GameRoom.update.
  destruct (update M fuel dt (GameRoom.game room)) as [game1|] eqn:Hu;
    [|discriminate].
  pose proof (update_before_pass M random fuel room dt game1 Hinv Hu) as [Hw1 Hn1].
  assert (Hv0 : Forall2 viewMoved game1 (GameRoom.state room)).
  { apply (Forall2_follow viewExact viewMoved moved) with (g := GameRoom.game room);
      [intros; now apply viewExact_moved with (p := p)
      |now apply update_moved with (M := M) (fuel := fuel) (dt := dt)|exact Hv]. }
  destruct (botTurns_viewMoved M random dt
              (GameRoom.mk game1 (GameRoom.state room) (GameRoom.bots room)
                 (GameRoom.colorIndex room) (GameRoom.randomCalls room)) Hv0 Hb)
    as [Hv1 Hb1].
  set (room1 := GameRoom.botTurns M random _ dt) in *.
  destruct (checkCaptureAndCollisions M (GameRoom.game room1)) as [game2|] eqn:Hc;
    [|discriminate].
  intros [= <-].
  pose proof (pass_processed M (GameRoom.game room1) Hn1 game2 Hc) as Hp.
  assert (Hn2 : NoDup (map id game2)).
  { apply checkCaptureAndCollisions_wonStep in Hc.
    rewrite (Forall2_ids wonStep _ _ (fun p q H => proj1 H) Hc). exact Hn1. }
  split.
  - apply syncState_fresh; simpl; [exact Hn2|].
    now apply processed_stale with (M := M) (g := GameRoom.game room1).
  - unfold botsFiled, GameRoom.syncState. simpl.
    destruct (GameRoom.syncLoop _ _). exact Hb1.
Qed.

Lemma viewFresh_exact (g : GameState) (st : list (string * PlayerState.t)) :
  Forall2 viewFresh g st -> Forall2 viewExact g st.
Proof. induction 1 as [|p kv g st [Hp _] _ IH]; constructor; assumption. Qed.

(** *** Every handler *)

Lemma spawnBot_synced (M : MathLib) (random : nat -> float)
    (base36 : float -> string) (room : GameRoom.t) :
  Forall2 viewExact (GameRoom.game room) (GameRoom.state room) ->
  botsFiled room ->
  Forall2 viewExact (GameRoom.game (GameRoom.spawnBot M random base36 room))
    (GameRoom.state (GameRoom.spawnBot M random base36 room)) /\
  botsFiled (GameRoom.spawnBot M random base36 room).
Proof.
  intros Hv Hb. unfold GameRoom.spawnBot.
  destruct (GameRoom.findSpawnPosition M random (GameRoom.game room) _)
    as [spawn calls].
  simpl. split.
  - apply (inStep_set viewExact viewExact_key (GameRoom.game room)
             (GameRoom.state room) (newPlayer M _ _ _ _)); [exact Hv|].
    apply (newView_exact M random).
  - apply Forall_mapSet; [exact Hb|reflexivity].
Qed.

Lemma roomStep_synced (M : MathLib) (random : nat -> float)
    (base36 : float -> string) (fuel : nat) (ev : RoomEvent)
    (room room' : GameRoom.t) :
  roomStep M random base36 fuel ev room = Some room' ->
  Forall wellFormed (GameRoom.game room) /\ NoDup (map id (GameRoom.game room)) ->
  Forall2 viewExact (GameRoom.game room) (GameRoom.state room) ->
  botsFiled room ->
  Forall2 viewExact (GameRoom.game room') (GameRoom.state room') /\
  botsFiled room'.
Proof.
  intros Hstep Hinv Hv Hb.
  destruct ev as [sessionId username|sessionId|sessionId a|dt|]; simpl in Hstep.
  - injection Hstep as <-. unfold GameRoom.onJoin.
    destruct (GameRoom.findSpawnPosition M random (GameRoom.game room) _)
      as [spawn calls].
    simpl. split; [|exact Hb].
    apply (inStep_set viewExact viewExact_key (GameRoom.game room)
             (GameRoom.state room) (newPlayer M _ _ _ _)); [exact Hv|].
    apply (newView_exact M random).
  - injection Hstep as <-. simpl. split; [|exact Hb].
    now apply inStep_delete with (1 := viewExact_key).
  - injection Hstep as <-. simpl. split; [|exact Hb].
    apply (Forall2_follow viewExact viewExact steered) with (g := GameRoom.game room);
      [intros; now apply viewExact_steered with (p := p)
      |apply setPlayerInput_steered|exact Hv].
  - destruct (update_fresh M random fuel room room' dt Hinv Hv Hb Hstep) as [H1 H2].
    split; [now apply viewFresh_exact|exact H2].
  - injection Hstep as <-. unfold GameRoom.manageBotPopulation.
    destruct (_ <=? _)%nat; [auto|].
    destruct (_ <? _)%nat; [|auto].
    generalize (seq 0 (GameRoom.TARGET_TOTAL_PLAYERS
                       - (length (filter (fun p => negb (String.prefix "BOT_" (id p)))
                                    (getAllPlayers (GameRoom.game room)))
                          + length (GameRoom.bots room)))).
    intro l. clear Hinv. revert room Hv Hb.
    induction l as [|n l IH]; intros room Hv Hb; simpl; [auto|].
    destruct (spawnBot_synced M random base36 room Hv Hb) as [Hv' Hb'].
    exact (IH _ Hv' Hb').
Qed.

Lemma roomStep_wellFormed (M : MathLib) (random : nat -> float)
    (base36 : float -> string) (fuel : nat) (ev : RoomEvent)
    (room room' : GameRoom.t) :
  roomStep M random base36 fuel ev room = Some room' ->
  Forall wellFormed (GameRoom.game room) /\ NoDup (map id (GameRoom.game room)) ->
  Forall wellFormed (GameRoom.game room') /\ NoDup (map id (GameRoom.game room')).
Proof.
  intros Hstep Hinv.
  destruct (roomStep_game M random base36 fuel ev room room' Hstep)
    as (evs & g & Hrun & Hflag).
  destruct (run_wellFormed M fuel evs _ g Hrun Hinv) as [Hw Hn].
  split; [now apply flagCleared_wellFormed with (g := g)|].
  now rewrite (flagCleared_ids g _ Hflag).
Qed.

Lemma roomRun_synced (M : MathLib) (random : nat -> float)
    (base36 : float -> string) (fuel : nat) (evs : list RoomEvent) :
  forall room room',
    roomRun M random base36 fuel evs room = Some room' ->
    Forall wellFormed (GameRoom.game room) /\ NoDup (map id (GameRoom.game room)) ->
    Forall2 viewExact (GameRoom.game room) (GameRoom.state room) ->
    botsFiled room ->
    (Forall wellFormed (GameRoom.game room') /\ NoDup (map id (GameRoom.game room'))) /\
    Forall2 viewExact (GameRoom.game room') (GameRoom.state room') /\
    botsFiled room'.
Proof.
  induction evs as [|ev evs IH]; intros room room'; simpl.
  - intros [= <-]. auto.
  - destruct (roomStep M random base36 fuel ev room) as [room1|] eqn:E;
      [|discriminate].
    intros Hrun Hinv Hv Hb.
    destruct (roomStep_synced M random base36 fuel ev room room1 E Hinv Hv Hb)
      as [Hv1 Hb1].
    apply (IH room1 room' Hrun); auto.
    exact (roomStep_wellFormed M random base36 fuel ev room room1 E Hinv).
Qed.

Lemma room_reachable (M : MathLib) (random : nat -> float)
    (base36 : float -> string) (fuel : nat) (evs : list RoomEvent)
    (room : GameRoom.t) :
  roomRun M random base36 fuel evs GameRoom.new = Some room ->
  (Forall wellFormed (GameRoom.game room) /\ NoDup (map id (GameRoom.game room))) /\
  Forall2 viewExact (GameRoom.game room) (GameRoom.state room) /\
  botsFiled room.
Proof.
  intro H.
  apply (roomRun_synced M random base36 fuel evs GameRoom.new room H).
  - split; constructor.
  - constructor.
  - constructor.
Qed.

(** X19. In every state the room can reach, the players and their views
    are in the same order under the same ids, every view shows exactly the
    trail and the territory of its player (as flat arrays), no territory
    change is waiting to be sent, and every bot is filed under the id of
    the player it steers.  Right after a simulation step every view also
    shows the position, heading, flags and score of its player: comparing
    lengths, as [syncTrail] and [syncState] do, never leaves a stale trail
    or territory behind. *)
Theorem room_views_exact (M : MathLib) (random : nat -> float)
    (base36 : float -> string) (fuel : nat) (evs : list RoomEvent)
    (room : GameRoom.t) :
  roomRun M random base36 fuel evs GameRoom.new = Some room ->
  Forall2 viewExact (GameRoom.game room) (GameRoom.state room) /\
  botsFiled room /\
  forall dt room',
    GameRoom.update M random fuel room dt = Some room' ->
    Forall2 viewFresh (GameRoom.game room') (GameRoom.state room').
Proof.
  intro H. destruct (room_reachable M random base36 fuel evs room H)
    as (Hinv & Hv & Hb).
  split; [exact Hv|]. split; [exact Hb|].
  intros dt room' Hu.
  now destruct (update_fresh M random fuel room room' dt Hinv Hv Hb Hu).
Qed.

Lemma room_views_exact_witness :
  Forall2 viewExact (GameRoom.game demoRoom) (GameRoom.state demoRoom) /\
  botsFiled demoRoom /\
  forall dt room',
    GameRoom.update RefMath.lib demoRandom 8 demoRoom dt = Some room' ->
    Forall2 viewFresh (GameRoom.game room') (GameRoom.state room').
Proof.
  apply (room_views_exact RefMath.lib demoRandom demoBase36 8 demoEvents demoRoom).
  vm_compute. reflexivity.
Defined.

(** X20. In every state the room can reach -- with its bots, its joins
    and leaves and its synchronisation -- the players have distinct ids and
    consistent records (trail, exit point and exit edge agree with the
    outside flag, the dead have no trail, the territory has at least four
    vertices, the score is the floor of its area, trail points are spaced),
    and a simulation step can fail to return only in the movement update
    of the game, never in the bots or in the capture and collision
    pass. *)
Theorem room_players_wellFormed (M : MathLib) (random : nat -> float)
    (base36 : float -> string) (fuel : nat) (evs : list RoomEvent)
    (room : GameRoom.t) :
  roomRun M random base36 fuel evs GameRoom.new = Some room ->
  Forall wellFormed (GameRoom.game room) /\
  NoDup (map id (GameRoom.game room)) /\
  forall dt,
    GameRoom.update M random fuel room dt = None ->
    update M fuel dt (GameRoom.game room) = None.
Proof.
  intro H. destruct (room_reachable M random base36 fuel evs room H)
    as ((Hw & Hn) & _).
  split; [exact Hw|]. split; [exact Hn|].
  intros dt. unfold GameRoom.update.
  destruct (update M fuel dt (GameRoom.game room)) as [game1|] eqn:Hu;
    [|reflexivity].
  pose proof (update_before_pass M random fuel room dt game1 (conj Hw Hn) Hu)
    as [Hw1 _].
  set (room1 := GameRoom.botTurns M random _ dt) in *.
  pose proof (checkPlayers_total M (buildSpatialHash (getAllPlayers (GameRoom.game room1)))
                (map id (getAllPlayers (GameRoom.game room1)))
                (GameRoom.game room1) Hw1) as Ht.
  unfold checkCaptureAndCollisions.
  destruct (checkPlayers M _ _ (GameRoom.game room1)); [discriminate|now elim Ht].
Qed.

Lemma room_players_wellFormed_witness :
  Forall wellFormed (GameRoom.game demoRoom) /\
  NoDup (map id (GameRoom.game demoRoom)) /\
  forall dt,
    GameRoom.update RefMath.lib demoRandom 8 demoRoom dt = None ->
    update RefMath.lib 8 dt (GameRoom.game demoRoom) = None.
Proof.
  apply (room_players_wellFormed RefMath.lib demoRandom demoBase36 8 demoEvents
           demoRoom).
  vm_compute. reflexivity.
Defined.

(** ** GameRoom.ts: the capture phases, case by case *)

(** X21. The capture phases of one player in one pass do exactly one of
    four things: nothing; for a player that is not outside, not inside its
    territory and not invulnerable, an exit at the first boundary edge the
    movement crosses (at the previous position on edge 0 if it crosses
    none), which starts the trail; for a player that is outside, the
    clearing of the trail state without a capture; or the commit of a new
    territory of at least four vertices with its floored area as score,
    followed by that clearing.  Only the last sets [justCaptured]. *)
Theorem capturePhase_outcomes (M : MathLib) (p0 p : Player) (jc : bool) :
  capturePhase M p0 = Some (p, jc) ->
  (p = p0 /\ jc = false) \/
  (isOutside p0 = false /\
   isPointInPolygon (currentPosOf p0) (territory p0) = false /\
   (invulnerableTimer p0 <=? 0) = true /\ jc = false /\
   exists pt k,
     p = exited p0 pt k /\
     match findBoundaryIntersection (prevPosOf p0) (currentPosOf p0) (territory p0) with
     | Some hit => pt = point hit /\ k = edgeIndex hit
     | None => pt = prevPosOf p0 /\ k = 0%Z
     end) \/
  (isOutside p0 = true /\ jc = false /\ p = clearTrailState p0) \/
  (isOutside p0 = true /\ jc = true /\
   exists newT,
     (3 < length newT)%nat /\
     p = clearTrailState
           (commitTerritory newT (Math_floor (calculateArea newT)) p0)).
Proof.
  intro H. apply capturePhase_cases in H.
  destruct H as [|pt k Hout Hin Hinv Hhit|Hout|newT Hout Hlen].
  - left. auto.
  - right. left. repeat apply conj; auto. exists pt, k. auto.
  - right. right. left. auto.
  - right. right. right. repeat apply conj; auto. exists newT. auto.
Qed.

Lemma capturePhase_outcomes_witness :
  (capturedOf walkerA = walkerA /\ false = false) \/
  (isOutside walkerA = false /\
   isPointInPolygon (currentPosOf walkerA) (territory walkerA) = false /\
   (invulnerableTimer walkerA <=? 0) = true /\ false = false /\
   exists pt k,
     capturedOf walkerA = exited walkerA pt k /\
     match findBoundaryIntersection (prevPosOf walkerA) (currentPosOf walkerA)
             (territory walkerA) with
     | Some hit => pt = point hit /\ k = edgeIndex hit
     | None => pt = prevPosOf walkerA /\ k = 0%Z
     end) \/
  (isOutside walkerA = true /\ false = false /\
   capturedOf walkerA = clearTrailState walkerA) \/
  (isOutside walkerA = true /\ false = true /\
   exists newT,
     (3 < length newT)%nat /\
     capturedOf walkerA
     = clearTrailState
         (commitTerritory newT (Math_floor (calculateArea newT)) walkerA)).
Proof.
  apply (capturePhase_outcomes RefMath.lib walkerA (capturedOf walkerA) false).
  vm_compute. reflexivity.
Defined.

(** ** The geometry of a capture never throws *)

Lemma closest_loop_range (M : MathLib) (currentPos : Point) :
  forall (vertices : list Point) (i : nat) (minD : float) (closestIdx : nat),
    closest_loop M currentPos vertices i minD closestIdx = closestIdx \/
    (i <= closest_loop M currentPos vertices i minD closestIdx < i + length vertices)%nat.
Proof.
  induction vertices as [|v rest IH]; intros i minD closestIdx; simpl; [now left|].
  destruct (_ <? minD).
  - destruct (IH (S i) (Math_hypot M (x v - x currentPos) (y v - y currentPos)) i)
      as [->|H]; right; lia.
  - destruct (IH (S i) minD closestIdx) as [->|H]; [now left|right; lia].
Qed.

Lemma entryHit_index_range (M : MathLib) (p : Player) (a b : Point) :
  territory p <> [] ->
  (0 <= edgeIndex (entryHit M p a b) < Z.of_nat (length (territory p)))%Z.
Proof.
  intro Hne. unfold entryHit.
  destruct (findBoundaryIntersection a b (territory p)) as [hit|] eqn:E.
  - now apply findBoundaryIntersection_index in E.
  - simpl.
    destruct (closest_loop_range M b (territory p) 0 infinity 0) as [->|H].
    + destruct (territory p); [congruence|simpl; lia].
    + lia.
Qed.

(** X22. In every state the room can reach, the two calls of
    [computeCapture] that the capture phases make for a player -- with the
    entry hit of ENTRY detection and with the exit point of LOOP CLOSURE --
    return a polygon: they read no vertex outside the territory and do not
    loop forever.  So the [catch] of the capture phases can only ever catch
    the error thrown for invalid coordinates. *)
Theorem capture_geometry_returns (M : MathLib) (fuel : nat) (evs : list Event)
    (s : GameState) :
  run M fuel evs newGameState = Some s ->
  Forall
    (fun p =>
       forall (exitPt prevPos currentPos : Point),
         (exists poly,
            computeCapture (territory p) (trail p) exitPt (exitEdgeIndex p)
              (point (entryHit M p prevPos currentPos))
              (edgeIndex (entryHit M p prevPos currentPos))
            = Returns poly) /\
         (exists poly,
            computeCapture (territory p) (trail p) exitPt (exitEdgeIndex p)
              exitPt (exitEdgeIndex p)
            = Returns poly))
    s.
Proof.
  intros Hrun. apply reachable_wellFormed in Hrun.
  rewrite Forall_forall in *. intros p Hin exitPt prevPos currentPos.
  destruct (Hrun p Hin) as (_ & _ & _ & W4 & W5 & _).
  assert (Hne : territory p <> [])
    by (destruct (territory p); [simpl in W5; lia|discriminate]).
  pose proof (entryHit_index_range M p prevPos currentPos Hne) as Hhit.
  split.
  - destruct (computeCapture_run (territory p) (trail p) exitPt
                (point (entryHit M p prevPos currentPos)) (exitEdgeIndex p)
                (edgeIndex (entryHit M p prevPos currentPos)) Hne W4)
      as (start & len & _ & _ & [H|H]); [lia|eauto|eauto].
  - destruct (computeCapture_run (territory p) (trail p) exitPt exitPt
                (exitEdgeIndex p) (exitEdgeIndex p) Hne W4 W4)
      as (start & len & _ & _ & [H|H]); eauto.
Qed.

Lemma capture_geometry_returns_witness :
  Forall
    (fun p =>
       forall (exitPt prevPos currentPos : Point),
         (exists poly,
            computeCapture (territory p) (trail p) exitPt (exitEdgeIndex p)
              (point (entryHit RefMath.lib p prevPos currentPos))
              (edgeIndex (entryHit RefMath.lib p prevPos currentPos))
            = Returns poly) /\
         (exists poly,
            computeCapture (territory p) (trail p) exitPt (exitEdgeIndex p)
              exitPt (exitEdgeIndex p)
            = Returns poly))
    firstFramesState.
Proof.
  apply (capture_geometry_returns RefMath.lib 8 firstFrames firstFramesState).
  vm_compute. reflexivity.
Defined.

(** ** No self-collision with a short trail *)

Lemma hitsOwnTrail_short (M : MathLib) (player : Player) (isInside : bool)
    (prevPos currentPos : Point) (item : Item) :
  (length (trail player) <= 20)%nat \/ isInside = true ->
  hitsOwnTrail M player isInside prevPos currentPos item = false.
Proof.
  intro H. unfold hitsOwnTrail. destruct item as [pid p1 p2 index|]; [|reflexivity].
  destruct H as [H| ->].
  - assert (E : (20 <? Z.of_nat (length (trail player)) - Z.of_nat index)%Z = false)
      by (apply Z.ltb_ge; lia).
    rewrite E. now rewrite !andb_false_r.
  - simpl. apply andb_false_r.
Qed.

(** X23. A player whose trail has at most twenty points, or that is
    inside its territory, cannot die of a self-collision: its own
    collision loop leaves it in the map as it was, whatever the items
    nearby are. *)
Theorem short_trail_no_self_collision (M : MathLib) (player : Player)
    (isInside : bool) (prevPos currentPos : Point) (nearby : list Item)
    (g : GameState) :
  (length (trail player) <= 20)%nat \/ isInside = true ->
  getPlayer g (id player) = Some player ->
  getPlayer (collisionLoop M player isInside prevPos currentPos nearby g) (id player)
  = Some player.
Proof.
  intros Hshort Hget.
  rewrite <- (app_nil_r nearby).
  rewrite collisionLoop_app
    by (intros it _; now apply hitsOwnTrail_short).
  simpl. now apply cutAll_keeps_player.
Qed.

Lemma short_trail_no_self_collision_witness :
  getPlayer
    (collisionLoop RefMath.lib crosserB false (prevPosOf crosserB)
       (currentPosOf crosserB) crossingNearby crossingState)
    (id crosserB)
  = Some crosserB.
Proof.
  apply (short_trail_no_self_collision RefMath.lib crosserB false
           (prevPosOf crosserB) (currentPosOf crosserB) crossingNearby crossingState).
  - left. simpl. lia.
  - reflexivity.
Defined.

(** ** GameState.ts: the map of players *)

Lemma getPlayer_removePlayer_same (s : GameState) (pid : string) :
  getPlayer (removePlayer s pid) pid = None.
Proof.
  unfold getPlayer, removePlayer. induction s as [|a s IH]; simpl; [reflexivity|].
  destruct (String.eqb (id a) pid) eqn:E; simpl; [exact IH|].
  now rewrite E.
Qed.

Lemma getPlayer_removePlayer_other (s : GameState) (pid other : string) :
  other <> pid -> getPlayer (removePlayer s pid) other = getPlayer s other.
Proof.
  intro Hne. unfold getPlayer, removePlayer.
  induction s as [|a s IH]; simpl; [reflexivity|].
  destruct (String.eqb (id a) pid) eqn:E; simpl.
  - apply String.eqb_eq in E.
    destruct (String.eqb (id a) other) eqn:E2; [|exact IH].
    apply String.eqb_eq in E2. congruence.
  - destruct (String.eqb (id a) other); [reflexivity|exact IH].
Qed.

Lemma removePlayer_absent (s : GameState) (pid : string) :
  getPlayer s pid = None -> removePlayer s pid = s.
Proof.
  unfold getPlayer, removePlayer. induction s as [|a s IH]; simpl; [reflexivity|].
  destruct (String.eqb (id a) pid); simpl; [discriminate|].
  intro H. now rewrite IH.
Qed.

Lemma removePlayer_setPlayer_new (s : GameState) (q : Player) :
  getPlayer s (id q) = None -> removePlayer (setPlayer s q) (id q) = s.
Proof.
  unfold getPlayer, removePlayer. induction s as [|a s IH]; simpl.
  - now rewrite String.eqb_refl.
  - destruct (String.eqb (id a) (id q)) eqn:E; simpl; [discriminate|].
    rewrite E. simpl. intro H. now rewrite IH.
Qed.

(** X24. [createPlayer] files the new player under its id, replacing in
    place a player that had that id, and [removePlayer] deletes it; neither
    touches what is filed under any other id, and removing a player that
    was just created under a fresh id gives back the map as it was. *)
Theorem createPlayer_removePlayer_lookup (M : MathLib) (s : GameState)
    (pid : string) (px py : float) (c : string) :
  let created := createPlayer M s pid px py c in
  getPlayer (snd created) pid = Some (fst created) /\
  (forall other, other <> pid -> getPlayer (snd created) other = getPlayer s other) /\
  map id (snd created)
  = match getPlayer s pid with
    | Some _ => map id s
    | None => map id s ++ [pid]
    end /\
  getPlayer (removePlayer s pid) pid = None /\
  (forall other, other <> pid ->
     getPlayer (removePlayer s pid) other = getPlayer s other) /\
  (getPlayer s pid = None -> removePlayer (snd created) pid = s).
Proof.
  unfold createPlayer. simpl fst. simpl snd.
  set (q := newPlayer M pid px py c).
  assert (Hq : id q = pid) by reflexivity. clearbody q. subst pid.
  repeat apply conj.
  - apply getPlayer_setPlayer_same.
  - intros other Hne. apply getPlayer_setPlayer_other. congruence.
  - destruct (getPlayer s (id q)) as [p|] eqn:E.
    + clear - E. unfold getPlayer in E.
      induction s as [|a s IH]; simpl in *; [discriminate|].
      destruct (String.eqb (id a) (id q)) eqn:E1.
      * simpl. apply String.eqb_eq in E1. now rewrite E1.
      * simpl. f_equal. now apply IH.
    + clear - E. unfold getPlayer in E.
      induction s as [|a s IH]; simpl in *; [reflexivity|].
      destruct (String.eqb (id a) (id q)) eqn:E1; [discriminate|].
      simpl. f_equal. now apply IH.
  - apply getPlayer_removePlayer_same.
  - intros other Hne. now apply getPlayer_removePlayer_other.
  - intro H. now apply removePlayer_setPlayer_new.
Qed.

(** X25. [setPlayerInput] ignores an id that is not in the map and a
    player that is dead.  For a live player it sets the target angle,
    starts the player at [PLAYER_SPEED] if its speed was zero, and changes
    nothing else, of that player or of any other. *)
Theorem setPlayerInput_frame (s : GameState) (pid : string) (a : float) :
  (getPlayer s pid = None -> setPlayerInput s pid a = s) /\
  (forall p, getPlayer s pid = Some p -> isDead p = true ->
             setPlayerInput s pid a = s) /\
  (forall p, getPlayer s pid = Some p -> isDead p = false ->
     getPlayer (setPlayerInput s pid a) pid
     = Some (set_speed (if speed p =? 0 then PLAYER_SPEED else speed p)
               (set_targetAngle a p))) /\
  (forall other, other <> pid ->
     getPlayer (setPlayerInput s pid a) other = getPlayer s other) /\
  map id (setPlayerInput s pid a) = map id s.
Proof.
  unfold setPlayerInput. repeat apply conj.
  - now intros ->.
  - intros p -> ->. reflexivity.
  - intros p Hget Hd. rewrite Hget, Hd. simpl negb. cbv iota.
    apply getPlayer_In in Hget. destruct Hget as [_ Hid]. subst pid.
    simpl speed. destruct (speed p =? 0).
    + apply (getPlayer_setPlayer_same s (set_speed PLAYER_SPEED (set_targetAngle a p))).
    + replace (set_speed (speed p) (set_targetAngle a p)) with (set_targetAngle a p)
        by now destruct p.
      apply (getPlayer_setPlayer_same s (set_targetAngle a p)).
  - intros other Hne.
    destruct (getPlayer s pid) as [p|] eqn:Hget; [|reflexivity].
    destruct (negb (isDead p)); [|reflexivity].
    apply getPlayer_In in Hget. destruct Hget as [_ Hid].
    apply getPlayer_setPlayer_other.
    destruct (speed _ =? 0); simpl; congruence.
  - apply (Forall2_ids steered); [|apply setPlayerInput_steered].
    now intros p q (b & v & ->).
Qed.

(** X26. The movement update changes of a dead player only the death
    timer (it adds [dt]).  Of a live player it leaves the id, colour,
    target angle, speed, territory, score, flags, exit point and exit edge
    alone; it records the old position as the previous one, lowers the
    invulnerability timer by [dt] only if that was positive, and adds at
    most one point to the trail, the new position, and only when the
    player is outside. *)
Theorem update_frame (M : MathLib) (fuel : nat) (dt : float) (s s' : GameState) :
  update M fuel dt s = Some s' ->
  Forall2
    (fun p p' =>
       (isDead p = true -> p' = set_deathTimer (deathTimer p + dt) p) /\
       (isDead p = false ->
        id p' = id p /\ color p' = color p /\ targetAngle p' = targetAngle p /\
        speed p' = speed p /\ territory p' = territory p /\ score p' = score p /\
        isOutside p' = isOutside p /\ isDead p' = false /\ hasWon p' = hasWon p /\
        exitPoint p' = exitPoint p /\ exitEdgeIndex p' = exitEdgeIndex p /\
        deathTimer p' = deathTimer p /\
        territoryChanged p' = territoryChanged p /\
        prevX p' = Some (posX p) /\ prevY p' = Some (posY p) /\
        invulnerableTimer p'
        = (if 0 <? invulnerableTimer p then invulnerableTimer p - dt
           else invulnerableTimer p) /\
        (trail p' = trail p \/
         (isOutside p = true /\ trail p' = trail p ++ [currentPosOf p']))))
    s s'.
Proof.
  revert s'. induction s as [|p s IH]; intros s'; simpl.
  - intros [= <-]. constructor.
  - destruct (updatePlayer M fuel dt p) as [p'|] eqn:Hp; [|discriminate].
    destruct (update M fuel dt s) as [r|]; [|discriminate].
    intros [= <-]. constructor; [|auto]. clear IH.
    revert Hp. unfold updatePlayer.
    destruct (isDead p) eqn:Hd.
    + intros [= <-]. split; [reflexivity|discriminate].
    + destruct (updatePlayerMovement _ _ _ _) as [q|] eqn:Hq; [|discriminate].
      intros [= <-]. split; [discriminate|]. intros _.
      revert Hq. unfold updatePlayerMovement.
      destruct (normalizeDiff _ _); [|discriminate]. intros [= <-].
      unfold updatePlayerTrail, moveWithDiff.
      destruct (0 <? invulnerableTimer p); simpl;
        (destruct (isOutside p) eqn:Ho; simpl;
         [match goal with |- context [if ?c then _ else _] => destruct c end;
          simpl; rewrite ?Ho, ?Hd; repeat apply conj; auto
         |rewrite ?Ho, ?Hd; repeat apply conj; auto]).
Qed.

Lemma update_frame_witness :
  Forall2
    (fun p p' =>
       (isDead p = true -> p' = set_deathTimer (deathTimer p + 17 / 1000) p) /\
       (isDead p = false ->
        id p' = id p /\ color p' = color p /\ targetAngle p' = targetAngle p /\
        speed p' = speed p /\ territory p' = territory p /\ score p' = score p /\
        isOutside p' = isOutside p /\ isDead p' = false /\ hasWon p' = hasWon p /\
        exitPoint p' = exitPoint p /\ exitEdgeIndex p' = exitEdgeIndex p /\
        deathTimer p' = deathTimer p /\
        territoryChanged p' = territoryChanged p /\
        prevX p' = Some (posX p) /\ prevY p' = Some (posY p) /\
        invulnerableTimer p'
        = (if 0 <? invulnerableTimer p then invulnerableTimer p - 17 / 1000
           else invulnerableTimer p) /\
        (trail p' = trail p \/
         (isOutside p = true /\ trail p' = trail p ++ [currentPosOf p']))))
    crossingState (stateOf (update RefMath.lib 8 (17 / 1000) crossingState)).
Proof.
  apply (update_frame RefMath.lib 8 (17 / 1000) crossingState
           (stateOf (update RefMath.lib 8 (17 / 1000) crossingState))).
  vm_compute. reflexivity.
Defined.

(** ** What a pass leaves alone *)

Lemma passFrame_refl (p : Player) : passFrame p p.
Proof. unfold passFrame. auto 20. Qed.

Lemma passFrame_trans (p q r : Player) :
  passFrame p q -> passFrame q r -> passFrame p r.
Proof.
  unfold passFrame.
  intros (A1 & A2 & A3 & A4 & A5 & A6 & A7 & A8 & A9 & A10 & A11 & A12 & A13)
         (B1 & B2 & B3 & B4 & B5 & B6 & B7 & B8 & B9 & B10 & B11 & B12 & B13).
  repeat apply conj; try congruence; auto.
  destruct B13 as [[B13 B14]|B13]; [|now right].
  destruct A13 as [[A13 A14]|A13]; [left; split; congruence|right; auto].
Qed.

Lemma passFrame_winBranch (p : Player) : passFrame p (winBranch p).
Proof.
  unfold winBranch, passFrame.
  destruct (negb (hasWon p)) eqn:Hw; simpl; destruct (isOutside p); simpl;
    repeat apply conj; auto.
Qed.

Lemma passFrame_own (M : MathLib) (p0 p : Player) (jc : bool) :
  isDead p0 = false -> capturePhase M p0 = Some (p, jc) ->
  id p = id p0 /\
  passFrame p0 (if jc then p
                else if winThreshold <=? score p then winBranch p else p).
Proof.
  intros Hdead Hcap.
  pose proof (capturePhase_identity M p0 p jc Hcap) as (Hid & _).
  split; [exact Hid|].
  apply capturePhase_cases in Hcap.
  assert (Hp : passFrame p0 p).
  { destruct Hcap as [|pt k Hout Hin Hinv Hhit|Hout|newT Hout Hlen];
      unfold passFrame; simpl; repeat apply conj; auto. }
  destruct jc; [exact Hp|].
  destruct (winThreshold <=? score p); [|exact Hp].
  apply passFrame_trans with (1 := Hp). apply passFrame_winBranch.
Qed.

Lemma passFrame_kill (v : Player) : isOutside v = true -> passFrame v (killPlayer v).
Proof. intros _. unfold passFrame. simpl. repeat apply conj; auto. Qed.

(** X27. The capture and collision pass never moves or steers anyone: it
    leaves the id, colour, position, previous position, angle, target
    angle and speed of every player as they were.  It only ever raises
    [hasWon], [isDead] and [territoryChanged], and a player whose territory
    or score differs afterwards has [territoryChanged] set. *)
Theorem pass_frame (M : MathLib) (s s' : GameState) :
  checkCaptureAndCollisions M s = Some s' ->
  Forall2
    (fun p p' =>
       id p' = id p /\ color p' = color p /\ posX p' = posX p /\ posY p' = posY p /\
       angle p' = angle p /\ targetAngle p' = targetAngle p /\ speed p' = speed p /\
       prevX p' = prevX p /\ prevY p' = prevY p /\
       (hasWon p = true -> hasWon p' = true) /\
       (isDead p = true -> isDead p' = true) /\
       (territoryChanged p = true -> territoryChanged p' = true) /\
       ((territory p' = territory p /\ score p' = score p) \/
        territoryChanged p' = true))
    s s'.
Proof.
  apply (checkCaptureAndCollisions_lift passFrame passFrame_refl passFrame_trans M
           (passFrame_own M) passFrame_kill).
Qed.

Lemma pass_frame_witness :
  Forall2
    (fun p p' =>
       id p' = id p /\ color p' = color p /\ posX p' = posX p /\ posY p' = posY p /\
       angle p' = angle p /\ targetAngle p' = targetAngle p /\ speed p' = speed p /\
       prevX p' = prevX p /\ prevY p' = prevY p /\
       (hasWon p = true -> hasWon p' = true) /\
       (isDead p = true -> isDead p' = true) /\
       (territoryChanged p = true -> territoryChanged p' = true) /\
       ((territory p' = territory p /\ score p' = score p) \/
        territoryChanged p' = true))
    crossingState crossingAfter.
Proof.
  apply (pass_frame RefMath.lib crossingState crossingAfter).
  vm_compute. reflexivity.
Defined.

(** ** The dead are frozen *)

Lemma frozen_refl (p : Player) : frozen p p.
Proof.
  split; [reflexivity|]. intros _. exists (deathTimer p). now destruct p.
Qed.

Lemma frozen_trans (p q r : Player) : frozen p q -> frozen q r -> frozen p r.
Proof.
  intros [I1 F1] [I2 F2]. split; [congruence|].
  intro Hd. destruct (F1 Hd) as [t ->].
  destruct (F2 Hd) as [t' ->]. now exists t'.
Qed.

Lemma update_frozen (M : MathLib) (fuel : nat) (dt : float) :
  forall s s', update M fuel dt s = Some s' -> Forall2 frozen s s'.
Proof.
  induction s as [|p s IH]; intros s'; simpl.
  - intros [= <-]. constructor.
  - destruct (updatePlayer M fuel dt p) as [p'|] eqn:Hp; [|discriminate].
    destruct (update M fuel dt s) as [r|]; [|discriminate].
    intros [= <-]. constructor; [|auto].
    split.
    + apply updatePlayer_wonStep in Hp. now destruct Hp.
    + intro Hd. unfold updatePlayer in Hp. rewrite Hd in Hp.
      injection Hp as <-. eauto.
Qed.

Lemma setPlayerInput_frozen (s : GameState) (pid : string) (a : float) :
  Forall2 frozen s (setPlayerInput s pid a).
Proof.
  unfold setPlayerInput.
  destruct (getPlayer s pid) as [p|] eqn:Hget;
    [|apply Forall2_T_refl, frozen_refl].
  destruct (isDead p) eqn:Hd; simpl; [apply Forall2_T_refl, frozen_refl|].
  apply getPlayer_In in Hget as Hin. destruct Hin as [_ Hid].
  apply setPlayer_Forall2 with (p0 := p).
  - apply frozen_refl.
  - destruct (speed _ =? 0); simpl; now rewrite Hid.
  - split; [now destruct (speed _ =? 0)|]. congruence.
Qed.

Lemma pass_frozen (M : MathLib) (s s' : GameState) :
  NoDup (map id s) -> checkCaptureAndCollisions M s = Some s' ->
  Forall2 frozen s s'.
Proof.
  intros Hnd Hpass.
  pose proof (checkCaptureAndCollisions_wonStep M s s' Hpass) as Hid.
  pose proof (pass_processed M s Hnd s' Hpass) as H.
  clear Hnd Hpass. revert Hid.
  induction H as [|p p' s s' Hp _ IH]; intro Hid; [constructor|].
  inversion Hid; subst. constructor; [|auto].
  split; [now destruct H2|].
  intro Hd.
  destruct Hp as [[_ ->]|[(H1 & _)|(H1 & _)]]; [|congruence|congruence].
  exists (deathTimer p). now destruct p.
Qed.

(** X28. The dead are frozen.  From a map with distinct ids, through any
    sequence of movement updates, inputs and capture and collision passes,
    a player that is dead keeps every field but its death timer: it is
    never moved, revived, given a trail or a territory, or scored. *)
Theorem dead_players_frozen (M : MathLib) (fuel : nat) (evs : list Event) :
  forall s s',
    NoDup (map id s) ->
    forallb keepsPlayers evs = true ->
    run M fuel evs s = Some s' ->
    Forall2
      (fun p p' =>
         id p' = id p /\ (isDead p = true -> exists t, p' = set_deathTimer t p))
      s s'.
Proof.
  induction evs as [|ev evs IH]; intros s s' Hnd Hk; simpl.
  - intros [= <-]. apply Forall2_T_refl. apply frozen_refl.
  - simpl in Hk. apply andb_true_iff in Hk. destruct Hk as [Hk1 Hk2].
    destruct (step M fuel ev s) as [s1|] eqn:H1; [|discriminate].
    intro Hrun.
    assert (Hf : Forall2 frozen s s1).
    { destruct ev; simpl in H1; try discriminate.
      - injection H1 as <-. apply setPlayerInput_frozen.
      - now apply update_frozen in H1.
      - now apply pass_frozen in H1. }
    apply (Forall2_T_trans frozen frozen_trans s s1 s' Hf).
    apply IH; [exact (step_unique M fuel ev s s1 H1 Hnd)|exact Hk2|exact Hrun].
Qed.

Lemma dead_players_frozen_witness :
  Forall2
    (fun p p' =>
       id p' = id p /\ (isDead p = true -> exists t, p' = set_deathTimer t p))
    crossingAfter crossingLater.
Proof.
  apply (dead_players_frozen RefMath.lib 8
           [EvUpdate (17 / 1000); EvInput "A" 1; EvCheck] crossingAfter crossingLater).
  - vm_compute. repeat constructor; simpl; intuition discriminate.
  - reflexivity.
  - vm_compute. reflexivity.
Defined.
(** ** A segment without length *)

Lemma sub_self_zeroOrNaN (v : float) : zeroOrNaN (v - v).
Proof.
  unfold zeroOrNaN. rewrite sub_spec. unfold SF64sub.
  destruct (Prim2SF v) as [s|s| |s m e]; simpl.
  - now destruct s.
  - now destruct s.
  - exact I.
  - unfold shl_align. rewrite Z.min_id, Z.sub_diag. simpl.
    rewrite ?Z.sub_diag. exact I.
Qed.

Lemma mul_zeroOrNaN_r (v w : float) : zeroOrNaN w -> zeroOrNaN (v * w).
Proof.
  unfold zeroOrNaN. rewrite mul_spec. unfold SF64mul.
  destruct (Prim2SF w) as [s|s| |s m e]; try contradiction; intros _;
    now destruct (Prim2SF v).
Qed.

Lemma sub_zeroOrNaN (v w : float) :
  zeroOrNaN v -> zeroOrNaN w -> zeroOrNaN (v - w).
Proof.
  unfold zeroOrNaN. rewrite sub_spec. unfold SF64sub.
  destruct (Prim2SF v) as [s|s| |s m e]; try contradiction; intros _;
    destruct (Prim2SF w) as [s'|s'| |s' m' e']; try contradiction; intros _;
      simpl; try exact I.
  now destruct s, s'.
Qed.

(** A zero or NaN that is not equal to 0 is NaN. *)
Lemma zeroOrNaN_nan (v : float) :
  zeroOrNaN v -> (v =? 0) = false -> Prim2SF v = S754_nan.
Proof.
  unfold zeroOrNaN. rewrite FloatAxioms.eqb_spec.
  destruct (Prim2SF v) as [s|s| |s m e]; try contradiction; intros _.
  - now destruct s.
  - reflexivity.
Qed.

Lemma leb_div_nan (u v w : float) :
  Prim2SF w = S754_nan -> (u <=? v / w) = false.
Proof.
  intro H. rewrite leb_spec, div_spec, H. unfold SF64div, SFleb.
  now destruct (Prim2SF v), (Prim2SF u).
Qed.

Lemma getSegmentIntersection_still (A C D : Point) :
  getSegmentIntersection A A C D = None.
Proof.
  unfold getSegmentIntersection.
  destruct (_ =? 0) eqn:E; [reflexivity|].
  apply zeroOrNaN_nan in E.
  - now rewrite (leb_div_nan 0 _ _ E).
  - apply sub_zeroOrNaN; apply mul_zeroOrNaN_r, sub_self_zeroOrNaN.
Qed.

Lemma fbi_loop_still (A : Point) (polygon : list Point) (fuel i : nat) :
  fbi_loop A A polygon fuel i = None.
Proof.
  revert i. induction fuel as [|fuel IH]; intro i; simpl; [reflexivity|].
  now rewrite getSegmentIntersection_still.
Qed.

(** X29. A movement without length crosses nothing, whatever the numbers
    are: a segment from a point to itself intersects no segment and no
    polygon boundary, so the collision loop of a player that stands still
    cuts no trail and finds no self-collision; it leaves the map as it
    is. *)
Theorem still_player_crosses_nothing (M : MathLib) (A : Point) :
  (forall C D, getSegmentIntersection A A C D = None) /\
  (forall polygon, findBoundaryIntersection A A polygon = None) /\
  (forall player isInside nearby players,
     collisionLoop M player isInside A A nearby players = players).
Proof.
  split; [|split].
  - intros C D. apply getSegmentIntersection_still.
  - intro polygon. apply fbi_loop_still.
  - intros player isInside nearby players.
    induction nearby as [|item rest IH]; simpl; [reflexivity|].
    assert (Hcut : cutForeignTrail player A A item players = players).
    { unfold cutForeignTrail, segmentsIntersect.
      rewrite getSegmentIntersection_still. now destruct (negb _ && _). }
    assert (Hown : hitsOwnTrail M player isInside A A item = false).
    { destruct item as [pid p1 p2 index|pid p1 p2]; [|reflexivity].
      unfold hitsOwnTrail, segmentsIntersect.
      rewrite getSegmentIntersection_still. now rewrite !andb_false_r. }
    rewrite Hcut, Hown. exact IH.
Qed.
(** ** Bots and humans *)

Lemma mapSet_length {V : Type} (m : list (string * V)) (key : string) (v : V) :
  (length m <= length (mapSet m key v) <= S (length m))%nat.
Proof.
  induction m as [|[k w] rest IH]; simpl; [lia|].
  destruct (String.eqb k key); simpl; lia.
Qed.

(** Storing a player whose id starts with [BOT_] leaves the human players
    as they are. *)
Lemma humanPlayers_setPlayer (players : GameState) (player : Player) :
  String.prefix "BOT_" (id player) = true ->
  humanPlayers (setPlayer players player) = humanPlayers players.
Proof.
  intro Hbot. unfold humanPlayers, getAllPlayers.
  induction players as [|q rest IH]; simpl.
  - now rewrite Hbot.
  - destruct (String.eqb (id q) (id player)) eqn:E; simpl.
    + apply String.eqb_eq in E. now rewrite E, Hbot.
    + now rewrite IH.
Qed.

Lemma spawnBot_counts (M : MathLib) (random : nat -> float)
    (base36 : float -> string) (room : GameRoom.t) :
  humanPlayers (GameRoom.game (GameRoom.spawnBot M random base36 room))
  = humanPlayers (GameRoom.game room) /\
  GameRoom.colorIndex (GameRoom.spawnBot M random base36 room)
  = S (GameRoom.colorIndex room) /\
  (length (GameRoom.bots room)
   <= length (GameRoom.bots (GameRoom.spawnBot M random base36 room))
   <= S (length (GameRoom.bots room)))%nat.
Proof.
  unfold GameRoom.spawnBot.
  destruct (GameRoom.findSpawnPosition M random (GameRoom.game room) _)
    as [spawn calls].
  unfold createPlayer. cbn [GameRoom.game GameRoom.colorIndex GameRoom.bots].
  repeat apply conj.
  - apply humanPlayers_setPlayer. cbv [newPlayer id]. simpl.
    now destruct (base36 _).
  - reflexivity.
  - apply mapSet_length.
  - apply mapSet_length.
Qed.

Lemma spawnBots_counts (M : MathLib) (random : nat -> float)
    (base36 : float -> string) (l : list nat) (room : GameRoom.t) :
  humanPlayers
    (GameRoom.game (fold_left (fun r _ => GameRoom.spawnBot M random base36 r) l room))
  = humanPlayers (GameRoom.game room) /\
  GameRoom.colorIndex (fold_left (fun r _ => GameRoom.spawnBot M random base36 r) l room)
  = (GameRoom.colorIndex room + length l)%nat /\
  (length (GameRoom.bots room)
   <= length (GameRoom.bots
                (fold_left (fun r _ => GameRoom.spawnBot M random base36 r) l room))
   <= length (GameRoom.bots room) + length l)%nat.
Proof.
  revert room. induction l as [|n l IH]; intro room; simpl.
  - repeat apply conj; auto; lia.
  - destruct (IH (GameRoom.spawnBot M random base36 room)) as (H1 & H2 & H3).
    destruct (spawnBot_counts M random base36 room) as (K1 & K2 & K3).
    rewrite H1, H2, K1, K2. repeat apply conj; auto; lia.
Qed.

(** X30. [manageBotPopulation] never touches a human player: the players
    whose id does not start with [BOT_] are the same records in the same
    order afterwards.  With three or more humans, or with humans and bot
    brains adding up to four or more, it changes nothing at all.
    Otherwise it calls [spawnBot] exactly as often as the total is short
    of four (each call takes one colour), and the number of bot brains
    grows by at most that, so the total it counts never passes four. *)
Theorem manageBotPopulation_tops_up (M : MathLib) (random : nat -> float)
    (base36 : float -> string) (room : GameRoom.t) :
  let room' := GameRoom.manageBotPopulation M random base36 room in
  let humans := length (humanPlayers (GameRoom.game room)) in
  let total := (humans + length (GameRoom.bots room))%nat in
  humanPlayers (GameRoom.game room') = humanPlayers (GameRoom.game room) /\
  ((GameRoom.MIN_HUMAN_PLAYERS_FOR_BOTS <= humans)%nat \/
   (GameRoom.TARGET_TOTAL_PLAYERS <= total)%nat -> room' = room) /\
  ((humans < GameRoom.MIN_HUMAN_PLAYERS_FOR_BOTS)%nat ->
   (total < GameRoom.TARGET_TOTAL_PLAYERS)%nat ->
   GameRoom.colorIndex room'
   = (GameRoom.colorIndex room + (GameRoom.TARGET_TOTAL_PLAYERS - total))%nat /\
   (length (GameRoom.bots room) <= length (GameRoom.bots room'))%nat /\
   (humans + length (GameRoom.bots room') <= GameRoom.TARGET_TOTAL_PLAYERS)%nat).
Proof.
  intros room' humans total. subst room'.
  unfold GameRoom.manageBotPopulation. fold (humanPlayers (GameRoom.game room)).
  fold humans. fold total.
  destruct (spawnBots_counts M random base36
              (seq 0 (GameRoom.TARGET_TOTAL_PLAYERS - total)) room)
    as (H1 & H2 & H3).
  rewrite length_seq in H2, H3.
  destruct (GameRoom.MIN_HUMAN_PLAYERS_FOR_BOTS <=? humans)%nat eqn:E1.
  - apply Nat.leb_le in E1. repeat apply conj; auto; intros; lia.
  - apply Nat.leb_gt in E1.
    destruct (total <? GameRoom.TARGET_TOTAL_PLAYERS)%nat eqn:E2.
    + apply Nat.ltb_lt in E2. repeat apply conj.
      * exact H1.
      * intros [H|H]; lia.
      * intros _ _. repeat apply conj; [exact H2|lia|lia].
    + apply Nat.ltb_ge in E2. repeat apply conj; auto; intros; lia.
Qed.
